(** * golearn: room servers (chat, number guessing, rock-paper-scissors, snake)

    A shallow embedding of the four Go programs of the repository and the
    properties of their room registry, membership, broadcast and game logic.

    Conventions of the embedding.
    - A [*websocket.Conn] is an opaque connection identity ([Conn]). Where
      the code looks at the error of a write (the chat programs and
      rock-paper-scissors), whether the write fails is given by an oracle
      [fails : Conn -> bool]; where it drops the error, the write is one
      event whatever its outcome.
    - Calls with an outside effect (a websocket write, a database insert, a
      line on standard output, closing a connection) are recorded, in program
      order, in a list of events returned by the operation.
    - [math/rand] is a stream of raw draws ([Rand]); [Intn n] consumes one.
    - Go's [for ... range m] over a map visits every entry once in an
      unspecified order: every ranging operation takes the order of the
      visit as an argument ([visits m order] says it is a legal one).
    - Rooms live behind pointers ([*Room]); the registry maps names to
      locations of a store, so that "the same instance" is "the same
      location". *)

From Stdlib Require Import ZArith Lia.
From stdpp Require Import gmap strings list fin_maps pretty relations.

Open Scope string_scope.
Open Scope list_scope.

(** ** Shared vocabulary *)

Definition Conn := nat.
Definition loc := nat.

(** The global random source: the raw draws still to come (a source that
    has run out keeps drawing 0). *)
Definition Rand := list Z.

(** [rand.Intn(n)]: a value in [0,n) for [n > 0] (Go panics otherwise; every
    call site passes 100 or a room dimension, which is 20). *)
Definition Intn (n : Z) (g : Rand) : Z * Rand :=
  match g with
  | [] => (0%Z, [])
  | x :: g' => ((x `mod` n)%Z, g')
  end.

(** Go's [int] on the 64-bit targets: two's complement wrap-around. *)
Definition int_min : Z := (- 2 ^ 63)%Z.
Definition int_max : Z := (2 ^ 63 - 1)%Z.
Definition wrap (z : Z) : Z := ((z + 2 ^ 63) `mod` 2 ^ 64 - 2 ^ 63)%Z.

(** A legal visiting order of [range m]: each key of [m] exactly once. *)
Definition visits `{Countable K} {V} (m : gmap K V) (order : list K) : Prop :=
  NoDup order ∧ ∀ k, k ∈ order ↔ is_Some (m !! k).

(** The calls of a client session on the registry, seen as small threads:
    a call that has not started, one that missed in the read-locked lookup
    and waits for the write lock, and one that has returned. *)
Inductive Call :=
| Pending (n : string)
| Missed (n : string)
| Returned (n : string) (l : loc).

(** What every interleaving preserves: a returned call holds the location
    the registry has for its name, and one room was allocated per name. *)
Definition registry_inv (rooms : gmap string loc) (nstore : nat)
    (pool : list Call) : Prop :=
  (∀ i n l, pool !! i = Some (Returned n l) → rooms !! n = Some l)
  ∧ nstore = size rooms.

(** The name a call was made for, and the number of critical sections a
    call still has before it (at most two: the lookup and the creation). *)
Definition call_name (c : Call) : string :=
  match c with Pending n | Missed n | Returned n _ => n end.

Definition work (c : Call) : nat :=
  match c with Pending _ => 2 | Missed _ => 1 | Returned _ _ => 0 end.

Definition backlog (pool : list Call) : nat := sum_list (work <$> pool).

(** ** Number guessing (second program of the unnamed source file) *)
Module Guess.

Record Player := mkPlayer { id : string; conn : Conn }.

Record Room := mkRoom {
  name : string;
  players : gmap string Player;
  secret : Z
}.

Record GameServer := mkServer {
  rooms : gmap string loc;
  store : gmap loc Room
}.

Inductive Event :=
| Write (c : Conn) (msg : string)
| SaveResult (player room result : string)
| Close (c : Conn).

Definition NewGameServer : GameServer := mkServer ∅ ∅.

(** The read-locked lookup at the top of [getRoom]. *)
Definition lookupShared (n : string) (s : GameServer) : option loc :=
  rooms s !! n.

(** The write-locked part of [getRoom]: check again, create if absent. *)
Definition createExcl (n : string) (s : GameServer) (g : Rand)
  : loc * GameServer * Rand :=
  match rooms s !! n with
  | Some l => (l, s, g)
  | None =>
      let '(x, g') := Intn 100 g in
      let room := mkRoom n ∅ (x + 1)%Z in
      let l := fresh (dom (store s)) in
      (l, mkServer (<[n := l]> (rooms s)) (<[l := room]> (store s)), g')
  end.

Definition getRoom (n : string) (s : GameServer) (g : Rand)
  : loc * GameServer * Rand :=
  match lookupShared n s with
  | Some l => (l, s, g)
  | None => createExcl n s g
  end.

(** Interleavings of concurrent [getRoom] calls: each critical section is
    one atomic step of one of the calls. *)
Inductive step : GameServer * Rand * list Call → GameServer * Rand * list Call → Prop :=
| step_lookup i n s g pool :
    pool !! i = Some (Pending n) →
    step (s, g, pool)
         (s, g, <[i := match lookupShared n s with
                       | Some l => Returned n l
                       | None => Missed n
                       end]> pool)
| step_create i n s g pool l s' g' :
    pool !! i = Some (Missed n) →
    createExcl n s g = (l, s', g') →
    step (s, g, pool) (s', g', <[i := Returned n l]> pool).

Definition setPlayers (m : gmap string Player) (r : Room) : Room :=
  mkRoom (name r) m (secret r).

Definition setSecret (z : Z) (r : Room) : Room :=
  mkRoom (name r) (players r) z.

(** [Room.broadcast]: one write per visited member; the error of the write
    is dropped. *)
Definition broadcast (msg : string) (order : list string) (r : Room)
  : list Event :=
  omap (λ k, (λ p, Write (conn p) msg) <$> players r !! k) order.

(** [Room.saveResult]: the insert into [game_results] (a failure of the
    insert only prints a line). *)
Definition saveResult (playerID result : string) (r : Room) : list Event :=
  [SaveResult playerID (name r) result].

(** [handleConnections], registration of the new connection [c]. *)
Definition join (c : Conn) (order : list string) (r : Room)
  : string * Player * Room * list Event :=
  let playerID := "P" +:+ pretty (size (players r) + 1) in
  let player := mkPlayer playerID c in
  let r' := setPlayers (<[playerID := player]> (players r)) r in
  (playerID, player, r',
   broadcast ("玩家 " +:+ playerID +:+ " 加入了房间 " +:+ name r
              +:+ "，当前玩家数: " +:+ pretty (size (players r')))
             order r').

(** [handleConnections], the deferred clean-up of the session. *)
Definition leave (playerID : string) (c : Conn) (order : list string)
    (r : Room) : Room * list Event :=
  let r' := setPlayers (delete playerID (players r)) r in
  (r', Close c ::
       broadcast ("玩家 " +:+ playerID +:+ " 离开了房间 " +:+ name r
                  +:+ "，当前玩家数: " +:+ pretty (size (players r')))
                 order r').

(** The loop over the members after a correct guess. *)
Definition saveLosers (playerID : string) (order : list string) (r : Room)
  : list Event :=
  flat_map (λ k, match players r !! k with
                 | Some p => if String.eqb (id p) playerID then []
                             else saveResult (id p) "lose" r
                 | None => []
                 end) order.

(** [handleConnections], one turn of the session's read loop on a message
    that was read without error; [parsed] is what [fmt.Sscanf] with the
    verb [%d] made of it ([None]: an error). The three ranges over the
    members (two broadcasts, the losers) each have their own order. *)
Definition recv (playerID : string) (player : Player) (parsed : option Z)
    (o1 o2 o3 : list string) (r : Room) (g : Rand)
  : list Event * Room * Rand :=
  match parsed with
  | None => ([Write (conn player) "请输入有效的数字"], r, g)
  | Some guess =>
      if (guess <? secret r)%Z then
        ([Write (conn player) "太小了"], r, g)
      else if (guess >? secret r)%Z then
        ([Write (conn player) "太大了"], r, g)
      else
        let result := "玩家 " +:+ playerID +:+ " 猜对了！答案是 "
                      +:+ pretty (secret r) in
        let '(x, g') := Intn 100 g in
        let r' := setSecret (x + 1)%Z r in
        ((broadcast result o1 r
            ++ saveResult playerID "win" r
            ++ saveLosers playerID o2 r
            ++ broadcast "新一轮开始！请继续猜数字" o3 r')%list,
         r', g')
  end.

#[global] Instance Event_eq_dec : EqDecision Event.
Proof. solve_decision. Defined.

(** Every entry of the membership is filed under the id of its player (so
    [handleConnections] builds it). *)
Definition wf (r : Room) : Prop :=
  ∀ k p, players r !! k = Some p → id p = k.

(** How often an event was issued. *)
Definition times (e : Event) (ev : list Event) : nat :=
  count_occ Event_eq_dec ev e.

(** Every registered name leads to a stored room of that name. *)
Definition registered (s : GameServer) : Prop :=
  ∀ n l, rooms s !! n = Some l → ∃ room, store s !! l = Some room ∧ name room = n.


(** The registry as calls of [getRoom] alone leave it: every registered
    name leads to a room of that name as [getRoom] makes it, without
    players and with a secret in [1,100], and every stored room is the
    registered room of its name. *)
Definition created (s : GameServer) : Prop :=
  (∀ n l, rooms s !! n = Some l →
          ∃ z, store s !! l = Some (mkRoom n ∅ z) ∧ (1 ≤ z ≤ 100)%Z)
  ∧ (∀ l room, store s !! l = Some room → rooms s !! name room = Some l).

End Guess.

(** ** Snake *)
Module Snake.

Record Point := mkPoint { X : Z; Y : Z }.

Record Snake := mkSnake {
  ID : string;
  Body : list Point;
  Dir : string;
  Score : Z;
  Alive : bool;
  conn : option Conn
}.

(** Every key of [players] holds the pointer to a snake of its own, made
    by [handleWS]: the map of pointers is the map of the snakes behind
    them, and a change through the pointer is an update of the entry. *)
Record Room := mkRoom {
  name : string;
  width : Z;
  height : Z;
  players : gmap string Snake;
  food : Point;
  looping : bool
}.

Record GameServer := mkServer {
  rooms : gmap string loc;
  store : gmap loc Room
}.

Definition NewGameServer : GameServer := mkServer ∅ ∅.

(** [getRoom] runs wholly under the server's mutex. The two coordinates of
    the first food cell are drawn in the order of the composite literal;
    [onceLoop.Do] starts the room's loop, recorded in [looping]. *)
Definition getRoom (n : string) (s : GameServer) (g : Rand)
  : loc * GameServer * Rand :=
  match rooms s !! n with
  | Some l => (l, s, g)
  | None =>
      let '(x, g1) := Intn 20 g in
      let '(y, g2) := Intn 20 g1 in
      let room := mkRoom n 20%Z 20%Z ∅ (mkPoint x y) true in
      let l := fresh (dom (store s)) in
      (l, mkServer (<[n := l]> (rooms s)) (<[l := room]> (store s)), g2)
  end.

Inductive step : GameServer * Rand * list Call → GameServer * Rand * list Call → Prop :=
| step_getRoom i n s g pool l s' g' :
    pool !! i = Some (Pending n) →
    getRoom n s g = (l, s', g') →
    step (s, g, pool) (s', g', <[i := Returned n l]> pool).

#[global] Instance Point_eq_dec : EqDecision Point.
Proof. solve_decision. Defined.

(** The JSON objects written to the clients, before marshalling. *)
Inductive Msg :=
| MsgState (players : gmap string Snake) (food : Point) (room : string)
           (w h : Z)
| MsgWelcome (player room : string) (w h : Z) (food : Point)
             (players : gmap string Snake)
| MsgLeave (player : string).

Inductive Event :=
| Write (c : Conn) (m : Msg)
| SaveScore (player room : string) (score : Z)
| Close (c : Conn).

Definition setPlayers (m : gmap string Snake) (r : Room) : Room :=
  mkRoom (name r) (width r) (height r) m (food r) (looping r).

Definition setFood (p : Point) (r : Room) : Room :=
  mkRoom (name r) (width r) (height r) (players r) p (looping r).

Definition setAlive (b : bool) (s : Snake) : Snake :=
  mkSnake (ID s) (Body s) (Dir s) (Score s) b (conn s).

Definition setBody (b : list Point) (s : Snake) : Snake :=
  mkSnake (ID s) b (Dir s) (Score s) (Alive s) (conn s).

Definition setScore (z : Z) (s : Snake) : Snake :=
  mkSnake (ID s) (Body s) (Dir s) z (Alive s) (conn s).

(** The [switch] on the direction in [Room.update]. *)
Definition nextHead (dir : string) (head : Point) : Point :=
  if String.eqb dir "up" then mkPoint (X head) (wrap (Y head - 1))
  else if String.eqb dir "down" then mkPoint (X head) (wrap (Y head + 1))
  else if String.eqb dir "left" then mkPoint (wrap (X head - 1)) (Y head)
  else if String.eqb dir "right" then mkPoint (wrap (X head + 1)) (Y head)
  else head.

Definition outside (p : Point) (r : Room) : bool :=
  (X p <? 0)%Z || (X p >=? width r)%Z || (Y p <? 0)%Z || (Y p >=? height r)%Z.

(** The loops with [break] over a body, and over all bodies, compute an
    existential: their visiting order does not show in the result. *)
Definition hits (p : Point) (body : list Point) : bool :=
  bool_decide (p ∈ body).

Definition otherHit (snake : Snake) (next : Point) (r : Room) : bool :=
  bool_decide (map_Exists (λ _ other, ID other ≠ ID snake ∧ next ∈ Body other)
                          (players r)).

Definition occupied (p : Point) (r : Room) : bool :=
  bool_decide (map_Exists (λ _ s, p ∈ Body s) (players r)).

(** [Room.randomEmptyCell]: [n] attempts left; the two coordinates of an
    attempt are drawn in the order of the composite literal. *)
Fixpoint randomEmptyCell_loop (n : nat) (r : Room) (g : Rand) : Point * Rand :=
  match n with
  | O => (food r, g)
  | S n' =>
      let '(x, g1) := Intn (width r) g in
      let '(y, g2) := Intn (height r) g1 in
      let p := mkPoint x y in
      if occupied p r then randomEmptyCell_loop n' r g2 else (p, g2)
  end.

Definition randomEmptyCell (r : Room) (g : Rand) : Point * Rand :=
  randomEmptyCell_loop 200 r g.

Definition saveScore (playerID : string) (score : Z) (r : Room) : list Event :=
  [SaveScore playerID (name r) score].

(** The three places of [Room.update] where a snake dies. *)
Definition die (k : string) (snake : Snake) (st : Room * Rand * list Event)
  : Room * Rand * list Event :=
  let '(r, g, ev) := st in
  if Alive snake then
    (setPlayers (<[k := setAlive false snake]> (players r)) r, g,
     (ev ++ saveScore (ID snake) (Score snake) r)%list)
  else st.

(** The body of the loop of [Room.update] for the entry under key [k]:
    the snake behind the pointer is changed in place, which is an update
    of the entry. *)
Definition updateSnake (st : Room * Rand * list Event) (k : string)
  : Room * Rand * list Event :=
  let '(r, g, ev) := st in
  match players r !! k with
  | None => st
  | Some snake =>
      if negb (Alive snake) then st else
      match Body snake with
      | [] => st
      | head :: _ =>
          let next := nextHead (Dir snake) head in
          if outside next r then die k snake st
          else if hits next (Body snake) then die k snake st
          else if otherHit snake next r then die k snake st
          else
            let newBody := next :: removelast (Body snake) in
            let snake1 := setBody newBody snake in
            if bool_decide (next = food r) then
              let tail := List.last newBody next in
              let snake2 :=
                setBody (newBody ++ [tail])%list
                        (setScore (wrap (Score snake1 + 1)) snake1) in
              let r2 := setPlayers (<[k := snake2]> (players r)) r in
              let '(p, g') := randomEmptyCell r2 g in
              (setFood p r2, g', ev)
            else (setPlayers (<[k := snake1]> (players r)) r, g, ev)
      end
  end.

(** [Room.snapshotPlayers]: the copies leave the connection out. *)
Definition snapshotPlayers (r : Room) : gmap string Snake :=
  (λ s, mkSnake (ID s) (Body s) (Dir s) (Score s) (Alive s) None) <$> players r.

(** A write to every visited snake with a connection; errors are dropped. *)
Definition broadcast (m : Msg) (order : list string) (r : Room) : list Event :=
  omap (λ k, players r !! k ≫= λ s, (λ c, Write c m) <$> conn s) order.

(** [Room.update]: [order] is the visiting order of the loop over the
    snakes, [border] that of the closing broadcast. *)
Definition update (order border : list string) (r : Room) (g : Rand)
  : Room * Rand * list Event :=
  let '(r', g', ev) := foldl updateSnake (r, g, []) order in
  let state := MsgState (snapshotPlayers r') (food r') (name r')
                        (width r') (height r') in
  (r', g', (ev ++ broadcast state border r')%list).

(** Several ticks in a row, each with its two visiting orders. *)
Fixpoint ticks (sched : list (list string * list string))
    (st : Room * Rand * list Event) : Room * Rand * list Event :=
  match sched with
  | [] => st
  | (order, border) :: rest =>
      let '(r, g, ev) := st in
      let '(r', g', ev') := update order border r g in
      ticks rest (r', g', (ev ++ ev')%list)
  end.

(** [handleWS], registration of the new connection [c]. *)
Definition join (c : Conn) (r : Room) (g : Rand)
  : string * Snake * Room * Rand * list Event :=
  let playerID := "P" +:+ pretty (size (players r) + 1) in
  let '(x, g1) := Intn (width r) g in
  let '(y, g2) := Intn (height r) g1 in
  let snake := mkSnake playerID [mkPoint x y] "right" 0 true (Some c) in
  let r' := setPlayers (<[playerID := snake]> (players r)) r in
  (playerID, snake, r', g2,
   [Write c (MsgWelcome playerID (name r') (width r') (height r') (food r')
                        (snapshotPlayers r'))]).

(** [handleWS], the deferred clean-up of the session; [snake] is the
    state of the session's own snake, read through its pointer. *)
Definition leave (playerID : string) (snake : Snake) (c : Conn)
    (order : list string) (r : Room) : Room * list Event :=
  let saved := if Alive snake then saveScore (ID snake) (Score snake) r
               else [] in
  let r' := setPlayers (delete playerID (players r)) r in
  (r', (saved ++ Close c :: broadcast (MsgLeave playerID) order r')%list).

(** The cells that the first [n] attempts of [randomEmptyCell] draw from
    [g] when none before the last is accepted. *)
Fixpoint attempts (n : nat) (r : Room) (g : Rand) : list Point :=
  match n with
  | O => []
  | S n' =>
      let '(x, g1) := Intn (width r) g in
      let '(y, g2) := Intn (height r) g1 in
      mkPoint x y :: attempts n' r g2
  end.

(** The food cell lies in no body, or it is the head cell of one of the
    snakes [E], which has eaten since the room was [r0]: it is one segment
    longer and its score one higher than in [r0]. *)
Definition foodClear (r0 : Room) (E : list string) (r : Room) : Prop :=
  occupied (food r) r = false
  ∨ ∃ e s0 s, e ∈ E ∧ players r0 !! e = Some s0 ∧ players r !! e = Some s
              ∧ head (Body s) = Some (food r)
              ∧ Score s = wrap (Score s0 + 1)
              ∧ length (Body s) = S (length (Body s0)).

(** Every registered name leads to a stored room of that name. *)
Definition registered (s : GameServer) : Prop :=
  ∀ n l, rooms s !! n = Some l → ∃ room, store s !! l = Some room ∧ name room = n.

(** A cell of the grid of the room. *)
Definition inGrid (p : Point) (r : Room) : Prop :=
  (0 ≤ X p < width r)%Z ∧ (0 ≤ Y p < height r)%Z.

(** The grid is not empty, and the food and every segment of every snake
    lie on it. *)
Definition onGrid (r : Room) : Prop :=
  (0 < width r)%Z ∧ (0 < height r)%Z ∧ inGrid (food r) r
  ∧ ∀ k s b, players r !! k = Some s → b ∈ Body s → inGrid b r.

(** Every entry of the membership is filed under the ID of its snake (so
    [handleWS] builds it). *)
Definition wf (r : Room) : Prop :=
  ∀ k s, players r !! k = Some s → ID s = k.

(** How many scores were saved for a player. *)
Definition savedFor (playerID : string) (ev : list Event) : nat :=
  length (List.filter (λ e, match e with
                            | SaveScore p _ _ => String.eqb p playerID
                            | _ => false
                            end) ev).

Definition setDir (d : string) (s : Snake) : Snake :=
  mkSnake (ID s) (Body s) d (Score s) (Alive s) (conn s).

(** [handleWS], one turn of the session's read loop on the text message
    [cmd]: the snake behind the session's pointer after it, and the texts
    written back on the session's own connection. *)
Definition command (cmd : string) (snake : Snake) : Snake * list string :=
  if String.eqb cmd "up" || String.eqb cmd "down"
     || String.eqb cmd "left" || String.eqb cmd "right" then
    if (String.eqb (Dir snake) "up" && negb (String.eqb cmd "down"))
       || (String.eqb (Dir snake) "down" && negb (String.eqb cmd "up"))
       || (String.eqb (Dir snake) "left" && negb (String.eqb cmd "right"))
       || (String.eqb (Dir snake) "right" && negb (String.eqb cmd "left"))
    then (setDir cmd snake, [])
    else (snake, [])
  else if String.eqb cmd "ping" then (snake, ["pong"])
  else (snake, []).

(** The four directions and their reverses, as the guard of [command]
    pairs them. *)
Definition isDir (d : string) : Prop :=
  d = "up" ∨ d = "down" ∨ d = "left" ∨ d = "right".

Definition opposite (d : string) : string :=
  if String.eqb d "up" then "down"
  else if String.eqb d "down" then "up"
  else if String.eqb d "left" then "right"
  else if String.eqb d "right" then "left"
  else d.

(** The scores saved so far, against the room [r0] the count started
    with: the membership is filed under the IDs, no snake is alive that
    was dead in [r0], and a player has one saved score if its snake went
    from alive to dead, none otherwise. *)
Definition savedDeaths (r0 : Room) (ev : list Event) (r : Room) : Prop :=
  wf r
  ∧ (∀ k s, players r !! k = Some s →
            ∃ s0, players r0 !! k = Some s0 ∧ (Alive s = true → Alive s0 = true))
  ∧ ∀ playerID,
      savedFor playerID ev
      = match players r0 !! playerID, players r !! playerID with
        | Some s0, Some s => if Alive s0 && negb (Alive s) then 1 else 0
        | _, _ => 0
        end.

(** The snake [s] has grown out of [s0]: it is at least as long, and its
    score is that of [s0] plus one for every segment gained, as a Go int. *)
Definition grown (s0 s : Snake) : Prop :=
  (length (Body s0) ≤ length (Body s))%nat
  ∧ Score s = wrap (Score s0 + Z.of_nat (length (Body s) - length (Body s0))).

(** The registry as calls of [getRoom] alone leave it: every registered
    name leads to a room of that name as [getRoom] makes it, 20 by 20,
    without snakes, the food on the grid and the loop started, and every
    stored room is the registered room of its name. *)
Definition created (s : GameServer) : Prop :=
  (∀ n l, rooms s !! n = Some l →
          ∃ x y, store s !! l = Some (mkRoom n 20 20 ∅ (mkPoint x y) true)
                 ∧ (0 ≤ x < 20)%Z ∧ (0 ≤ y < 20)%Z)
  ∧ (∀ l room, store s !! l = Some room → rooms s !! name room = Some l).

End Snake.

(** ** Rock-paper-scissors (the Go program stored in the file named
    schema.sql) *)
Module RPS.

Record Player := mkPlayer { id : string; conn : Conn; move : string }.

(** The members are pointers: the session keeps the pointer to its own
    player and writes the move through it; the room finds the two
    contestants through the pointers in the map. *)
Record Room := mkRoom {
  name : string;
  players : gmap string loc;
  heap : gmap loc Player
}.

Inductive Event :=
| Sent (c : Conn) (msg : string)
| SendFailed (c : Conn) (msg : string)
| Println (msg : string).

Definition setMove (m : string) (p : Player) : Player :=
  mkPlayer (id p) (conn p) m.

Definition setHeap (h : gmap loc Player) (r : Room) : Room :=
  mkRoom (name r) (players r) h.

(** The member behind key [k]. *)
Definition member (r : Room) (k : string) : option Player :=
  players r !! k ≫= λ l, heap r !! l.

(** [Room.broadcast]: a failed write is printed and the loop goes on. *)
Definition broadcast (fails : Conn → bool) (message : string)
    (order : list string) (r : Room) : list Event :=
  flat_map (λ k, match member r k with
                 | Some p =>
                     if fails (conn p)
                     then [SendFailed (conn p) message; Println "发送消息失败:"]
                     else [Sent (conn p) message]
                 | None => []
                 end) order.

Definition beats (a b : string) : bool :=
  (String.eqb a "rock" && String.eqb b "scissors")
  || (String.eqb a "scissors" && String.eqb b "paper")
  || (String.eqb a "paper" && String.eqb b "rock").

Definition decide (p1 p2 : Player) : string :=
  if String.eqb (move p1) (move p2) then "平局"
  else if beats (move p1) (move p2) then "玩家 " +:+ id p1 +:+ " 赢了！"
  else "玩家 " +:+ id p2 +:+ " 赢了！".

(** The loop that picks the contestants: the first visited pointer goes
    to [p1], every later one overwrites [p2]. *)
Definition pick (order : list string) (r : Room) : option loc * option loc :=
  foldl (λ acc k, match players r !! k with
                  | Some p => match acc.1 with
                              | None => (Some p, acc.2)
                              | Some _ => (acc.1, Some p)
                              end
                  | None => acc
                  end) (None, None) order.

Definition isSet (m : string) : bool := negb (String.eqb m EmptyString).

(** The guard of the resolution, with the contestants it found. *)
Definition contestants (order : list string) (r : Room)
  : option (loc * Player * (loc * Player)) :=
  if Nat.eqb (size (players r)) 2 then
    match pick order r with
    | (Some l1, Some l2) =>
        match heap r !! l1, heap r !! l2 with
        | Some p1, Some p2 =>
            if isSet (move p1) && isSet (move p2)
            then Some (l1, p1, (l2, p2)) else None
        | _, _ => None
        end
    | _ => None
    end
  else None.

(** [handleConnections], one turn of the session's read loop on a message
    [msg] read without error; [player] is the session's pointer. *)
Definition recv (fails : Conn → bool) (PlayerID : string) (player : loc)
    (msg : string) (o1 o2 o3 : list string) (r : Room) : Room * list Event :=
  let r1 := setHeap (alter (setMove msg) player (heap r)) r in
  let ev1 := broadcast fails ("玩家" +:+ PlayerID +:+ " 出了 " +:+ msg) o1 r1 in
  match contestants o2 r1 with
  | Some (l1, p1, (l2, p2)) =>
      let result := decide p1 p2 in
      let ev2 := broadcast fails ("结果：" +:+ result) o3 r1 in
      (setHeap (alter (setMove EmptyString) l2
                  (alter (setMove EmptyString) l1 (heap r1))) r1,
       (ev1 ++ ev2)%list)
  | None => (r1, ev1)
  end.

(** Every pointer in the membership points to a player (as every Go pointer
    stored by [handleConnections] does). *)
Definition wf (r : Room) : Prop :=
  ∀ k l, players r !! k = Some l → is_Some (heap r !! l).

(** The game as the specification words it: the three moves and the
    relation rock > scissors > paper > rock. *)
Definition Valid (m : string) : Prop :=
  m = "rock" ∨ m = "paper" ∨ m = "scissors".

Inductive Beats : string → string → Prop :=
| rock_scissors : Beats "rock" "scissors"
| scissors_paper : Beats "scissors" "paper"
| paper_rock : Beats "paper" "rock".

(** Every member has a player of its own: no two entries of the
    membership hold the same pointer. *)
Definition own (r : Room) : Prop :=
  ∀ k1 k2 l, players r !! k1 = Some l → players r !! k2 = Some l → k1 = k2.

(** [handleConnections], registration of the new connection [c]: the new
    player is a new object, at a location not in use. *)
Definition join (fails : Conn → bool) (c : Conn) (order : list string)
    (r : Room) : string * loc * Room * list Event :=
  let PlayerID := "Player" +:+ pretty (size (players r) + 1) in
  let player := fresh (dom (heap r)) in
  let r' := mkRoom (name r) (<[PlayerID := player]> (players r))
                   (<[player := mkPlayer PlayerID c EmptyString]> (heap r)) in
  (PlayerID, player, r',
   broadcast fails ("玩家" +:+ PlayerID +:+ " 加入了房间" +:+ name r) order r').

(** What the clean-up of a session does: it closes the connection, and
    broadcasts. *)
Inductive Effect :=
| Closed (c : Conn)
| Emitted (e : Event).

(** [handleConnections], the deferred clean-up of the session. *)
Definition leave (fails : Conn → bool) (PlayerID : string) (c : Conn)
    (order : list string) (r : Room) : Room * list Effect :=
  let r' := mkRoom (name r) (delete PlayerID (players r)) (heap r) in
  (r', Closed c ::
       (Emitted <$> broadcast fails
                      ("玩家" +:+ PlayerID +:+ " 离开了房间" +:+ name r) order r')).

Record ChatServer := mkServer {
  rooms : gmap string loc;
  store : gmap loc Room
}.

Definition NewRoom (name : string) : Room := mkRoom name ∅ ∅.

Definition NewChatServer : ChatServer := mkServer ∅ ∅.

(** The read-locked lookup at the top of [getRoom]. *)
Definition lookupShared (n : string) (s : ChatServer) : option loc :=
  rooms s !! n.

(** The write-locked part of [getRoom]: check again, create if absent. *)
Definition createExcl (n : string) (s : ChatServer) : loc * ChatServer :=
  match rooms s !! n with
  | Some l => (l, s)
  | None =>
      let room := NewRoom n in
      let l := fresh (dom (store s)) in
      (l, mkServer (<[n := l]> (rooms s)) (<[l := room]> (store s)))
  end.

Definition getRoom (n : string) (s : ChatServer) : loc * ChatServer :=
  match lookupShared n s with
  | Some l => (l, s)
  | None => createExcl n s
  end.

(** Interleavings of concurrent [getRoom] calls: each critical section is
    one atomic step of one of the calls. *)
Inductive step : ChatServer * list Call → ChatServer * list Call → Prop :=
| step_lookup i n s pool :
    pool !! i = Some (Pending n) →
    step (s, pool)
         (s, <[i := match lookupShared n s with
                    | Some l => Returned n l
                    | None => Missed n
                    end]> pool)
| step_create i n s pool l s' :
    pool !! i = Some (Missed n) →
    createExcl n s = (l, s') →
    step (s, pool) (s', <[i := Returned n l]> pool).

(** Every registered name leads to a stored room of that name. *)
Definition registered (s : ChatServer) : Prop :=
  ∀ n l, rooms s !! n = Some l → ∃ room, store s !! l = Some room ∧ name room = n.

End RPS.

(** ** Chat, one room (chatroom/main.go) *)
Module ChatRoom.

Record ChatRoom := mkChatRoom { clients : gmap Conn bool }.

Inductive Event :=
| Sent (c : Conn) (msg : string)
| SendFailed (c : Conn) (msg : string)
| Println (msg : string)
| Close (c : Conn).

Definition NewChatRoom : ChatRoom := mkChatRoom ∅.

(** [handleConnections], registration and clean-up of a connection. *)
Definition join (c : Conn) (room : ChatRoom) : ChatRoom :=
  mkChatRoom (<[c := true]> (clients room)).

Definition leave (c : Conn) (room : ChatRoom) : ChatRoom * list Event :=
  (mkChatRoom (delete c (clients room)), [Close c]).

(** [handleConnections], one turn of the read loop: the value put on the
    broadcast channel for the inbound message [msg]. *)
Definition recv (msg : string) : string := msg.

(** [start], one turn of the loop on the value [msg] taken from the
    channel. An entry deleted earlier in the range is not visited. *)
Definition start (fails : Conn → bool) (msg : string) (order : list Conn)
    (room : ChatRoom) : ChatRoom * list Event :=
  foldl (λ st c,
           match clients st.1 !! c with
           | None => st
           | Some _ =>
               if fails c then
                 (mkChatRoom (delete c (clients st.1)),
                  st.2 ++ [SendFailed c msg; Println "Write error:"; Close c])
               else (st.1, st.2 ++ [Sent c msg])
           end) (room, []) order.

(** How many writes, failed or not, were issued on the connection [c]. *)
Definition writesTo (c : Conn) (ev : list Event) : nat :=
  length (List.filter (λ e, match e with
                            | Sent c' _ | SendFailed c' _ => Nat.eqb c' c
                            | _ => false
                            end) ev).

End ChatRoom.

(** ** Chat, many rooms (first program of the unnamed source file) *)
Module Chat.

Record Room := mkRoom { name : string; clients : gmap Conn bool }.

Inductive Event :=
| Sent (c : Conn) (msg : string)
| SendFailed (c : Conn) (msg : string)
| Println (msg : string)
| Close (c : Conn).

Definition NewRoom (name : string) : Room := mkRoom name ∅.

Definition setClients (m : gmap Conn bool) (r : Room) : Room :=
  mkRoom (name r) m.

Definition join (c : Conn) (r : Room) : Room :=
  setClients (<[c := true]> (clients r)) r.

Definition leave (c : Conn) (r : Room) : Room * list Event :=
  (setClients (delete c (clients r)) r, [Close c]).

(** [handleConnections], one turn of the read loop: the value of
    [fmt.Sprintf] with the format [[%s] %s] put on the channel. *)
Definition recv (msg : string) (r : Room) : string :=
  "[" +:+ name r +:+ "] " +:+ msg.

(** [Room.start], one turn of the loop on the value taken from the
    channel. *)
Definition start (fails : Conn → bool) (msg : string) (order : list Conn)
    (r : Room) : Room * list Event :=
  foldl (λ st c,
           match clients st.1 !! c with
           | None => st
           | Some _ =>
               if fails c then
                 (setClients (delete c (clients st.1)) st.1,
                  st.2 ++ [SendFailed c msg; Println "WriteMessage error:";
                           Close c])
               else (st.1, st.2 ++ [Sent c msg])
           end) (r, []) order.

(** How many writes, failed or not, were issued on the connection [c]. *)
Definition writesTo (c : Conn) (ev : list Event) : nat :=
  length (List.filter (λ e, match e with
                            | Sent c' _ | SendFailed c' _ => Nat.eqb c' c
                            | _ => false
                            end) ev).

Record ChatServer := mkServer {
  rooms : gmap string loc;
  store : gmap loc Room
}.

Definition NewChatServer : ChatServer := mkServer ∅ ∅.

(** [ChatServer.getRoom] runs wholly under the server's mutex. The third
    component lists the rooms for which the call launched the goroutine
    of [start]. *)
Definition getRoom (n : string) (s : ChatServer)
  : loc * ChatServer * list loc :=
  match rooms s !! n with
  | Some l => (l, s, [])
  | None =>
      let room := NewRoom n in
      let l := fresh (dom (store s)) in
      (l, mkServer (<[n := l]> (rooms s)) (<[l := room]> (store s)), [l])
  end.

(** Interleavings of concurrent [getRoom] calls; [started] collects the
    rooms whose loop was launched, in the order of launching. *)
Inductive step : ChatServer * list loc * list Call
               → ChatServer * list loc * list Call → Prop :=
| step_getRoom i n s started pool l s' launched :
    pool !! i = Some (Pending n) →
    getRoom n s = (l, s', launched) →
    step (s, started, pool) (s', started ++ launched, <[i := Returned n l]> pool).

(** Each stored room has one loop, and each registered name leads to a
    stored room of that name. *)
Definition served (s : ChatServer) (started : list loc) : Prop :=
  NoDup started
  ∧ (∀ l, l ∈ started ↔ is_Some (store s !! l))
  ∧ (∀ n l, rooms s !! n = Some l →
            ∃ room, store s !! l = Some room ∧ name room = n).

End Chat.

(** * Properties *)

(** ** The registry *)

Lemma Guess_createExcl_spec n s g l s' g' :
  Guess.createExcl n s g = (l, s', g') →
  Guess.rooms s' !! n = Some l
  ∧ (∀ m l0, Guess.rooms s !! m = Some l0 → Guess.rooms s' !! m = Some l0)
  ∧ (size (Guess.store s) = size (Guess.rooms s) →
     size (Guess.store s') = size (Guess.rooms s')).
Proof.
  unfold Guess.createExcl. intros H.
  destruct (Guess.rooms s !! n) as [l0|] eqn:E.
  - by simplify_eq.
  - destruct (Intn 100 g) as [x g1]. simplify_eq. simpl. split_and!.
    + by rewrite lookup_insert_eq.
    + intros m l0 Hm. rewrite lookup_insert_ne; [done | congruence].
    + intros Hsz. rewrite !map_size_insert_None; [lia | done |].
      apply not_elem_of_dom, is_fresh.
Qed.

Lemma Guess_getRoom_spec n s g l s' g' :
  Guess.getRoom n s g = (l, s', g') →
  Guess.rooms s' !! n = Some l
  ∧ (∀ m l0, Guess.rooms s !! m = Some l0 → Guess.rooms s' !! m = Some l0)
  ∧ (size (Guess.store s) = size (Guess.rooms s) →
     size (Guess.store s') = size (Guess.rooms s')).
Proof.
  unfold Guess.getRoom, Guess.lookupShared. intros H.
  destruct (Guess.rooms s !! n) as [l0|] eqn:E.
  - by simplify_eq.
  - by apply Guess_createExcl_spec in H.
Qed.

Lemma Guess_getRoom_hit n s g l :
  Guess.rooms s !! n = Some l → Guess.getRoom n s g = (l, s, g).
Proof. intros H. unfold Guess.getRoom, Guess.lookupShared. by rewrite H. Qed.

Lemma Snake_getRoom_spec n s g l s' g' :
  Snake.getRoom n s g = (l, s', g') →
  Snake.rooms s' !! n = Some l
  ∧ (∀ m l0, Snake.rooms s !! m = Some l0 → Snake.rooms s' !! m = Some l0)
  ∧ (size (Snake.store s) = size (Snake.rooms s) →
     size (Snake.store s') = size (Snake.rooms s')).
Proof.
  unfold Snake.getRoom. intros H.
  destruct (Snake.rooms s !! n) as [l0|] eqn:E.
  - by simplify_eq.
  - destruct (Intn 20 g) as [x g1]. destruct (Intn 20 g1) as [y g2].
    simplify_eq. simpl. split_and!.
    + by rewrite lookup_insert_eq.
    + intros m l0 Hm. rewrite lookup_insert_ne; [done | congruence].
    + intros Hsz. rewrite !map_size_insert_None; [lia | done |].
      apply not_elem_of_dom, is_fresh.
Qed.

Lemma Snake_getRoom_hit n s g l :
  Snake.rooms s !! n = Some l → Snake.getRoom n s g = (l, s, g).
Proof. intros H. unfold Snake.getRoom. by rewrite H. Qed.

Lemma registry_inv_insert rooms rooms' k k' pool i c :
  registry_inv rooms k pool →
  (∀ m l0, rooms !! m = Some l0 → rooms' !! m = Some l0) →
  (k = size rooms → k' = size rooms') →
  (∀ n l, c = Returned n l → rooms' !! n = Some l) →
  registry_inv rooms' k' (<[i := c]> pool).
Proof.
  intros [Hret Hsz] Hmono Hsz' Hc. split; [|auto].
  intros j n l Hj. destruct (decide (i = j)) as [->|Hne].
  - apply list_lookup_insert_Some in Hj as [[_ [-> _]]|[? _]]; [auto | done].
  - rewrite list_lookup_insert_ne in Hj; eauto.
Qed.

Lemma Guess_step_inv s g pool s' g' pool' :
  Guess.step (s, g, pool) (s', g', pool') →
  registry_inv (Guess.rooms s) (size (Guess.store s)) pool →
  registry_inv (Guess.rooms s') (size (Guess.store s')) pool'.
Proof.
  inversion 1; subst; intros Hinv.
  - eapply registry_inv_insert; eauto.
    unfold Guess.lookupShared. intros n0 l0.
    destruct (Guess.rooms s' !! n) eqn:E; intros; simplify_eq. done.
  - match goal with H : Guess.createExcl _ _ _ = _ |- _ =>
      apply Guess_createExcl_spec in H as (Hn & Hmono & Hsz) end.
    eapply registry_inv_insert; eauto. intros; by simplify_eq.
Qed.

Lemma Snake_step_inv s g pool s' g' pool' :
  Snake.step (s, g, pool) (s', g', pool') →
  registry_inv (Snake.rooms s) (size (Snake.store s)) pool →
  registry_inv (Snake.rooms s') (size (Snake.store s')) pool'.
Proof.
  inversion 1; subst; intros Hinv.
  match goal with H : Snake.getRoom _ _ _ = _ |- _ =>
    apply Snake_getRoom_spec in H as (Hn & Hmono & Hsz) end.
  eapply registry_inv_insert; eauto. intros; by simplify_eq.
Qed.

Lemma registry_inv_init names :
  registry_inv ∅ 0 (Pending <$> names).
Proof.
  split; [|by rewrite map_size_empty].
  intros i n l H. apply list_lookup_fmap_Some in H as (? & ? & ?). done.
Qed.

Lemma Guess_reachable_inv names g st :
  rtc Guess.step (Guess.NewGameServer, g, Pending <$> names) st →
  registry_inv (Guess.rooms st.1.1) (size (Guess.store st.1.1)) st.2.
Proof.
  revert st. apply rtc_ind_r.
  - simpl. rewrite map_size_empty. apply registry_inv_init.
  - intros [[s1 g1] p1] [[s2 g2] p2] _ Hstep IH. simpl in *.
    eapply Guess_step_inv; eauto.
Qed.

Lemma Snake_reachable_inv names g st :
  rtc Snake.step (Snake.NewGameServer, g, Pending <$> names) st →
  registry_inv (Snake.rooms st.1.1) (size (Snake.store st.1.1)) st.2.
Proof.
  revert st. apply rtc_ind_r.
  - simpl. rewrite map_size_empty. apply registry_inv_init.
  - intros [[s1 g1] p1] [[s2 g2] p2] _ Hstep IH. simpl in *.
    eapply Snake_step_inv; eauto.
Qed.

Lemma Intn_range n g x g' :
  (0 < n)%Z → Intn n g = (x, g') → (0 ≤ x < n)%Z.
Proof.
  intros Hn. unfold Intn. destruct g as [|z g0]; intros ?; simplify_eq.
  - lia.
  - apply Z.mod_pos_bound. lia.
Qed.

(** *** Calls and what is left of them *)

Lemma call_name_insert (pool : list Call) (i : nat) c c' :
  pool !! i = Some c → call_name c' = call_name c →
  call_name <$> <[i := c']> pool = call_name <$> pool.
Proof.
  intros Hi Hname. rewrite list_fmap_insert, Hname.
  apply list_insert_id. by rewrite list_lookup_fmap, Hi.
Qed.

Lemma backlog_insert (pool : list Call) (i : nat) c c' :
  pool !! i = Some c →
  backlog (<[i := c']> pool) + work c = backlog pool + work c'.
Proof.
  unfold backlog. revert i. induction pool as [|d pool IH]; intros i Hi; [done|].
  destruct i as [|i]; simpl in *.
  - simplify_eq. lia.
  - specialize (IH i Hi). unfold fmap in *. lia.
Qed.

Lemma backlog_pending (pool : list Call) :
  backlog pool ≠ 0 → ∃ i c, pool !! i = Some c ∧ work c ≠ 0.
Proof.
  unfold backlog. induction pool as [|d pool IH]; cbn; [done|]. intros Hne.
  destruct (decide (work d = 0)) as [Hd|Hd].
  - destruct IH as (i & c & Hi & Hc); [lia|]. by exists (S i), c.
  - by exists 0, d.
Qed.

Lemma backlog_done (pool : list Call) (names : list string) :
  backlog pool = 0 → call_name <$> pool = names →
  ∀ i n, names !! i = Some n → ∃ l, pool !! i = Some (Returned n l).
Proof.
  unfold backlog. intros Hzero <- i n Hi.
  apply list_lookup_fmap_Some in Hi as (c & -> & Hc).
  assert (work c = 0) as Hw.
  { clear -Hzero Hc. revert i Hc.
    induction pool as [|d pool IH]; intros i Hc; [done|]. cbn in Hzero.
    destruct i as [|i]; cbn in Hc.
    - simplify_eq. lia.
    - apply (IH ltac:(lia) i Hc). }
  destruct c as [n|n|n l]; try done. by exists l.
Qed.

(** *** The guessing game *)

Lemma Guess_createExcl_new n s g l s' g' :
  Guess.rooms s !! n = None →
  Guess.createExcl n s g = (l, s', g') →
  Guess.store s !! l = None
  ∧ g' = (Intn 100 g).2
  ∧ ∃ z, (1 ≤ z ≤ 100)%Z
         ∧ s' = Guess.mkServer (<[n := l]> (Guess.rooms s))
                  (<[l := Guess.mkRoom n ∅ z]> (Guess.store s)).
Proof.
  unfold Guess.createExcl. intros -> H.
  destruct (Intn 100 g) as [x g1] eqn:Hx. simplify_eq. split_and!.
  - apply not_elem_of_dom, is_fresh.
  - done.
  - exists (x + 1)%Z. split; [|done]. apply Intn_range in Hx; lia.
Qed.

Lemma Guess_createExcl_hit n s g l :
  Guess.rooms s !! n = Some l → Guess.createExcl n s g = (l, s, g).
Proof. intros H. unfold Guess.createExcl. by rewrite H. Qed.

Lemma Guess_insert_registered n l room s :
  Guess.registered s → Guess.store s !! l = None → Guess.name room = n →
  Guess.registered (Guess.mkServer (<[n := l]> (Guess.rooms s))
                      (<[l := room]> (Guess.store s))).
Proof.
  intros Hreg Hfresh Hname m l0. cbn. destruct (decide (n = m)) as [->|Hne].
  - rewrite lookup_insert_eq. intros [= <-].
    rewrite lookup_insert_eq. by eexists.
  - rewrite lookup_insert_ne by done. intros Hm.
    destruct (Hreg _ _ Hm) as (room0 & Hroom0 & Hname0).
    exists room0. split; [|done]. rewrite lookup_insert_ne; [done|].
    intros ->. congruence.
Qed.

Lemma Guess_insert_created n l z s :
  Guess.created s → Guess.rooms s !! n = None → Guess.store s !! l = None →
  (1 ≤ z ≤ 100)%Z →
  Guess.created (Guess.mkServer (<[n := l]> (Guess.rooms s))
                   (<[l := Guess.mkRoom n ∅ z]> (Guess.store s))).
Proof.
  intros [Hreg Hback] Hn Hfresh Hz. split; cbn.
  - intros m l0. destruct (decide (n = m)) as [->|Hne].
    + rewrite lookup_insert_eq. intros [= <-].
      rewrite lookup_insert_eq. by exists z.
    + rewrite lookup_insert_ne by done. intros Hm.
      destruct (Hreg _ _ Hm) as (z0 & Hroom0 & Hz0).
      exists z0. split; [|done]. rewrite lookup_insert_ne; [done|].
      intros ->. congruence.
  - intros l0 room. destruct (decide (l = l0)) as [->|Hne].
    + rewrite lookup_insert_eq. intros [= <-]. cbn.
      by rewrite lookup_insert_eq.
    + rewrite lookup_insert_ne by done. intros Hroom.
      pose proof (Hback _ _ Hroom) as Hm.
      rewrite lookup_insert_ne; [done|]. intros ->. congruence.
Qed.

Lemma Guess_step_created names s g pool s' g' pool' :
  Guess.step (s, g, pool) (s', g', pool') →
  call_name <$> pool = names ∧ Guess.created s
  ∧ (∀ n, is_Some (Guess.rooms s !! n) → n ∈ names) →
  call_name <$> pool' = names ∧ Guess.created s'
  ∧ (∀ n, is_Some (Guess.rooms s' !! n) → n ∈ names).
Proof.
  inversion 1 as [i n s0 g0 p0 Hi|i n s0 g0 p0 l s0' g0' Hi Hcreate]; subst;
    intros (Hnames & Hcr & Hreq).
  - split_and!; [|done..].
    rewrite (call_name_insert _ _ (Pending n)); [done..|].
    unfold Guess.lookupShared. by destruct (Guess.rooms s' !! n).
  - split.
    { by rewrite (call_name_insert _ _ (Missed n)). }
    destruct (Guess.rooms s !! n) as [l0|] eqn:Hn.
    + rewrite (Guess_createExcl_hit n s g l0 Hn) in Hcreate. by simplify_eq.
    + apply Guess_createExcl_new in Hcreate as (Hfresh & _ & z & Hz & ->);
        [|done].
      split; [by apply Guess_insert_created|].
      intros m. cbn. destruct (decide (n = m)) as [<-|Hne].
      * intros _. rewrite <- Hnames. apply list_elem_of_fmap.
        exists (Missed n). split; [done|]. by eapply list_elem_of_lookup_2.
      * rewrite lookup_insert_ne by done. apply Hreq.
Qed.

Lemma Guess_reachable_created names g st :
  rtc Guess.step (Guess.NewGameServer, g, Pending <$> names) st →
  call_name <$> st.2 = names ∧ Guess.created st.1.1
  ∧ (∀ n, is_Some (Guess.rooms st.1.1 !! n) → n ∈ names).
Proof.
  revert st. apply rtc_ind_r.
  - cbn [fst snd]. split_and!.
    + rewrite <- list_fmap_compose. apply list_fmap_id.
    + split.
      * intros n l Hn. cbn in Hn. by rewrite lookup_empty in Hn.
      * intros l room Hl. cbn in Hl. by rewrite lookup_empty in Hl.
    + intros n [l Hn]. cbn in Hn. by rewrite lookup_empty in Hn.
  - intros [[s1 g1] p1] [[s2 g2] p2] _ Hstep IH. cbn [fst snd] in *.
    by eapply Guess_step_created.
Qed.

Lemma Guess_complete k s g pool :
  (backlog pool ≤ k)%nat →
  ∃ s' g' pool', rtc Guess.step (s, g, pool) (s', g', pool')
                 ∧ backlog pool' = 0.
Proof.
  revert s g pool. induction k as [|k IH]; intros s g pool Hk.
  { exists s, g, pool. split; [apply rtc_refl|lia]. }
  destruct (decide (backlog pool = 0)) as [Hz|Hnz].
  { exists s, g, pool. split; [apply rtc_refl|done]. }
  destruct (backlog_pending pool Hnz) as (i & c & Hi & Hc).
  destruct c as [n|n|n l]; [| |done].
  - pose proof (Guess.step_lookup i n s g pool Hi) as Hstep.
    set (c' := match Guess.lookupShared n s with
               | Some l => Returned n l
               | None => Missed n
               end) in Hstep.
    pose proof (backlog_insert pool i (Pending n) c' Hi) as Hb.
    assert (work c' ≤ 1)%nat as Hc'.
    { unfold c'. destruct (Guess.lookupShared n s); cbn; lia. }
    cbn [work] in Hb.
    destruct (IH s g (<[i := c']> pool)) as (s' & g' & pool' & Hrun & Hdone);
      [lia|].
    exists s', g', pool'. split; [by eapply rtc_l|done].
  - destruct (Guess.createExcl n s g) as [[l s1] g1] eqn:Hcreate.
    pose proof (Guess.step_create i n s g pool l s1 g1 Hi Hcreate) as Hstep.
    pose proof (backlog_insert pool i (Missed n) (Returned n l) Hi) as Hb.
    cbn [work] in Hb.
    destruct (IH s1 g1 (<[i := Returned n l]> pool))
      as (s' & g' & pool' & Hrun & Hdone); [lia|].
    exists s', g', pool'. split; [by eapply rtc_l|done].
Qed.

(** *** The snake game *)

Lemma Snake_getRoom_new n s g l s' g' :
  Snake.rooms s !! n = None →
  Snake.getRoom n s g = (l, s', g') →
  Snake.store s !! l = None
  ∧ g' = (Intn 20 (Intn 20 g).2).2
  ∧ ∃ x y, (0 ≤ x < 20)%Z ∧ (0 ≤ y < 20)%Z
           ∧ s' = Snake.mkServer (<[n := l]> (Snake.rooms s))
                    (<[l := Snake.mkRoom n 20 20 ∅ (Snake.mkPoint x y) true]>
                       (Snake.store s)).
Proof.
  unfold Snake.getRoom. intros -> H.
  destruct (Intn 20 g) as [x g1] eqn:Hx.
  destruct (Intn 20 g1) as [y g2] eqn:Hy. simplify_eq. split_and!.
  - apply not_elem_of_dom, is_fresh.
  - cbn. by rewrite Hy.
  - exists x, y. apply Intn_range in Hx; [|done].
    apply Intn_range in Hy; [|done]. done.
Qed.

Lemma Snake_insert_registered n l room s :
  Snake.registered s → Snake.store s !! l = None → Snake.name room = n →
  Snake.registered (Snake.mkServer (<[n := l]> (Snake.rooms s))
                      (<[l := room]> (Snake.store s))).
Proof.
  intros Hreg Hfresh Hname m l0. cbn. destruct (decide (n = m)) as [->|Hne].
  - rewrite lookup_insert_eq. intros [= <-].
    rewrite lookup_insert_eq. by eexists.
  - rewrite lookup_insert_ne by done. intros Hm.
    destruct (Hreg _ _ Hm) as (room0 & Hroom0 & Hname0).
    exists room0. split; [|done]. rewrite lookup_insert_ne; [done|].
    intros ->. congruence.
Qed.

Lemma Snake_insert_created n l x y s :
  Snake.created s → Snake.rooms s !! n = None → Snake.store s !! l = None →
  (0 ≤ x < 20)%Z → (0 ≤ y < 20)%Z →
  Snake.created (Snake.mkServer (<[n := l]> (Snake.rooms s))
                   (<[l := Snake.mkRoom n 20 20 ∅ (Snake.mkPoint x y) true]>
                      (Snake.store s))).
Proof.
  intros [Hreg Hback] Hn Hfresh Hx Hy. split; cbn.
  - intros m l0. destruct (decide (n = m)) as [->|Hne].
    + rewrite lookup_insert_eq. intros [= <-].
      rewrite lookup_insert_eq. by exists x, y.
    + rewrite lookup_insert_ne by done. intros Hm.
      destruct (Hreg _ _ Hm) as (x0 & y0 & Hroom0 & Hxy0).
      exists x0, y0. split; [|done]. rewrite lookup_insert_ne; [done|].
      intros ->. congruence.
  - intros l0 room. destruct (decide (l = l0)) as [->|Hne].
    + rewrite lookup_insert_eq. intros [= <-]. cbn.
      by rewrite lookup_insert_eq.
    + rewrite lookup_insert_ne by done. intros Hroom.
      pose proof (Hback _ _ Hroom) as Hm.
      rewrite lookup_insert_ne; [done|]. intros ->. congruence.
Qed.

Lemma Snake_step_created names s g pool s' g' pool' :
  Snake.step (s, g, pool) (s', g', pool') →
  call_name <$> pool = names ∧ Snake.created s
  ∧ (∀ n, is_Some (Snake.rooms s !! n) → n ∈ names) →
  call_name <$> pool' = names ∧ Snake.created s'
  ∧ (∀ n, is_Some (Snake.rooms s' !! n) → n ∈ names).
Proof.
  inversion 1 as [i n s0 g0 p0 l s0' g0' Hi Hget]; subst;
    intros (Hnames & Hcr & Hreq).
  split.
  { by rewrite (call_name_insert _ _ (Pending n)). }
  destruct (Snake.rooms s !! n) as [l0|] eqn:Hn.
  - rewrite (Snake_getRoom_hit n s g l0 Hn) in Hget. by simplify_eq.
  - apply Snake_getRoom_new in Hget as (Hfresh & _ & x & y & Hx & Hy & ->);
      [|done].
    split; [by apply Snake_insert_created|].
    intros m. cbn. destruct (decide (n = m)) as [<-|Hne].
    + intros _. rewrite <- Hnames. apply list_elem_of_fmap.
      exists (Pending n). split; [done|]. by eapply list_elem_of_lookup_2.
    + rewrite lookup_insert_ne by done. apply Hreq.
Qed.

Lemma Snake_reachable_created names g st :
  rtc Snake.step (Snake.NewGameServer, g, Pending <$> names) st →
  call_name <$> st.2 = names ∧ Snake.created st.1.1
  ∧ (∀ n, is_Some (Snake.rooms st.1.1 !! n) → n ∈ names).
Proof.
  revert st. apply rtc_ind_r.
  - cbn [fst snd]. split_and!.
    + rewrite <- list_fmap_compose. apply list_fmap_id.
    + split.
      * intros n l Hn. cbn in Hn. by rewrite lookup_empty in Hn.
      * intros l room Hl. cbn in Hl. by rewrite lookup_empty in Hl.
    + intros n [l Hn]. cbn in Hn. by rewrite lookup_empty in Hn.
  - intros [[s1 g1] p1] [[s2 g2] p2] _ Hstep IH. cbn [fst snd] in *.
    by eapply Snake_step_created.
Qed.

Lemma Snake_complete k s g pool :
  (backlog pool ≤ k)%nat →
  (∀ i n, pool !! i ≠ Some (Missed n)) →
  ∃ s' g' pool', rtc Snake.step (s, g, pool) (s', g', pool')
                 ∧ backlog pool' = 0.
Proof.
  revert s g pool. induction k as [|k IH]; intros s g pool Hk Hnm.
  { exists s, g, pool. split; [apply rtc_refl|lia]. }
  destruct (decide (backlog pool = 0)) as [Hz|Hnz].
  { exists s, g, pool. split; [apply rtc_refl|done]. }
  destruct (backlog_pending pool Hnz) as (i & c & Hi & Hc).
  destruct c as [n|n|n l]; [|by destruct (Hnm i n)|done].
  destruct (Snake.getRoom n s g) as [[l s1] g1] eqn:Hget.
  pose proof (Snake.step_getRoom i n s g pool l s1 g1 Hi Hget) as Hstep.
  pose proof (backlog_insert pool i (Pending n) (Returned n l) Hi) as Hb.
  cbn [work] in Hb.
  destruct (IH s1 g1 (<[i := Returned n l]> pool))
    as (s' & g' & pool' & Hrun & Hdone); [lia| |].
  { intros j m Hj. destruct (decide (i = j)) as [->|Hne].
    - apply list_lookup_insert_Some in Hj as [[_ [? _]]|[? _]]; done.
    - rewrite list_lookup_insert_ne in Hj by done. by apply (Hnm j m). }
  exists s', g', pool'. split; [by eapply rtc_l|done].
Qed.

Lemma Snake_step_no_missed s g pool s' g' pool' :
  Snake.step (s, g, pool) (s', g', pool') →
  (∀ i n, pool !! i ≠ Some (Missed n)) →
  ∀ i n, pool' !! i ≠ Some (Missed n).
Proof.
  inversion 1 as [i n s0 g0 p0 l s0' g0' Hi Hget]; subst. intros Hnm j m Hj.
  destruct (decide (i = j)) as [->|Hne].
  - apply list_lookup_insert_Some in Hj as [[_ [? _]]|[? _]]; done.
  - rewrite list_lookup_insert_ne in Hj by done. by apply (Hnm j m).
Qed.

Lemma Snake_reachable_no_missed names g st :
  rtc Snake.step (Snake.NewGameServer, g, Pending <$> names) st →
  ∀ i n, st.2 !! i ≠ Some (Missed n).
Proof.
  revert st.
  apply (rtc_ind_r (λ st : Snake.GameServer * Rand * list Call,
                      ∀ i n, st.2 !! i ≠ Some (Missed n))).
  - cbn [snd]. intros i n Hi.
    apply list_lookup_fmap_Some in Hi as (? & ? & ?). done.
  - intros [[s1 g1] p1] [[s2 g2] p2] _ Hstep IH. cbn [snd] in *.
    by eapply Snake_step_no_missed.
Qed.

(** C1. For every room name, every call of [getRoom] returns the same room
    instance, and exactly one room is ever created per name. In both
    registries (the read-then-write-locked one of the guessing game and
    the mutex one of the snake game) a call registers the requested name
    at the location it returns. If the name was registered already, the
    call returns the registered location and changes nothing. If it was
    not, the call creates exactly one room: the location was not in use,
    the room stored there bears the requested name and is as [getRoom]
    makes it (no member; a secret in [1,100], respectively a 20 by 20
    grid with the food on it and the loop started), and nothing else of
    the registry or the store changes. A call repeated on the state left
    by a first call returns the location the first returned and leaves the
    registry, the store of rooms and the random source as they are. In
    every interleaving of the critical sections of any number of
    concurrent calls on a new server: every call keeps the name it was
    made for; a call that has returned holds the location registered
    under its name, where a room of that name is stored; two calls that
    returned for the same name hold the same location; every room ever
    stored is the registered room of its name and only requested names
    are registered, so that the number of rooms is the number of
    registered names; and the calls can always run on until every one of
    them has returned. *)
Theorem getRoom_one_instance_per_name :
  (∀ n s g l s' g',
     Guess.getRoom n s g = (l, s', g') →
     Guess.rooms s' !! n = Some l
     ∧ Guess.getRoom n s' g' = (l, s', g')
     ∧ (∀ l0, Guess.rooms s !! n = Some l0 → l = l0 ∧ s' = s ∧ g' = g)
     ∧ (Guess.rooms s !! n = None →
        Guess.store s !! l = None
        ∧ ∃ z, (1 ≤ z ≤ 100)%Z
               ∧ s' = Guess.mkServer (<[n := l]> (Guess.rooms s))
                        (<[l := Guess.mkRoom n ∅ z]> (Guess.store s)))
     ∧ (Guess.registered s →
        Guess.registered s'
        ∧ ∃ room, Guess.store s' !! l = Some room ∧ Guess.name room = n))
  ∧ (∀ n s g l s' g',
       Snake.getRoom n s g = (l, s', g') →
       Snake.rooms s' !! n = Some l
       ∧ Snake.getRoom n s' g' = (l, s', g')
       ∧ (∀ l0, Snake.rooms s !! n = Some l0 → l = l0 ∧ s' = s ∧ g' = g)
       ∧ (Snake.rooms s !! n = None →
          Snake.store s !! l = None
          ∧ ∃ x y, (0 ≤ x < 20)%Z ∧ (0 ≤ y < 20)%Z
                   ∧ s' = Snake.mkServer (<[n := l]> (Snake.rooms s))
                            (<[l := Snake.mkRoom n 20 20 ∅ (Snake.mkPoint x y)
                                     true]> (Snake.store s)))
       ∧ (Snake.registered s →
          Snake.registered s'
          ∧ ∃ room, Snake.store s' !! l = Some room ∧ Snake.name room = n))
  ∧ (∀ names g s g' pool,
       rtc Guess.step (Guess.NewGameServer, g, Pending <$> names) (s, g', pool) →
       call_name <$> pool = names
       ∧ (∀ i n l, pool !! i = Some (Returned n l) →
                   Guess.rooms s !! n = Some l
                   ∧ ∃ z, Guess.store s !! l = Some (Guess.mkRoom n ∅ z)
                          ∧ (1 ≤ z ≤ 100)%Z)
       ∧ (∀ i j n l1 l2, pool !! i = Some (Returned n l1) →
                         pool !! j = Some (Returned n l2) → l1 = l2)
       ∧ (∀ l room, Guess.store s !! l = Some room →
                    Guess.rooms s !! Guess.name room = Some l)
       ∧ (∀ n, is_Some (Guess.rooms s !! n) → n ∈ names)
       ∧ size (Guess.store s) = size (Guess.rooms s)
       ∧ ∃ s1 g1 pool1,
           rtc Guess.step (s, g', pool) (s1, g1, pool1)
           ∧ ∀ i n, names !! i = Some n →
                    ∃ l, pool1 !! i = Some (Returned n l))
  ∧ (∀ names g s g' pool,
       rtc Snake.step (Snake.NewGameServer, g, Pending <$> names) (s, g', pool) →
       call_name <$> pool = names
       ∧ (∀ i n l, pool !! i = Some (Returned n l) →
                   Snake.rooms s !! n = Some l
                   ∧ ∃ x y, Snake.store s !! l
                            = Some (Snake.mkRoom n 20 20 ∅ (Snake.mkPoint x y)
                                      true)
                            ∧ (0 ≤ x < 20)%Z ∧ (0 ≤ y < 20)%Z)
       ∧ (∀ i j n l1 l2, pool !! i = Some (Returned n l1) →
                         pool !! j = Some (Returned n l2) → l1 = l2)
       ∧ (∀ l room, Snake.store s !! l = Some room →
                    Snake.rooms s !! Snake.name room = Some l)
       ∧ (∀ n, is_Some (Snake.rooms s !! n) → n ∈ names)
       ∧ size (Snake.store s) = size (Snake.rooms s)
       ∧ ∃ s1 g1 pool1,
           rtc Snake.step (s, g', pool) (s1, g1, pool1)
           ∧ ∀ i n, names !! i = Some n →
                    ∃ l, pool1 !! i = Some (Returned n l)).
Proof.
  split_and!.
  - intros n s g l s' g' H.
    pose proof (Guess_getRoom_spec _ _ _ _ _ _ H) as (Hn & _).
    split_and!.
    + done.
    + by apply Guess_getRoom_hit.
    + intros l0 Hl0. rewrite (Guess_getRoom_hit n s g l0 Hl0) in H.
      by simplify_eq.
    + intros Hnone. unfold Guess.getRoom, Guess.lookupShared in H.
      rewrite Hnone in H.
      apply Guess_createExcl_new in H as (Hfresh & _ & z & Hz & ->); [|done].
      split; [done|]. by exists z.
    + intros Hreg. destruct (Guess.rooms s !! n) as [l0|] eqn:Hl0.
      * rewrite (Guess_getRoom_hit n s g l0 Hl0) in H. simplify_eq.
        split; [done|]. by apply Hreg.
      * unfold Guess.getRoom, Guess.lookupShared in H. rewrite Hl0 in H.
        apply Guess_createExcl_new in H as (Hfresh & _ & z & Hz & ->);
          [|done].
        split; [by apply Guess_insert_registered|].
        cbn. rewrite lookup_insert_eq. by eexists.
  - intros n s g l s' g' H.
    pose proof (Snake_getRoom_spec _ _ _ _ _ _ H) as (Hn & _).
    split_and!.
    + done.
    + by apply Snake_getRoom_hit.
    + intros l0 Hl0. rewrite (Snake_getRoom_hit n s g l0 Hl0) in H.
      by simplify_eq.
    + intros Hnone.
      apply Snake_getRoom_new in H as (Hfresh & _ & x & y & Hx & Hy & ->);
        [|done].
      split; [done|]. by exists x, y.
    + intros Hreg. destruct (Snake.rooms s !! n) as [l0|] eqn:Hl0.
      * rewrite (Snake_getRoom_hit n s g l0 Hl0) in H. simplify_eq.
        split; [done|]. by apply Hreg.
      * apply Snake_getRoom_new in H as (Hfresh & _ & x & y & Hx & Hy & ->);
          [|done].
        split; [by apply Snake_insert_registered|].
        cbn. rewrite lookup_insert_eq. by eexists.
  - intros names g s g' pool Hrun.
    pose proof (Guess_reachable_inv _ _ _ Hrun) as [Hret Hsz].
    pose proof (Guess_reachable_created _ _ _ Hrun) as (Hnames & [Hcr Hback] & Hreq).
    cbn [fst snd] in *.
    split_and!; try done.
    + intros i n l Hi. split; [by eapply Hret|]. apply Hcr. by eapply Hret.
    + intros i j n l1 l2 Hi Hj. apply Hret in Hi. apply Hret in Hj.
      congruence.
    + destruct (Guess_complete (backlog pool) s g' pool)
        as (s1 & g1 & pool1 & Hrun1 & Hdone); [done|].
      exists s1, g1, pool1. split; [done|].
      apply backlog_done; [done|].
      assert (rtc Guess.step (Guess.NewGameServer, g, Pending <$> names)
                (s1, g1, pool1)) as Hall by by etrans.
      by apply Guess_reachable_created in Hall as (? & _).
  - intros names g s g' pool Hrun.
    pose proof (Snake_reachable_inv _ _ _ Hrun) as [Hret Hsz].
    pose proof (Snake_reachable_created _ _ _ Hrun) as (Hnames & [Hcr Hback] & Hreq).
    pose proof (Snake_reachable_no_missed _ _ _ Hrun) as Hnm.
    cbn [fst snd] in *.
    split_and!; try done.
    + intros i n l Hi. split; [by eapply Hret|]. apply Hcr. by eapply Hret.
    + intros i j n l1 l2 Hi Hj. apply Hret in Hi. apply Hret in Hj.
      congruence.
    + destruct (Snake_complete (backlog pool) s g' pool)
        as (s1 & g1 & pool1 & Hrun1 & Hdone); [done..|].
      exists s1, g1, pool1. split; [done|].
      apply backlog_done; [done|].
      assert (rtc Snake.step (Snake.NewGameServer, g, Pending <$> names)
                (s1, g1, pool1)) as Hall by by etrans.
      by apply Snake_reachable_created in Hall as (? & _).
Qed.

(** Two concurrent first calls for the room r1 that both miss in the
    read-locked lookup: the second to take the write lock finds the room of
    the first, and that one room is stored under the name r1. *)
Lemma getRoom_one_instance_per_name_witness :
  ∃ s g' pool,
    rtc Guess.step (Guess.NewGameServer, [41%Z; 7%Z], Pending <$> ["r1"; "r1"])
                   (s, g', pool)
    ∧ pool = [Returned "r1" 0; Returned "r1" 0]
    ∧ (Guess.rooms s !! "r1" = Some 0
       ∧ ∃ z, Guess.store s !! 0 = Some (Guess.mkRoom "r1" ∅ z)
              ∧ (1 ≤ z ≤ 100)%Z)
    ∧ size (Guess.store s) = size (Guess.rooms s).
Proof.
  assert (∃ s g' pool,
    rtc Guess.step (Guess.NewGameServer, [41%Z; 7%Z], Pending <$> ["r1"; "r1"])
                   (s, g', pool)
    ∧ pool = [Returned "r1" 0; Returned "r1" 0]) as (s & g' & pool & Hrun & Hpool).
  { do 3 eexists. split.
    - eapply rtc_l; [eapply (Guess.step_lookup 0); reflexivity|].
      eapply rtc_l; [eapply (Guess.step_lookup 1); reflexivity|].
      eapply rtc_l; [eapply (Guess.step_create 0); [reflexivity|]; vm_compute; reflexivity|].
      eapply rtc_l; [eapply (Guess.step_create 1); [reflexivity|]; vm_compute; reflexivity|].
      apply rtc_refl.
    - vm_compute. reflexivity. }
  exists s, g', pool. split; [exact Hrun|]. split; [exact Hpool|].
  destruct (proj1 (proj2 (proj2 getRoom_one_instance_per_name)) _ _ _ _ _ Hrun)
    as (_ & Hret & _ & _ & _ & Hsz & _).
  split; [|exact Hsz].
  apply (Hret 0). rewrite Hpool. reflexivity.
Defined.

(** ** Join and leave *)

Lemma delete_insert_id `{Countable K} {V} (m : gmap K V) k v :
  delete k (<[k := v]> m) = m ↔ m !! k = None.
Proof.
  rewrite delete_insert_eq. split.
  - intros <-. apply lookup_delete_eq.
  - apply delete_id.
Qed.

(** C7, as the code has it. A join assigns the id P(count+1) and a leave of
    that player removes the entry under that id: after the two, the
    membership mapping is the one before the join without that id. It is
    the mapping before the join exactly when the id was not already a
    member's id (in the guessing game and in the snake game alike). *)
Theorem join_leave_membership :
  (∀ c o1 o2 r,
     let playerID := "P" +:+ pretty (size (Guess.players r) + 1) in
     (Guess.join c o1 r).1.1.1 = playerID
     ∧ Guess.players (Guess.leave playerID c o2 (Guess.join c o1 r).1.2).1
       = delete playerID (Guess.players r)
     ∧ (Guess.players (Guess.leave playerID c o2 (Guess.join c o1 r).1.2).1
        = Guess.players r ↔ Guess.players r !! playerID = None))
  ∧ (∀ c o r g snake,
       let playerID := "P" +:+ pretty (size (Snake.players r) + 1) in
       (Snake.join c r g).1.1.1.1 = playerID
       ∧ Snake.players (Snake.leave playerID snake c o (Snake.join c r g).1.1.2).1
         = delete playerID (Snake.players r)
       ∧ (Snake.players (Snake.leave playerID snake c o (Snake.join c r g).1.1.2).1
          = Snake.players r ↔ Snake.players r !! playerID = None)).
Proof.
  split.
  - intros c o1 o2 r playerID. unfold Guess.join, Guess.leave. simpl.
    fold playerID. rewrite delete_insert_id. split_and!; [done| |done].
    apply delete_insert_eq.
  - intros c o r g snake playerID. unfold Snake.join, Snake.leave.
    destruct (Intn (Snake.width r) g) as [x g1].
    destruct (Intn (Snake.height r) g1) as [y g2]. simpl.
    fold playerID. rewrite delete_insert_id. split_and!; [done| |done].
    apply delete_insert_eq.
Qed.

(** C7 fails as stated. In a new room two players join (P1, P2) and P1
    leaves; the next join counts one member and takes the id P2 again,
    replacing the entry of the player who is still there; the leave that
    follows removes it. The membership before that join had P2, the
    membership after the leave is empty. *)
Lemma join_leave_counterexample :
  let r0 := Guess.mkRoom "r1" ∅ 42 in
  let r1 := (Guess.join 1 [] r0).1.2 in
  let r2 := (Guess.join 2 [] r1).1.2 in
  let r3 := (Guess.leave "P1" 1 [] r2).1 in
  let '(playerID, _, r4, _) := Guess.join 3 [] r3 in
  let r5 := (Guess.leave playerID 3 [] r4).1 in
  playerID = "P2"
  ∧ Guess.players r3 !! "P2" = Some (Guess.mkPlayer "P2" 2)
  ∧ Guess.players r5 !! "P2" = None
  ∧ Guess.players r5 ≠ Guess.players r3.
Proof.
  vm_compute. split_and!; [reflexivity..|]. discriminate.
Qed.

(** ** Number guessing *)

Lemma Guess_elem_of_broadcast e msg order r :
  e ∈ Guess.broadcast msg order r ↔
  ∃ k p, k ∈ order ∧ Guess.players r !! k = Some p ∧ e = Guess.Write (Guess.conn p) msg.
Proof.
  unfold Guess.broadcast. rewrite list_elem_of_omap. split.
  - intros (k & Hk & Hf). destruct (Guess.players r !! k) as [p|] eqn:E;
      simplify_eq/=. eauto.
  - intros (k & p & Hk & Hp & ->). exists k. by rewrite Hp.
Qed.

Lemma Guess_times_broadcast_save msg order r a b c :
  Guess.times (Guess.SaveResult a b c) (Guess.broadcast msg order r) = 0.
Proof.
  apply count_occ_not_In. rewrite <- list_elem_of_In.
  rewrite Guess_elem_of_broadcast. intros (? & ? & _ & _ & ?). done.
Qed.

Lemma Guess_elem_of_saveLosers e playerID order r :
  e ∈ Guess.saveLosers playerID order r ↔
  ∃ k p, k ∈ order ∧ Guess.players r !! k = Some p ∧ Guess.id p ≠ playerID
         ∧ e = Guess.SaveResult (Guess.id p) (Guess.name r) "lose".
Proof.
  unfold Guess.saveLosers. rewrite list_elem_of_In, in_flat_map. split.
  - intros (k & Hk & He). apply list_elem_of_In in Hk.
    destruct (Guess.players r !! k) as [p|] eqn:E; [|by destruct He].
    destruct (String.eqb_spec (Guess.id p) playerID); [by destruct He|].
    destruct He as [<-|[]]. eauto 10.
  - intros (k & p & Hk & Hp & Hne & ->). exists k.
    rewrite <- list_elem_of_In. split; [done|]. rewrite Hp.
    destruct (String.eqb_spec (Guess.id p) playerID); [done|]. by left.
Qed.

Lemma Guess_times_saveLosers_0 playerID order r k :
  Guess.wf r →
  ¬ (k ∈ order ∧ is_Some (Guess.players r !! k) ∧ k ≠ playerID) →
  Guess.times (Guess.SaveResult k (Guess.name r) "lose")
              (Guess.saveLosers playerID order r) = 0.
Proof.
  intros Hwf Hk. apply count_occ_not_In. rewrite <- list_elem_of_In.
  rewrite Guess_elem_of_saveLosers. intros (k0 & p & Hk0 & Hp & Hne & Heq).
  apply Hk. pose proof (Hwf _ _ Hp). simplify_eq. eauto.
Qed.

Lemma Guess_times_saveLosers_1 playerID order r k :
  Guess.wf r → NoDup order →
  k ∈ order → is_Some (Guess.players r !! k) → k ≠ playerID →
  Guess.times (Guess.SaveResult k (Guess.name r) "lose")
              (Guess.saveLosers playerID order r) = 1.
Proof.
  intros Hwf Hnd Hin [p Hp] Hne. pose proof (Hwf _ _ Hp) as Hid.
  induction Hnd as [|k0 order Hk0 Hnd IH]; [by apply elem_of_nil in Hin|].
  replace (Guess.saveLosers playerID (k0 :: order) r)
    with (Guess.saveLosers playerID [k0] r ++ Guess.saveLosers playerID order r)
    by (unfold Guess.saveLosers; simpl; by rewrite app_nil_r).
  unfold Guess.times. rewrite count_occ_app.
  apply elem_of_cons in Hin as [->|Hin].
  - fold (Guess.times (Guess.SaveResult k0 (Guess.name r) "lose")
                      (Guess.saveLosers playerID order r)).
    rewrite Guess_times_saveLosers_0 by (done || tauto).
    unfold Guess.saveLosers. cbn [flat_map]. rewrite Hp.
    destruct (String.eqb_spec (Guess.id p) playerID); [congruence|].
    unfold Guess.saveResult. rewrite Hid. cbn [app].
    by rewrite count_occ_cons_eq.
  - fold (Guess.times (Guess.SaveResult k (Guess.name r) "lose")
                      (Guess.saveLosers playerID [k0] r)).
    rewrite Guess_times_saveLosers_0; [by apply IH|done|].
    intros (Hk & _). apply list_elem_of_singleton in Hk. set_solver.
Qed.

Lemma Guess_times_app e l1 l2 :
  Guess.times e (l1 ++ l2) = Guess.times e l1 + Guess.times e l2.
Proof. apply count_occ_app. Qed.

Lemma Guess_times_saveResult_eq playerID result r :
  Guess.times (Guess.SaveResult playerID (Guess.name r) result)
              (Guess.saveResult playerID result r) = 1.
Proof. unfold Guess.times, Guess.saveResult. by rewrite count_occ_cons_eq. Qed.

Lemma Guess_times_saveResult_ne e playerID result r :
  e ≠ Guess.SaveResult playerID (Guess.name r) result →
  Guess.times e (Guess.saveResult playerID result r) = 0.
Proof.
  intros. unfold Guess.times, Guess.saveResult.
  by rewrite count_occ_cons_neq.
Qed.

Lemma Guess_recv_low playerID player guess o1 o2 o3 r g :
  (guess < Guess.secret r)%Z →
  Guess.recv playerID player (Some guess) o1 o2 o3 r g
  = ([Guess.Write (Guess.conn player) "太小了"], r, g).
Proof. intros H. unfold Guess.recv. by rewrite (proj2 (Z.ltb_lt _ _) H). Qed.

Lemma Guess_recv_high playerID player guess o1 o2 o3 r g :
  (guess > Guess.secret r)%Z →
  Guess.recv playerID player (Some guess) o1 o2 o3 r g
  = ([Guess.Write (Guess.conn player) "太大了"], r, g).
Proof.
  intros H. unfold Guess.recv.
  rewrite (proj2 (Z.ltb_ge _ _)) by lia.
  by rewrite (proj2 (Z.gtb_gt _ _) H).
Qed.

Lemma Guess_recv_win playerID player o1 o2 o3 r g :
  Guess.recv playerID player (Some (Guess.secret r)) o1 o2 o3 r g
  = (Guess.broadcast ("玩家 " +:+ playerID +:+ " 猜对了！答案是 "
                      +:+ pretty (Guess.secret r)) o1 r
       ++ Guess.saveResult playerID "win" r
       ++ Guess.saveLosers playerID o2 r
       ++ Guess.broadcast "新一轮开始！请继续猜数字" o3
            (Guess.setSecret ((Intn 100 g).1 + 1)%Z r),
     Guess.setSecret ((Intn 100 g).1 + 1)%Z r, (Intn 100 g).2).
Proof.
  unfold Guess.recv. rewrite Z.ltb_irrefl.
  rewrite Z.gtb_ltb, Z.ltb_irrefl.
  by destruct (Intn 100 g).
Qed.

(** The events of a correct guess, one kind at a time. *)
Lemma Guess_elem_of_win e playerID o1 o2 o3 r z :
  e ∈ Guess.broadcast ("玩家 " +:+ playerID +:+ " 猜对了！答案是 "
                       +:+ pretty (Guess.secret r)) o1 r
        ++ Guess.saveResult playerID "win" r
        ++ Guess.saveLosers playerID o2 r
        ++ Guess.broadcast "新一轮开始！请继续猜数字" o3 (Guess.setSecret z r) →
  (∃ c, e = Guess.Write c ("玩家 " +:+ playerID +:+ " 猜对了！答案是 "
                           +:+ pretty (Guess.secret r)))
  ∨ e = Guess.SaveResult playerID (Guess.name r) "win"
  ∨ (∃ k, e = Guess.SaveResult k (Guess.name r) "lose")
  ∨ (∃ c, e = Guess.Write c "新一轮开始！请继续猜数字").
Proof.
  rewrite !elem_of_app, !Guess_elem_of_broadcast, Guess_elem_of_saveLosers.
  unfold Guess.saveResult. rewrite list_elem_of_singleton.
  intros [(k & p & _ & _ & ->)|[->|[(k & p & _ & _ & _ & ->)|(k & p & _ & _ & ->)]]];
    eauto 6.
Qed.

(** The membership built by joins and leaves from a new room is filed
    under the players' ids. *)
Lemma Guess_wf_new n z : Guess.wf (Guess.mkRoom n ∅ z).
Proof. intros k p Hk. cbn in Hk. by rewrite lookup_empty in Hk. Qed.

Lemma Guess_wf_join c order r :
  Guess.wf r → Guess.wf (Guess.join c order r).1.2.
Proof.
  intros Hwf k p. unfold Guess.join. cbn.
  destruct (decide ("P" +:+ pretty (size (Guess.players r) + 1) = k)) as [<-|Hne].
  - rewrite lookup_insert_eq. by intros [= <-].
  - rewrite lookup_insert_ne by done. apply Hwf.
Qed.

Lemma Guess_wf_leave playerID c order r :
  Guess.wf r → Guess.wf (Guess.leave playerID c order r).1.
Proof.
  intros Hwf k p. unfold Guess.leave. cbn.
  intros [_ Hk]%lookup_delete_Some. by apply Hwf.
Qed.

Lemma Guess_wf_recv playerID player parsed o1 o2 o3 r g :
  Guess.wf r → Guess.wf (Guess.recv playerID player parsed o1 o2 o3 r g).1.2.
Proof.
  intros Hwf. unfold Guess.recv. repeat case_match; done.
Qed.

(** C2. Number guessing, a guess [guess] sent by the member [playerID] of a
    room with secret [s]. The sender alone gets the too-low reply iff
    [guess < s] and the too-high reply iff [guess > s], with nothing else
    done; and iff [guess = s]: the win notice goes to every member, one win
    is recorded for the guesser, one lose for every other member and none
    for anybody else, the secret is replaced by a new one in [1,100], and
    the new-round notice goes to every member. *)
Theorem recv_guess_outcomes playerID player guess o1 o2 o3 r g ev r' g' :
  Guess.wf r →
  Guess.players r !! playerID = Some player →
  visits (Guess.players r) o1 →
  visits (Guess.players r) o2 →
  visits (Guess.players r) o3 →
  Guess.recv playerID player (Some guess) o1 o2 o3 r g = (ev, r', g') →
  let s := Guess.secret r in
  let low := Guess.Write (Guess.conn player) "太小了" in
  let high := Guess.Write (Guess.conn player) "太大了" in
  let win := "玩家 " +:+ playerID +:+ " 猜对了！答案是 " +:+ pretty s in
  let again := "新一轮开始！请继续猜数字" in
  let lose k := Guess.SaveResult k (Guess.name r) "lose" in
  (low ∈ ev ↔ (guess < s)%Z)
  ∧ ((guess < s)%Z → ev = [low] ∧ r' = r ∧ g' = g)
  ∧ (high ∈ ev ↔ (guess > s)%Z)
  ∧ ((guess > s)%Z → ev = [high] ∧ r' = r ∧ g' = g)
  ∧ (Guess.Write (Guess.conn player) win ∈ ev ↔ guess = s)
  ∧ (Guess.times (Guess.SaveResult playerID (Guess.name r) "win") ev = 1
     ↔ guess = s)
  ∧ ((∃ k, lose k ∈ ev) → guess = s)
  ∧ (Guess.Write (Guess.conn player) again ∈ ev ↔ guess = s)
  ∧ (guess = s →
     (∀ k p, Guess.players r !! k = Some p →
             Guess.Write (Guess.conn p) win ∈ ev
             ∧ Guess.Write (Guess.conn p) again ∈ ev)
     ∧ (∀ k, is_Some (Guess.players r !! k) → k ≠ playerID →
             Guess.times (lose k) ev = 1)
     ∧ Guess.times (lose playerID) ev = 0
     ∧ (∀ k, Guess.players r !! k = None → Guess.times (lose k) ev = 0)
     ∧ (1 ≤ Guess.secret r' ≤ 100)%Z
     ∧ Guess.secret r' = ((Intn 100 g).1 + 1)%Z
     ∧ g' = (Intn 100 g).2
     ∧ Guess.players r' = Guess.players r
     ∧ Guess.name r' = Guess.name r).
Proof.
  intros Hwf Hmem [Hnd1 Ho1] [Hnd2 Ho2] [Hnd3 Ho3] Hrecv s low high win again lose.
  destruct (Z.lt_trichotomy guess s) as [Hlt|[Heq|Hgt]].
  - (* too low *)
    rewrite Guess_recv_low in Hrecv by done. simplify_eq.
    rewrite !list_elem_of_singleton. unfold Guess.times.
    split_and!; try done; try (split; [intros; simplify_eq/= | intros; lia]);
      try (intros; lia).
    intros [k Hk]. apply list_elem_of_singleton in Hk. done.
  - (* correct *)
    subst guess. unfold s in Hrecv. rewrite Guess_recv_win in Hrecv.
    simplify_eq.
    fold s win again.
    assert (∀ k p, Guess.players r !! k = Some p →
              Guess.Write (Guess.conn p) win
                ∈ Guess.broadcast win o1 r ++ Guess.saveResult playerID "win" r
                  ++ Guess.saveLosers playerID o2 r
                  ++ Guess.broadcast again o3
                       (Guess.setSecret ((Intn 100 g).1 + 1) r)
              ∧ Guess.Write (Guess.conn p) again
                ∈ Guess.broadcast win o1 r ++ Guess.saveResult playerID "win" r
                  ++ Guess.saveLosers playerID o2 r
                  ++ Guess.broadcast again o3
                       (Guess.setSecret ((Intn 100 g).1 + 1) r)) as Hall.
    { intros k p Hp. rewrite !elem_of_app, !Guess_elem_of_broadcast. split.
      - left. exists k, p. split_and!; [|done..]. apply Ho1. eauto.
      - do 3 right. exists k, p. split_and!; [|done..]. apply Ho3. eauto. }
    assert (Guess.times (Guess.SaveResult playerID (Guess.name r) "win")
              (Guess.broadcast win o1 r ++ Guess.saveResult playerID "win" r
                  ++ Guess.saveLosers playerID o2 r
                  ++ Guess.broadcast again o3
                       (Guess.setSecret ((Intn 100 g).1 + 1) r)) = 1) as Hwin.
    { rewrite !Guess_times_app, !Guess_times_broadcast_save.
      rewrite Guess_times_saveResult_eq.
      assert (Guess.times (Guess.SaveResult playerID (Guess.name r) "win")
                (Guess.saveLosers playerID o2 r) = 0) as ->; [|done].
      apply count_occ_not_In.
      rewrite <- list_elem_of_In, Guess_elem_of_saveLosers.
      intros (? & ? & _ & _ & _ & [=]). }
    assert (∀ k, Guess.times (lose k)
              (Guess.broadcast win o1 r ++ Guess.saveResult playerID "win" r
                  ++ Guess.saveLosers playerID o2 r
                  ++ Guess.broadcast again o3
                       (Guess.setSecret ((Intn 100 g).1 + 1) r))
            = Guess.times (lose k) (Guess.saveLosers playerID o2 r)) as Hlose.
    { intros k. unfold lose.
      rewrite !Guess_times_app, !Guess_times_broadcast_save.
      rewrite Guess_times_saveResult_ne by done. lia. }
    split_and!; try done; try (intros; lia).
    + split; [|lia]. intros Hin. apply Guess_elem_of_win in Hin.
      destruct Hin as [[c Hc]|[Hc|[[k Hc]|[c Hc]]]]; simplify_eq/=.
    + split; [|lia]. intros Hin. apply Guess_elem_of_win in Hin.
      destruct Hin as [[c Hc]|[Hc|[[k Hc]|[c Hc]]]]; simplify_eq/=.
    + split; [done|]. intros _. by apply (Hall playerID player).
    + split; [done|]. intros _. by apply (Hall playerID player).
    + intros _. split_and!; try done.
      * intros k Hk Hne. rewrite Hlose.
        apply Guess_times_saveLosers_1; try done. by apply Ho2.
      * rewrite Hlose. apply Guess_times_saveLosers_0; [done|]. tauto.
      * intros k Hk. rewrite Hlose. apply Guess_times_saveLosers_0; [done|].
        intros (_ & [? ?] & _). congruence.
      * simpl. destruct (Intn 100 g) as [x g1] eqn:E.
        apply Intn_range in E; simpl; lia.
      * simpl. destruct (Intn 100 g) as [x g1] eqn:E.
        apply Intn_range in E; simpl; lia.
  - (* too high *)
    rewrite Guess_recv_high in Hrecv by lia. simplify_eq.
    rewrite !list_elem_of_singleton. unfold Guess.times.
    split_and!; try done; try (split; [intros; simplify_eq/= | intros; lia]);
      try (intros; lia).
    + split; [intros _; lia | intros _; reflexivity].
    + intros [k Hk]. apply list_elem_of_singleton in Hk. done.
Qed.

(** A checkable form of [visits], for concrete maps and orders. *)
Lemma visits_intro `{Countable K} {V} (m : gmap K V) (order : list K) :
  NoDup order → (list_to_set order : gset K) = dom m → visits m order.
Proof.
  intros Hnd Hdom. split; [done|]. intros k.
  rewrite <- elem_of_dom, <- Hdom. by rewrite elem_of_list_to_set.
Qed.

Ltac visits_by_computation :=
  apply visits_intro;
  [ apply (bool_decide_unpack _); vm_compute; exact I
  | apply (bool_decide_unpack _); vm_compute; exact I ].

(** The scenario of the specification: two players in room r1, secret 42;
    P1 guesses 42. *)
Lemma recv_guess_outcomes_witness :
  let r := Guess.mkRoom "r1" (<["P1" := Guess.mkPlayer "P1" 1]>
                               (<["P2" := Guess.mkPlayer "P2" 2]> ∅)) 42 in
  let '(ev, r', g') :=
    Guess.recv "P1" (Guess.mkPlayer "P1" 1) (Some 42%Z)
               ["P1"; "P2"] ["P2"; "P1"] ["P2"; "P1"] r [141%Z] in
  Guess.times (Guess.SaveResult "P1" "r1" "win") ev = 1
  ∧ Guess.times (Guess.SaveResult "P2" "r1" "lose") ev = 1
  ∧ Guess.times (Guess.SaveResult "P1" "r1" "lose") ev = 0
  ∧ (1 ≤ Guess.secret r' ≤ 100)%Z.
Proof.
  intros r.
  destruct (Guess.recv "P1" (Guess.mkPlayer "P1" 1) (Some 42%Z)
              ["P1"; "P2"] ["P2"; "P1"] ["P2"; "P1"] r [141%Z])
    as [[ev r'] g'] eqn:E.
  assert (Guess.wf r) as Hwf.
  { change (map_Forall (λ k p, Guess.id p = k) (Guess.players r)).
    apply (bool_decide_unpack _). vm_compute. exact I. }
  assert (Guess.players r !! "P1" = Some (Guess.mkPlayer "P1" 1)) as Hmem
    by (vm_compute; reflexivity).
  assert (visits (Guess.players r) ["P1"; "P2"]) as Hv1
    by visits_by_computation.
  assert (visits (Guess.players r) ["P2"; "P1"]) as Hv2
    by visits_by_computation.
  pose proof (recv_guess_outcomes "P1" _ 42 _ _ _ r _ ev r' g'
                Hwf Hmem Hv1 Hv2 Hv2 E)
    as (_ & _ & _ & _ & _ & Hwin & _ & _ & Hrest).
  destruct (Hrest eq_refl) as (_ & Hlose & Hself & _ & Hsecret & _).
  split_and!.
  - by apply Hwin.
  - apply Hlose; [|done]. by eexists.
  - exact Hself.
  - apply Hsecret.
  - apply Hsecret.
Defined.

(** ** Snake: one step of the loop of [Room.update] *)

#[local] Arguments Snake.randomEmptyCell : simpl never.
#[local] Arguments Snake.otherHit : simpl never.
#[local] Arguments Snake.occupied : simpl never.
#[local] Arguments Snake.hits : simpl never.
#[local] Arguments Snake.outside : simpl never.
#[local] Arguments Snake.nextHead : simpl never.
#[local] Arguments wrap : simpl never.

Ltac updateSnake_cases :=
  unfold Snake.updateSnake, Snake.die;
  repeat case_match; simplify_eq; simpl.

Lemma updateSnake_other st k j :
  j ≠ k →
  Snake.players (Snake.updateSnake st k).1.1 !! j = Snake.players st.1.1 !! j.
Proof.
  intros Hne. destruct st as [[r g] ev].
  updateSnake_cases; by rewrite ?lookup_insert_ne.
Qed.

Lemma updateSnake_dims st k :
  Snake.width (Snake.updateSnake st k).1.1 = Snake.width st.1.1
  ∧ Snake.height (Snake.updateSnake st k).1.1 = Snake.height st.1.1
  ∧ Snake.name (Snake.updateSnake st k).1.1 = Snake.name st.1.1.
Proof. destruct st as [[r g] ev]. by updateSnake_cases. Qed.



Lemma foldl_updateSnake_other order st j :
  j ∉ order →
  Snake.players (foldl Snake.updateSnake st order).1.1 !! j
  = Snake.players st.1.1 !! j.
Proof.
  revert st. induction order as [|k order IH]; intros st Hj; [done|].
  simpl. rewrite IH by set_solver. apply updateSnake_other. set_solver.
Qed.

Lemma foldl_updateSnake_dims order st :
  Snake.width (foldl Snake.updateSnake st order).1.1 = Snake.width st.1.1
  ∧ Snake.height (foldl Snake.updateSnake st order).1.1 = Snake.height st.1.1
  ∧ Snake.name (foldl Snake.updateSnake st order).1.1 = Snake.name st.1.1.
Proof.
  revert st. induction order as [|k order IH]; intros st; [done|].
  simpl. destruct (IH (Snake.updateSnake st k)) as (-> & -> & ->).
  apply updateSnake_dims.
Qed.


Lemma update_room order border r g :
  (Snake.update order border r g).1.1
  = (foldl Snake.updateSnake (r, g, []) order).1.1.
Proof.
  unfold Snake.update.
  by destruct (foldl Snake.updateSnake (r, g, []) order) as [[r' g'] ev].
Qed.



Lemma occupied_true p r :
  Snake.occupied p r = true ↔
  ∃ k s, Snake.players r !! k = Some s ∧ p ∈ Snake.Body s.
Proof.
  unfold Snake.occupied. rewrite bool_decide_eq_true.
  apply map_Exists_lookup.
Qed.

Lemma occupied_false p r :
  Snake.occupied p r = false ↔
  ∀ k s, Snake.players r !! k = Some s → p ∉ Snake.Body s.
Proof.
  rewrite <- not_true_iff_false, occupied_true. split.
  - intros Hno k s Hk Hin. apply Hno. eauto.
  - intros Hall (k & s & Hk & Hin). by apply (Hall k s).
Qed.





(** ** Snake: what a step of the loop reads *)




(** ** Snake: eating and the new food cell *)

Lemma randomEmptyCell_loop_spec n r g :
  let '(p, g') := Snake.randomEmptyCell_loop n r g in
  (Snake.occupied p r = false ∧ p ∈ Snake.attempts n r g)
  ∨ (p = Snake.food r
     ∧ Forall (λ q, Snake.occupied q r = true) (Snake.attempts n r g)
     ∧ length (Snake.attempts n r g) = n).
Proof.
  revert g. induction n as [|n IH]; intros g; simpl.
  - right. by split_and!.
  - destruct (Intn (Snake.width r) g) as [x g1].
    destruct (Intn (Snake.height r) g1) as [y g2].
    destruct (Snake.occupied (Snake.mkPoint x y) r) eqn:Hocc.
    + specialize (IH g2).
      destruct (Snake.randomEmptyCell_loop n r g2) as [p g'].
      destruct IH as [[Hp Hin]|(Hp & Hall & Hlen)].
      * left. split; [done|]. by right.
      * right. split_and!; [done| |by rewrite length_cons, Hlen].
        by constructor.
    + left. split; [done|]. by left.
Qed.

Lemma updateSnake_eat r g ev k snake head tl :
  Snake.players r !! k = Some snake →
  Snake.Alive snake = true →
  Snake.Body snake = head :: tl →
  let next := Snake.nextHead (Snake.Dir snake) head in
  Snake.outside next r = false →
  Snake.hits next (Snake.Body snake) = false →
  Snake.otherHit snake next r = false →
  next = Snake.food r →
  let newBody := next :: removelast (head :: tl) in
  let snake2 :=
    Snake.setBody (newBody ++ [List.last newBody next])
      (Snake.setScore (wrap (Snake.Score snake + 1))
         (Snake.setBody newBody snake)) in
  let r2 := Snake.setPlayers (<[k := snake2]> (Snake.players r)) r in
  Snake.updateSnake (r, g, ev) k
  = (Snake.setFood (Snake.randomEmptyCell r2 g).1 r2,
     (Snake.randomEmptyCell r2 g).2, ev).
Proof.
  intros Hk Halive Hbody next Hout Hself Hother Hfood newBody snake2 r2.
  unfold Snake.updateSnake. rewrite Hk. cbv beta iota.
  rewrite Halive. cbn [negb]. rewrite Hbody in Hself |- *.
  fold next. rewrite Hout, Hself, Hother.
  rewrite bool_decide_eq_true_2 by done.
  fold newBody. cbn [Snake.Score Snake.setBody]. fold snake2 r2.
  by destruct (Snake.randomEmptyCell r2 g).
Qed.

(** The four ways a step of the loop can end. *)
Lemma updateSnake_outcome r g ev k :
  Snake.updateSnake (r, g, ev) k = (r, g, ev)
  ∨ (∃ snake,
       Snake.players r !! k = Some snake
       ∧ Snake.updateSnake (r, g, ev) k
         = (Snake.setPlayers (<[k := Snake.setAlive false snake]> (Snake.players r)) r,
            g, ev ++ Snake.saveScore (Snake.ID snake) (Snake.Score snake) r))
  ∨ (∃ snake head tl,
       Snake.players r !! k = Some snake
       ∧ Snake.Body snake = head :: tl
       ∧ Snake.nextHead (Snake.Dir snake) head ≠ Snake.food r
       ∧ Snake.updateSnake (r, g, ev) k
         = (Snake.setPlayers
              (<[k := Snake.setBody
                        (Snake.nextHead (Snake.Dir snake) head
                           :: removelast (head :: tl)) snake]>
                 (Snake.players r)) r, g, ev))
  ∨ (∃ snake head tl,
       Snake.players r !! k = Some snake
       ∧ Snake.Alive snake = true
       ∧ Snake.Body snake = head :: tl
       ∧ Snake.outside (Snake.nextHead (Snake.Dir snake) head) r = false
       ∧ Snake.hits (Snake.nextHead (Snake.Dir snake) head) (Snake.Body snake) = false
       ∧ Snake.otherHit snake (Snake.nextHead (Snake.Dir snake) head) r = false
       ∧ Snake.nextHead (Snake.Dir snake) head = Snake.food r).
Proof.
  unfold Snake.updateSnake.
  destruct (Snake.players r !! k) as [snake|] eqn:Hk; [|by left].
  destruct (Snake.Alive snake) eqn:Halive; cbn [negb]; [|by left].
  destruct (Snake.Body snake) as [|head tl] eqn:Hbody; [by left|].
  unfold Snake.die. rewrite Halive.
  destruct (Snake.outside _ r) eqn:Hout; [right; left; eauto|].
  destruct (Snake.hits _ _) eqn:Hself; [right; left; eauto|].
  destruct (Snake.otherHit _ _ r) eqn:Hother; [right; left; eauto|].
  case_bool_decide as Hfood.
  - do 3 right. exists snake, head, tl. rewrite Hbody. by split_and!.
  - right; right; left. exists snake, head, tl. by split_and!.
Qed.

Lemma elem_of_removelast {A} (x : A) (l : list A) :
  x ∈ removelast l → x ∈ l.
Proof.
  induction l as [|a [|b l] IH]; simpl; [done|by intros ?%elem_of_nil|].
  intros [->|Hin]%elem_of_cons; [by left|]. right. by apply IH.
Qed.

Lemma foodClear_mono r0 E E' r :
  E ⊆ E' → Snake.foodClear r0 E r → Snake.foodClear r0 E' r.
Proof.
  intros Hsub [Hfree|(e & s0 & s & He & Hs0 & Hs & Hrest)]; [by left|].
  right. exists e, s0, s. split_and!; [by apply Hsub|done|done|apply Hrest..].
Qed.

Lemma length_removelast_cons {A} (a : A) (l : list A) :
  length (removelast (a :: l)) = length l.
Proof.
  rewrite removelast_firstn_len, length_take. cbn [length Nat.pred]. lia.
Qed.

(** Right after a snake has eaten, the new food cell is either in no body
    or, all attempts having failed, the cell the snake has just entered. *)
Lemma updateSnake_eat_foodClear r0 r g ev k snake head tl :
  Snake.players r0 !! k = Some snake →
  Snake.players r !! k = Some snake →
  Snake.Alive snake = true →
  Snake.Body snake = head :: tl →
  Snake.outside (Snake.nextHead (Snake.Dir snake) head) r = false →
  Snake.hits (Snake.nextHead (Snake.Dir snake) head) (Snake.Body snake) = false →
  Snake.otherHit snake (Snake.nextHead (Snake.Dir snake) head) r = false →
  Snake.nextHead (Snake.Dir snake) head = Snake.food r →
  Snake.foodClear r0 [k] (Snake.updateSnake (r, g, ev) k).1.1.
Proof.
  intros Hk0 Hk Halive Hbody Hout Hself Hother Hfood.
  rewrite (updateSnake_eat r g ev k snake head tl) by done. cbn [fst].
  set (snake2 := Snake.setBody _ _).
  set (r2 := Snake.setPlayers _ r).
  pose proof (randomEmptyCell_loop_spec 200 r2 g) as Hspec.
  fold (Snake.randomEmptyCell r2 g) in Hspec.
  destruct (Snake.randomEmptyCell r2 g) as [p g'].
  destruct Hspec as [[Hfree _]|(-> & _)]; cbn [fst].
  - by left.
  - right. exists k, snake, snake2.
    split_and!; [by apply list_elem_of_singleton|done|apply lookup_insert_eq|..].
    + cbn. by rewrite Hfood.
    + done.
    + unfold snake2. cbn [Snake.Body Snake.setBody].
      rewrite last_length, Hbody. cbn [length].
      by rewrite length_removelast_cons.
Qed.

(** A step of a snake that is not one of [E], and is still as in [r0],
    keeps the food clear, the stepping snake joining [E]. *)
Lemma updateSnake_foodClear r0 E st j :
  j ∉ E →
  Snake.players st.1.1 !! j = Snake.players r0 !! j →
  Snake.foodClear r0 E st.1.1 →
  Snake.foodClear r0 (j :: E) (Snake.updateSnake st j).1.1.
Proof.
  destruct st as [[r g] ev]. cbn [fst]. intros Hj Hj0 Hclear.
  destruct (updateSnake_outcome r g ev j)
    as [->|[(snake & Hk & ->)|[(snake & head & tl & Hk & Hbody & Hfood & ->)
       |(snake & head & tl & Hk & Halive & Hbody & Hout & Hself & Hother & Hfood)]]].
  - eapply foodClear_mono; [|done]. intros x Hx. by right.
  - (* the snake dies where it is *)
    cbn [fst]. destruct Hclear as [Hfree|(e & s0 & s & He & Hs0 & Hs & Hrest)].
    + left. apply occupied_false. intros k s. cbn.
      rewrite occupied_false in Hfree.
      destruct (decide (k = j)) as [->|Hne].
      * rewrite lookup_insert_eq. intros [= <-]. cbn. by apply (Hfree j).
      * rewrite lookup_insert_ne by done. apply Hfree.
    + right. exists e, s0, s. split_and!; [by right|done| |apply Hrest..].
      cbn. rewrite lookup_insert_ne; [done|]. by intros ->.
  - (* the snake advances to a cell that is not the food *)
    cbn [fst]. destruct Hclear as [Hfree|(e & s0 & s & He & Hs0 & Hs & Hrest)].
    + left. apply occupied_false. intros k s. cbn.
      rewrite occupied_false in Hfree.
      destruct (decide (k = j)) as [->|Hne].
      * rewrite lookup_insert_eq. intros [= <-]. cbn [Snake.Body Snake.setBody].
        intros [Heq|Hin]%elem_of_cons; [done|].
        change (Snake.food r ∈ removelast (head :: tl)) in Hin.
        apply elem_of_removelast in Hin. rewrite <- Hbody in Hin.
        by apply (Hfree j snake).
      * rewrite lookup_insert_ne by done. apply Hfree.
    + right. exists e, s0, s. split_and!; [by right|done| |apply Hrest..].
      cbn. rewrite lookup_insert_ne; [done|]. by intros ->.
  - (* the snake eats *)
    eapply foodClear_mono;
      [|apply (updateSnake_eat_foodClear r0 r g ev j snake head tl); try done].
    + intros x Hx%list_elem_of_singleton. subst. by left.
    + by rewrite <- Hj0.
Qed.

Lemma foldl_updateSnake_foodClear r0 order E st :
  NoDup order → (∀ j, j ∈ order → j ∉ E) →
  (∀ j, j ∈ order → Snake.players st.1.1 !! j = Snake.players r0 !! j) →
  Snake.foodClear r0 E st.1.1 →
  Snake.foodClear r0 (order ++ E) (foldl Snake.updateSnake st order).1.1.
Proof.
  intros Hnd. revert E st.
  induction Hnd as [|j order Hj Hnd IH]; intros E st Hdisj Hfresh Hclear; [done|].
  cbn [foldl]. eapply foodClear_mono; [|apply (IH (j :: E))].
  - intros x. cbn [app]. rewrite elem_of_app, !elem_of_cons, elem_of_app. tauto.
  - intros i Hi [->|HiE]%elem_of_cons; [done|]. apply (Hdisj i); [by right|done].
  - intros i Hi. rewrite updateSnake_other by (by intros ->).
    apply Hfresh. by right.
  - apply updateSnake_foodClear; [|apply Hfresh; by left|done].
    apply Hdisj. by left.
Qed.

Lemma wrap_succ z : (int_min ≤ z < int_max)%Z → wrap (z + 1) = (z + 1)%Z.
Proof.
  unfold wrap, int_min, int_max. intros Hz.
  rewrite Z.mod_small; lia.
Qed.

Lemma update_events order border r g e :
  e ∈ (Snake.update order border r g).2 →
  let r' := (Snake.update order border r g).1.1 in
  e ∈ (foldl Snake.updateSnake (r, g, []) order).2
  ∨ ∃ c, e = Snake.Write c (Snake.MsgState (Snake.snapshotPlayers r')
                              (Snake.food r') (Snake.name r')
                              (Snake.width r') (Snake.height r')).
Proof.
  unfold Snake.update.
  destruct (foldl Snake.updateSnake (r, g, []) order) as [[r1 g1] ev1].
  cbn [fst snd]. rewrite elem_of_app. intros [He|He]; [by left|right].
  unfold Snake.broadcast in He. apply list_elem_of_omap in He as (k & _ & Hk).
  destruct (Snake.players r1 !! k) as [s|]; [|done]. cbn in Hk.
  destruct (Snake.conn s) as [c|]; [|done]. cbn in Hk. simplify_eq. eauto.
Qed.

Lemma foldl_updateSnake_no_write order st c m :
  Snake.Write c m ∉ st.2 →
  Snake.Write c m ∉ (foldl Snake.updateSnake st order).2.
Proof.
  revert st. induction order as [|k order IH]; intros st Hst; [done|].
  cbn [foldl]. apply IH. destruct st as [[r g] ev].
  destruct (updateSnake_outcome r g ev k)
    as [->|[(snake & Hk & ->)|[(snake & head & tl & Hk & Hbody & Hfood & ->)
       |(snake & head & tl & Hk & Halive & Hbody & Hout & Hself & Hother & Hfood)]]];
    try done.
  - cbn [snd] in *. rewrite elem_of_app. intros [?|Hin]; [done|].
    apply list_elem_of_singleton in Hin. done.
  - by rewrite (updateSnake_eat r g ev k snake head tl).
Qed.

(** C4, as the code has it. A snake that advances onto the food cell when
    the loop reaches it ends the tick one segment longer, its head on that
    cell, and with its score raised by one (in Go's [int]). Every client
    is sent the room as the loop left it, and the food cell in it is either
    inside no body, or the head cell of a snake that ate at or after that
    moment of the tick (one segment longer and one point richer than at the
    start of the tick): [randomEmptyCell] returns a cell it found in no
    body, or, after 200 attempts that all fell on bodies, the food cell it
    was called with, which the eating snake has just entered. *)
Theorem eat_grows_and_redraws_food pre k post border r g snake head tl :
  NoDup (pre ++ k :: post) →
  let st1 := foldl Snake.updateSnake (r, g, []) pre in
  let next := Snake.nextHead (Snake.Dir snake) head in
  Snake.players st1.1.1 !! k = Some snake →
  Snake.Alive snake = true →
  Snake.Body snake = head :: tl →
  Snake.outside next st1.1.1 = false →
  Snake.hits next (Snake.Body snake) = false →
  Snake.otherHit snake next st1.1.1 = false →
  next = Snake.food st1.1.1 →
  let out := Snake.update (pre ++ k :: post) border r g in
  let r' := out.1.1 in
  (∃ snake',
     Snake.players r' !! k = Some snake'
     ∧ length (Snake.Body snake') = S (length (Snake.Body snake))
     ∧ List.head (Snake.Body snake') = Some next
     ∧ Snake.Score snake' = wrap (Snake.Score snake + 1)
     ∧ ((int_min ≤ Snake.Score snake < int_max)%Z →
        Snake.Score snake' = (Snake.Score snake + 1)%Z))
  ∧ (∀ c m, Snake.Write c m ∈ out.2 →
            m = Snake.MsgState (Snake.snapshotPlayers r') (Snake.food r')
                  (Snake.name r') (Snake.width r') (Snake.height r'))
  ∧ (Snake.occupied (Snake.food r') r' = false
     ∨ ∃ e s0 s, e ∈ k :: post
                 ∧ Snake.players r !! e = Some s0
                 ∧ Snake.players r' !! e = Some s
                 ∧ List.head (Snake.Body s) = Some (Snake.food r')
                 ∧ Snake.Score s = wrap (Snake.Score s0 + 1)
                 ∧ length (Snake.Body s) = S (length (Snake.Body s0)))
  ∧ (∀ r0 g0,
       let p := (Snake.randomEmptyCell r0 g0).1 in
       (Snake.occupied p r0 = false ∧ p ∈ Snake.attempts 200 r0 g0)
       ∨ (p = Snake.food r0
          ∧ Forall (λ q, Snake.occupied q r0 = true) (Snake.attempts 200 r0 g0)
          ∧ length (Snake.attempts 200 r0 g0) = 200)).
Proof.
  intros Hnd st1 next Hk Halive Hbody Hout Hself Hother Hfood out r'.
  apply NoDup_app in Hnd as (Hpre & Hdisj & Hrest).
  apply NoDup_cons in Hrest as [Hkpost Hpost].
  assert (r' = (foldl Snake.updateSnake (Snake.updateSnake st1 k) post).1.1)
    as Hr'.
  { unfold r', out. rewrite update_room, foldl_app. done. }
  destruct st1 as [[r1 g1] ev1] eqn:Hst1. cbn [fst] in *.
  split_and!.
  - rewrite Hr', foldl_updateSnake_other by done.
    rewrite (updateSnake_eat r1 g1 ev1 k snake head tl) by done.
    cbn [fst Snake.players Snake.setFood Snake.setPlayers].
    rewrite lookup_insert_eq. eexists. split; [done|].
    cbn [Snake.Body Snake.setBody Snake.Score Snake.setScore].
    split_and!.
    + rewrite last_length, Hbody. cbn [length].
      by rewrite length_removelast_cons.
    + done.
    + done.
    + apply wrap_succ.
  - intros c m Hin. apply update_events in Hin as [Hin|[c' Heq]].
    + exfalso. revert Hin. apply foldl_updateSnake_no_write.
      cbn. apply not_elem_of_nil.
    + by simplify_eq.
  - assert (∀ j, j ∉ pre → Snake.players r1 !! j = Snake.players r !! j)
      as Hfresh.
    { intros j Hj.
      change r1 with (r1, g1, ev1).1.1. rewrite <- Hst1.
      unfold st1. by rewrite foldl_updateSnake_other. }
    assert (k ∉ pre) as Hkpre by (intros Hin; apply (Hdisj k Hin); by left).
    assert (Snake.foodClear r (post ++ [k]) r') as Hclear.
    { rewrite Hr'. apply foldl_updateSnake_foodClear; [done| | |].
      - intros j Hj Hjk%list_elem_of_singleton. by subst.
      - intros j Hj. rewrite updateSnake_other by (by intros ->).
        cbn [fst]. apply Hfresh. intros Hin. apply (Hdisj j Hin). by right.
      - apply (updateSnake_eat_foodClear r r1 g1 ev1 k snake head tl);
          try done.
        by rewrite <- Hfresh. }
    destruct Hclear as [Hfree|(e & s0 & s & He & Hs0 & Hs & Hrest)]; [by left|].
    right. exists e, s0, s. split_and!; [|done|done|apply Hrest..].
    apply elem_of_app in He as [He|He%list_elem_of_singleton];
      [by right|subst; by left].
  - intros r0 g0.
    pose proof (randomEmptyCell_loop_spec 200 r0 g0) as Hspec.
    fold (Snake.randomEmptyCell r0 g0) in Hspec.
    by destruct (Snake.randomEmptyCell r0 g0).
Qed.

(** C4 fails as stated. P1 on (5,5) heads right, the food is on (6,5), and
    each of the 200 attempts draws (6,5), which P1 has just entered: the
    food stays on (6,5), inside the body of P1, and that is what the
    clients are sent. *)
Lemma food_redraw_counterexample :
  let A := Snake.mkSnake "P1" [Snake.mkPoint 5 5] "right" 0 true (Some 1) in
  let r := Snake.mkRoom "r1" 20 20 (<["P1" := A]> ∅) (Snake.mkPoint 6 5) true in
  let g := concat (replicate 200 [6%Z; 5%Z]) in
  let out := Snake.update ["P1"] ["P1"] r g in
  Snake.players out.1.1 !! "P1"
  = Some (Snake.mkSnake "P1" [Snake.mkPoint 6 5; Snake.mkPoint 6 5]
                        "right" 1 true (Some 1))
  ∧ Snake.food out.1.1 = Snake.mkPoint 6 5
  ∧ Snake.occupied (Snake.food out.1.1) out.1.1 = true
  ∧ out.2 = [Snake.Write 1 (Snake.MsgState (Snake.snapshotPlayers out.1.1)
                              (Snake.mkPoint 6 5) "r1" 20 20)].
Proof. vm_compute. by split_and!. Qed.

(** The same snake and food, the first attempt drawing the free cell
    (3,4). *)
Lemma eat_grows_and_redraws_food_witness :
  let A := Snake.mkSnake "P1" [Snake.mkPoint 5 5] "right" 0 true (Some 1) in
  let r := Snake.mkRoom "r1" 20 20 (<["P1" := A]> ∅) (Snake.mkPoint 6 5) true in
  let r' := (Snake.update ([] ++ "P1" :: []) ["P1"] r [3%Z; 4%Z]).1.1 in
  (∃ snake',
     Snake.players r' !! "P1" = Some snake'
     ∧ length (Snake.Body snake') = 2
     ∧ Snake.Score snake' = 1%Z)
  ∧ Snake.food r' = Snake.mkPoint 3 4
  ∧ Snake.occupied (Snake.food r') r' = false.
Proof.
  intros A r r'.
  assert (NoDup ([] ++ "P1" :: [])) as Hnd.
  { apply (bool_decide_unpack _). vm_compute. exact I. }
  destruct (eat_grows_and_redraws_food [] "P1" [] ["P1"] r [3%Z; 4%Z]
              A (Snake.mkPoint 5 5) [] Hnd)
    as ((snake' & Hk & Hlen & _ & _ & Hscore) & _ & _ & _);
    try (vm_compute; reflexivity).
  split_and!.
  - exists snake'. split_and!; [exact Hk|exact Hlen|].
    apply Hscore. unfold int_min, int_max. simpl. lia.
  - vm_compute. reflexivity.
  - vm_compute. reflexivity.
Defined.

(** ** Rock-paper-scissors *)

Lemma visits_length `{Countable K} {V} (m : gmap K V) (order : list K) :
  visits m order → length order = size m.
Proof.
  intros [Hnd Hiff].
  rewrite <- length_map_to_list, <- (length_fmap fst).
  apply Permutation_length, NoDup_Permutation;
    [done|apply NoDup_fst_map_to_list|].
  intros k. rewrite Hiff, list_elem_of_fmap. split.
  - intros [v Hv]. exists (k, v). split; [done|]. by apply elem_of_map_to_list.
  - intros ([k' v] & -> & Hkv). apply elem_of_map_to_list in Hkv. by eexists.
Qed.

Lemma visits_two `{Countable K} {V} (m : gmap K V) (order : list K) :
  visits m order → size m = 2 →
  ∃ k1 k2 v1 v2, order = [k1; k2] ∧ k1 ≠ k2
                 ∧ m !! k1 = Some v1 ∧ m !! k2 = Some v2
                 ∧ ∀ k, is_Some (m !! k) → k = k1 ∨ k = k2.
Proof.
  intros Hv Hsz. pose proof (visits_length _ _ Hv) as Hlen.
  destruct Hv as [Hnd Hiff]. rewrite Hsz in Hlen.
  destruct order as [|k1 [|k2 [|k3 order]]]; try done.
  destruct (proj1 (Hiff k1)) as [v1 Hv1]; [by left|].
  destruct (proj1 (Hiff k2)) as [v2 Hv2]; [right; by left|].
  exists k1, k2, v1, v2. split_and!; try done.
  - apply NoDup_cons in Hnd as [Hk1 _]. intros ->. apply Hk1. by left.
  - intros k Hk. apply Hiff in Hk.
    apply elem_of_cons in Hk as [->|Hk]; [by left|].
    apply list_elem_of_singleton in Hk. by right.
Qed.

Lemma RPS_isSet m : RPS.isSet m = true ↔ m ≠ EmptyString.
Proof.
  unfold RPS.isSet. destruct (String.eqb_spec m EmptyString); simpl; split;
    congruence.
Qed.

Lemma RPS_pick_two r k1 k2 l1 l2 :
  RPS.players r !! k1 = Some l1 → RPS.players r !! k2 = Some l2 →
  RPS.pick [k1; k2] r = (Some l1, Some l2).
Proof. intros H1 H2. unfold RPS.pick. simpl. by rewrite H1, H2. Qed.

Lemma RPS_contestants_Some order r l1 p1 l2 p2 :
  visits (RPS.players r) order →
  RPS.contestants order r = Some (l1, p1, (l2, p2)) →
  size (RPS.players r) = 2
  ∧ (∃ k1 k2, order = [k1; k2] ∧ k1 ≠ k2
              ∧ RPS.players r !! k1 = Some l1 ∧ RPS.players r !! k2 = Some l2
              ∧ ∀ k, is_Some (RPS.players r !! k) → k = k1 ∨ k = k2)
  ∧ RPS.heap r !! l1 = Some p1 ∧ RPS.heap r !! l2 = Some p2
  ∧ RPS.move p1 ≠ EmptyString ∧ RPS.move p2 ≠ EmptyString.
Proof.
  intros Hv. unfold RPS.contestants.
  destruct (Nat.eqb_spec (size (RPS.players r)) 2) as [Hsz|]; [|done].
  destruct (visits_two _ _ Hv Hsz) as (k1 & k2 & v1 & v2 & -> & Hne & H1 & H2 & Hall).
  rewrite (RPS_pick_two r k1 k2 v1 v2) by done.
  destruct (RPS.heap r !! v1) as [q1|] eqn:E1; [|done].
  destruct (RPS.heap r !! v2) as [q2|] eqn:E2; [|done].
  destruct (RPS.isSet (RPS.move q1)) eqn:S1; [|done].
  destruct (RPS.isSet (RPS.move q2)) eqn:S2; [|done].
  simpl. intros [= <- <- <- <-].
  apply RPS_isSet in S1, S2. split_and!; try done. by exists k1, k2.
Qed.

Lemma RPS_contestants_fire order r :
  RPS.wf r → visits (RPS.players r) order →
  size (RPS.players r) = 2 →
  (∀ k p, RPS.member r k = Some p → RPS.move p ≠ EmptyString) →
  is_Some (RPS.contestants order r).
Proof.
  intros Hwf Hv Hsz Hset. unfold RPS.contestants.
  rewrite (proj2 (Nat.eqb_eq _ _) Hsz).
  destruct (visits_two _ _ Hv Hsz) as (k1 & k2 & l1 & l2 & -> & Hne & H1 & H2 & Hall).
  rewrite (RPS_pick_two r k1 k2 l1 l2) by done.
  destruct (Hwf _ _ H1) as [p1 Hp1]. destruct (Hwf _ _ H2) as [p2 Hp2].
  rewrite Hp1, Hp2.
  assert (RPS.isSet (RPS.move p1) = true) as ->.
  { apply RPS_isSet, (Hset k1). unfold RPS.member. by rewrite H1. }
  assert (RPS.isSet (RPS.move p2) = true) as ->.
  { apply RPS_isSet, (Hset k2). unfold RPS.member. by rewrite H2. }
  by eexists.
Qed.

Lemma RPS_decide_spec p1 p2 :
  (RPS.move p1 = RPS.move p2 → RPS.decide p1 p2 = "平局")
  ∧ (RPS.Beats (RPS.move p1) (RPS.move p2) →
     RPS.decide p1 p2 = "玩家 " +:+ RPS.id p1 +:+ " 赢了！")
  ∧ (RPS.Beats (RPS.move p2) (RPS.move p1) →
     RPS.decide p1 p2 = "玩家 " +:+ RPS.id p2 +:+ " 赢了！")
  ∧ (RPS.move p1 ≠ RPS.move p2 →
     ¬ RPS.Beats (RPS.move p1) (RPS.move p2) →
     RPS.decide p1 p2 = "玩家 " +:+ RPS.id p2 +:+ " 赢了！").
Proof.
  unfold RPS.decide, RPS.beats. split_and!.
  - intros ->. by rewrite String.eqb_refl.
  - intros Hb. by inversion Hb.
  - intros Hb. by inversion Hb.
  - intros Hne Hnb.
    destruct (String.eqb_spec (RPS.move p1) (RPS.move p2)); [done|].
    destruct (String.eqb_spec (RPS.move p1) "rock") as [E1|],
             (String.eqb_spec (RPS.move p2) "scissors") as [E2|],
             (String.eqb_spec (RPS.move p1) "scissors") as [E3|],
             (String.eqb_spec (RPS.move p2) "paper") as [E4|],
             (String.eqb_spec (RPS.move p1) "paper") as [E5|],
             (String.eqb_spec (RPS.move p2) "rock") as [E6|];
      simpl; try done; try congruence; exfalso; apply Hnb;
      first [rewrite E1, E2 | rewrite E3, E4 | rewrite E5, E6]; constructor.
Qed.

Lemma RPS_wf_record msg player r :
  RPS.wf r → RPS.wf (RPS.setHeap (alter (RPS.setMove msg) player (RPS.heap r)) r).
Proof.
  intros Hwf k l Hk. simpl in *. apply lookup_alter_is_Some. by apply (Hwf k).
Qed.

Lemma RPS_broadcast_reaches fails msg order r k p :
  visits (RPS.players r) order →
  RPS.member r k = Some p →
  (fails (RPS.conn p) = false ∧ RPS.Sent (RPS.conn p) msg ∈ RPS.broadcast fails msg order r)
  ∨ (fails (RPS.conn p) = true
     ∧ RPS.SendFailed (RPS.conn p) msg ∈ RPS.broadcast fails msg order r
     ∧ RPS.Println "发送消息失败:" ∈ RPS.broadcast fails msg order r).
Proof.
  intros [_ Hiff] Hmem.
  assert (k ∈ order) as Hk.
  { apply Hiff. unfold RPS.member in Hmem.
    destruct (RPS.players r !! k); [by eexists|done]. }
  unfold RPS.broadcast.
  destruct (fails (RPS.conn p)) eqn:Hf; [right|left]; split_and!; try done;
    apply list_elem_of_In, in_flat_map; exists k;
    (split; [by apply list_elem_of_In|]); rewrite Hmem, Hf; simpl; auto.
Qed.

(** C5. One turn of a session on an inbound move. After the move is
    recorded and announced, the resolution fires exactly when the room has
    two members and the moves of both are set; when it does not fire nothing
    more is done. When it fires the contestants are the two members, the
    verdict of [decide] is sent to both and their moves are cleared; and
    the verdict follows rock > scissors > paper > rock: a tie for equal
    moves, else the player whose move beats the other's. *)
Theorem rps_resolution fails PlayerID player msg o1 o2 o3 r :
  RPS.wf r →
  visits (RPS.players r) o2 →
  visits (RPS.players r) o3 →
  let r1 := RPS.setHeap (alter (RPS.setMove msg) player (RPS.heap r)) r in
  let ev1 := RPS.broadcast fails ("玩家" +:+ PlayerID +:+ " 出了 " +:+ msg) o1 r1 in
  let out := RPS.recv fails PlayerID player msg o1 o2 o3 r in
  (is_Some (RPS.contestants o2 r1) ↔
   size (RPS.players r) = 2
   ∧ ∀ k p, RPS.member r1 k = Some p → RPS.move p ≠ EmptyString)
  ∧ (RPS.contestants o2 r1 = None → out = (r1, ev1))
  ∧ (∀ l1 p1 l2 p2,
       RPS.contestants o2 r1 = Some (l1, p1, (l2, p2)) →
       let verdict := "结果：" +:+ RPS.decide p1 p2 in
       (∃ k1 k2, k1 ≠ k2
                 ∧ RPS.member r1 k1 = Some p1 ∧ RPS.member r1 k2 = Some p2
                 ∧ ∀ k, is_Some (RPS.players r !! k) → k = k1 ∨ k = k2)
       ∧ out.2 = ev1 ++ RPS.broadcast fails verdict o3 r1
       ∧ (∀ k p, RPS.member r1 k = Some p →
                 RPS.Sent (RPS.conn p) verdict ∈ out.2
                 ∨ RPS.SendFailed (RPS.conn p) verdict ∈ out.2)
       ∧ RPS.players out.1 = RPS.players r
       ∧ (∀ k p, RPS.member out.1 k = Some p → RPS.move p = EmptyString)
       ∧ (RPS.Valid (RPS.move p1) → RPS.Valid (RPS.move p2) →
          (RPS.move p1 = RPS.move p2 ∧ RPS.decide p1 p2 = "平局")
          ∨ (RPS.Beats (RPS.move p1) (RPS.move p2)
             ∧ RPS.decide p1 p2 = "玩家 " +:+ RPS.id p1 +:+ " 赢了！")
          ∨ (RPS.Beats (RPS.move p2) (RPS.move p1)
             ∧ RPS.decide p1 p2 = "玩家 " +:+ RPS.id p2 +:+ " 赢了！"))).
Proof.
  intros Hwf Hv2 Hv3 r1 ev1 out.
  assert (RPS.wf r1) as Hwf1 by by apply RPS_wf_record.
  assert (RPS.players r1 = RPS.players r) as Hpl by done.
  split_and!.
  - split.
    + intros [[[l1 p1] [l2 p2]] Hc].
      apply RPS_contestants_Some in Hc
        as (Hsz & (k1 & k2 & -> & Hne & H1 & H2 & Hall) & Hp1 & Hp2 & Hm1 & Hm2);
        [|done].
      split; [done|]. intros k p Hmem. unfold RPS.member in Hmem.
      destruct (RPS.players r1 !! k) as [l|] eqn:Hk; [|done].
      destruct (Hall k) as [->| ->]; [by eexists|..]; simplify_eq/=; congruence.
    + intros [Hsz Hset]. by apply RPS_contestants_fire.
  - intros Hnone. unfold out, RPS.recv. fold r1. by rewrite Hnone.
  - intros l1 p1 l2 p2 Hc verdict.
    assert (out = (RPS.setHeap (alter (RPS.setMove EmptyString) l2
                      (alter (RPS.setMove EmptyString) l1 (RPS.heap r1))) r1,
                   ev1 ++ RPS.broadcast fails verdict o3 r1)) as Hout.
    { unfold out, RPS.recv. fold r1. by rewrite Hc. }
    apply RPS_contestants_Some in Hc
      as (Hsz & (k1 & k2 & -> & Hne & H1 & H2 & Hall) & Hp1 & Hp2 & Hm1 & Hm2);
      [|done].
    assert (RPS.member r1 k1 = Some p1) as Hmem1
      by (unfold RPS.member; by rewrite H1).
    assert (RPS.member r1 k2 = Some p2) as Hmem2
      by (unfold RPS.member; by rewrite H2).
    rewrite Hout. cbn [fst snd]. split_and!.
    + by exists k1, k2.
    + done.
    + intros k p Hmem. rewrite !elem_of_app.
      destruct (RPS_broadcast_reaches fails verdict o3 r1 k p Hv3 Hmem)
        as [[_ ?]|(_ & ? & _)]; auto.
    + done.
    + intros k p. unfold RPS.member. cbn.
      destruct (RPS.players r !! k) as [l|] eqn:Hk; [|done]. cbn.
      destruct (Hall k) as [->| ->]; [by eexists|..]; simplify_eq.
      * destruct (decide (l2 = l1)) as [->|Hl].
        -- rewrite lookup_alter_eq. by intros (q & _ & ->)%fmap_Some.
        -- rewrite lookup_alter_ne, lookup_alter_eq by done.
           by intros (q & _ & ->)%fmap_Some.
      * rewrite lookup_alter_eq. by intros (q & _ & ->)%fmap_Some.
    + intros Hval1 Hval2. pose proof (RPS_decide_spec p1 p2) as (Htie & Hw1 & Hw2 & _).
      destruct Hval1 as [E1|[E1|E1]], Hval2 as [E2|[E2|E2]];
        first [ left; split; [congruence|apply Htie; congruence]
              | right; left; split; [rewrite E1, E2; constructor|];
                apply Hw1; rewrite E1, E2; constructor
              | right; right; split; [rewrite E1, E2; constructor|];
                apply Hw2; rewrite E1, E2; constructor ].
Qed.

(** Player1 has played rock; Player2 sends scissors. *)
Lemma rps_resolution_witness :
  let r := RPS.mkRoom "r1" (<["Player1" := 0]> (<["Player2" := 1]> ∅))
             (<[0 := RPS.mkPlayer "Player1" 1 "rock"]>
                (<[1 := RPS.mkPlayer "Player2" 2 EmptyString]> ∅)) in
  let out := RPS.recv (λ _, false) "Player2" 1 "scissors"
               ["Player1"; "Player2"] ["Player1"; "Player2"]
               ["Player2"; "Player1"] r in
  (RPS.Sent 1 "结果：玩家 Player1 赢了！" ∈ out.2
   ∨ RPS.SendFailed 1 "结果：玩家 Player1 赢了！" ∈ out.2)
  ∧ (∀ k p, RPS.member out.1 k = Some p → RPS.move p = EmptyString).
Proof.
  intros r out.
  assert (RPS.wf r) as Hwf.
  { change (map_Forall (λ _ l, is_Some (RPS.heap r !! l)) (RPS.players r)).
    apply (bool_decide_unpack _). vm_compute. exact I. }
  assert (visits (RPS.players r) ["Player1"; "Player2"]) as Hv2
    by visits_by_computation.
  assert (visits (RPS.players r) ["Player2"; "Player1"]) as Hv3
    by visits_by_computation.
  destruct (rps_resolution (λ _, false) "Player2" 1 "scissors"
              ["Player1"; "Player2"] _ _ r Hwf Hv2 Hv3) as (_ & _ & Hfire).
  destruct (Hfire 0 (RPS.mkPlayer "Player1" 1 "rock")
                  1 (RPS.mkPlayer "Player2" 2 "scissors"))
    as (_ & _ & Hsent & _ & Hclear & _); [vm_compute; reflexivity|].
  split; [|exact Hclear].
  apply (Hsent "Player1" (RPS.mkPlayer "Player1" 1 "rock")).
  vm_compute. reflexivity.
Defined.

Lemma RPS_beats_Beats a b : RPS.beats a b = true ↔ RPS.Beats a b.
Proof.
  unfold RPS.beats. split.
  - destruct (String.eqb_spec a "rock"), (String.eqb_spec b "scissors"),
             (String.eqb_spec a "scissors"), (String.eqb_spec b "paper"),
             (String.eqb_spec a "paper"), (String.eqb_spec b "rock");
      simpl; try done; intros _; subst; try done; constructor.
  - by inversion 1.
Qed.

(** C10. The session records whatever text it reads as the move, without
    looking at it, and the guard of the resolution only asks for two
    non-empty moves. [decide] names the second player the winner whenever
    the moves differ and the pair (first, second) is not one of the three
    winning pairs; so a resolution between two different moves of which
    the first is not rock, paper or scissors announces the second player as
    the winner. *)
Theorem rps_unvalidated_moves :
  (∀ fails PlayerID player msg o1 o2 o3 r p,
     RPS.heap r !! player = Some p →
     let r1 := RPS.setHeap (alter (RPS.setMove msg) player (RPS.heap r)) r in
     RPS.heap r1 !! player = Some (RPS.mkPlayer (RPS.id p) (RPS.conn p) msg)
     ∧ RPS.recv fails PlayerID player msg o1 o2 o3 r
       = match RPS.contestants o2 r1 with
         | Some (l1, p1, (l2, p2)) =>
             (RPS.setHeap (alter (RPS.setMove EmptyString) l2
                             (alter (RPS.setMove EmptyString) l1 (RPS.heap r1))) r1,
              RPS.broadcast fails ("玩家" +:+ PlayerID +:+ " 出了 " +:+ msg) o1 r1
                ++ RPS.broadcast fails ("结果：" +:+ RPS.decide p1 p2) o3 r1)
         | None =>
             (r1, RPS.broadcast fails ("玩家" +:+ PlayerID +:+ " 出了 " +:+ msg) o1 r1)
         end)
  ∧ (∀ p1 p2,
       RPS.move p1 ≠ RPS.move p2 →
       RPS.beats (RPS.move p1) (RPS.move p2) = false →
       RPS.decide p1 p2 = "玩家 " +:+ RPS.id p2 +:+ " 赢了！")
  ∧ (∀ a b, RPS.beats a b = true ↔ RPS.Beats a b)
  ∧ (∀ p1 p2,
       RPS.move p1 ≠ RPS.move p2 →
       ¬ RPS.Valid (RPS.move p1) →
       RPS.decide p1 p2 = "玩家 " +:+ RPS.id p2 +:+ " 赢了！")
  ∧ (∀ order r k1 k2 l1 l2 p1 p2,
       order = [k1; k2] → visits (RPS.players r) order →
       RPS.players r !! k1 = Some l1 → RPS.players r !! k2 = Some l2 →
       RPS.heap r !! l1 = Some p1 → RPS.heap r !! l2 = Some p2 →
       RPS.move p1 ≠ EmptyString → RPS.move p2 ≠ EmptyString →
       RPS.contestants order r = Some (l1, p1, (l2, p2))).
Proof.
  split_and!.
  - intros fails PlayerID player msg o1 o2 o3 r p Hp r1. split.
    + cbn. rewrite lookup_alter_eq, Hp. done.
    + unfold RPS.recv. fold r1.
      by destruct (RPS.contestants o2 r1) as [[[l1 p1] [l2 p2]]|].
  - intros p1 p2 Hne Hnb. apply RPS_decide_spec; [done|].
    by rewrite <- RPS_beats_Beats, Hnb.
  - apply RPS_beats_Beats.
  - intros p1 p2 Hne Hinv. apply RPS_decide_spec; [done|].
    intros Hb. apply Hinv. unfold RPS.Valid. inversion Hb; auto.
  - intros order r k1 k2 l1 l2 p1 p2 -> Hv H1 H2 Hp1 Hp2 Hm1 Hm2.
    unfold RPS.contestants.
    rewrite <- (visits_length _ _ Hv). cbn [length Nat.eqb].
    rewrite (RPS_pick_two r k1 k2 l1 l2), Hp1, Hp2 by done.
    by rewrite (proj2 (RPS_isSet _) Hm1), (proj2 (RPS_isSet _) Hm2).
Qed.

(** Player1 has played lizard; Player2 sends spock and is declared the
    winner. *)
Lemma rps_unvalidated_moves_witness :
  let r := RPS.mkRoom "r1" (<["Player1" := 0]> (<["Player2" := 1]> ∅))
             (<[0 := RPS.mkPlayer "Player1" 1 "lizard"]>
                (<[1 := RPS.mkPlayer "Player2" 2 EmptyString]> ∅)) in
  RPS.decide (RPS.mkPlayer "Player1" 1 "lizard") (RPS.mkPlayer "Player2" 2 "spock")
  = "玩家 Player2 赢了！"
  ∧ (RPS.recv (λ _, false) "Player2" 1 "spock"
       ["Player1"; "Player2"] ["Player1"; "Player2"] ["Player1"; "Player2"] r).2
    = [RPS.Sent 1 "玩家Player2 出了 spock"; RPS.Sent 2 "玩家Player2 出了 spock";
       RPS.Sent 1 "结果：玩家 Player2 赢了！"; RPS.Sent 2 "结果：玩家 Player2 赢了！"].
Proof.
  intros r.
  destruct rps_unvalidated_moves as (Hrecv & _ & _ & Hinvalid & _).
  split.
  - apply (Hinvalid (RPS.mkPlayer "Player1" 1 "lizard")
                    (RPS.mkPlayer "Player2" 2 "spock")).
    + simpl. discriminate.
    + simpl. intros [H|[H|H]]; discriminate H.
  - destruct (Hrecv (λ _, false) "Player2" 1 "spock"
                ["Player1"; "Player2"] ["Player1"; "Player2"]
                ["Player1"; "Player2"] r (RPS.mkPlayer "Player2" 2 EmptyString))
      as [_ ->]; [vm_compute; reflexivity|].
    vm_compute. reflexivity.
Defined.

(** ** Chat: the broadcast loop *)

Lemma ChatRoom_start_step_other (fails : Conn → bool) msg (st : ChatRoom.ChatRoom * list ChatRoom.Event) c c' :
  c' ≠ c →
  ChatRoom.clients ((match ChatRoom.clients st.1 !! c with
     | None => st
     | Some _ =>
         if fails c then
           (ChatRoom.mkChatRoom (delete c (ChatRoom.clients st.1)),
            st.2 ++ [ChatRoom.SendFailed c msg; ChatRoom.Println "Write error:";
                     ChatRoom.Close c])
         else (st.1, st.2 ++ [ChatRoom.Sent c msg])
     end)).1 !! c' = ChatRoom.clients st.1 !! c'.
Proof.
  intros Hne. cbv beta.
  destruct (ChatRoom.clients st.1 !! c); [|done].
  destruct (fails c); [|done]. cbn. by rewrite lookup_delete_ne.
Qed.

Lemma ChatRoom_start_fold (fails : Conn → bool) msg order (st : ChatRoom.ChatRoom * list ChatRoom.Event) :
  NoDup order →
  let st' := foldl (λ st c, (match ChatRoom.clients st.1 !! c with
     | None => st
     | Some _ =>
         if fails c then
           (ChatRoom.mkChatRoom (delete c (ChatRoom.clients st.1)),
            st.2 ++ [ChatRoom.SendFailed c msg; ChatRoom.Println "Write error:";
                     ChatRoom.Close c])
         else (st.1, st.2 ++ [ChatRoom.Sent c msg])
     end)) st order in
  (∀ c, c ∉ order → ChatRoom.clients st'.1 !! c = ChatRoom.clients st.1 !! c)
  ∧ (∀ c, c ∈ order →
          ChatRoom.clients st'.1 !! c
          = if fails c then None else ChatRoom.clients st.1 !! c)
  ∧ (∀ e, e ∈ st.2 → e ∈ st'.2)
  ∧ (∀ c, c ∈ order → is_Some (ChatRoom.clients st.1 !! c) →
          if fails c
          then ChatRoom.SendFailed c msg ∈ st'.2 ∧ ChatRoom.Println "Write error:" ∈ st'.2
               ∧ ChatRoom.Close c ∈ st'.2
          else ChatRoom.Sent c msg ∈ st'.2)
  ∧ (∀ e, e ∈ st'.2 →
          e ∈ st.2
          ∨ ∃ c, c ∈ order ∧ is_Some (ChatRoom.clients st.1 !! c)
                 ∧ if fails c
                   then e ∈ [ChatRoom.SendFailed c msg; ChatRoom.Println "Write error:"; ChatRoom.Close c]
                   else e = ChatRoom.Sent c msg).
Proof.
  intros Hnd. revert st.
  induction Hnd as [|c order Hc Hnd IH]; intros st; cbn [foldl].
  { split_and!; try done.
    - intros c Hc. by apply elem_of_nil in Hc.
    - intros c Hc. by apply elem_of_nil in Hc.
    - auto. }
  specialize (IH ((match ChatRoom.clients st.1 !! c with
     | None => st
     | Some _ =>
         if fails c then
           (ChatRoom.mkChatRoom (delete c (ChatRoom.clients st.1)),
            st.2 ++ [ChatRoom.SendFailed c msg; ChatRoom.Println "Write error:";
                     ChatRoom.Close c])
         else (st.1, st.2 ++ [ChatRoom.Sent c msg])
     end))).
  cbv zeta in IH. destruct IH as (Hout & Hin & Hkeep & Hsend & Honly).
  set (st1 := (match ChatRoom.clients st.1 !! c with
     | None => st
     | Some _ =>
         if fails c then
           (ChatRoom.mkChatRoom (delete c (ChatRoom.clients st.1)),
            st.2 ++ [ChatRoom.SendFailed c msg; ChatRoom.Println "Write error:";
                     ChatRoom.Close c])
         else (st.1, st.2 ++ [ChatRoom.Sent c msg])
     end)) in *.
  set (st' := foldl _ st1 order) in *.
  assert (∀ c', c' ≠ c → ChatRoom.clients st1.1 !! c' = ChatRoom.clients st.1 !! c')
    as Hother by (intros; by apply ChatRoom_start_step_other).
  assert (ChatRoom.clients st1.1 !! c
          = if fails c then None else ChatRoom.clients st.1 !! c) as Hself.
  { unfold st1. destruct (ChatRoom.clients st.1 !! c) eqn:E.
    - destruct (fails c); [cbn; apply lookup_delete_eq|done].
    - by destruct (fails c). }
  assert (∀ e, e ∈ st.2 → e ∈ st1.2) as Hkeep1.
  { intros e He. unfold st1. destruct (ChatRoom.clients st.1 !! c); [|done].
    destruct (fails c); cbn; apply elem_of_app; by left. }
  assert (is_Some (ChatRoom.clients st.1 !! c) →
          if fails c
          then ChatRoom.SendFailed c msg ∈ st1.2 ∧ ChatRoom.Println "Write error:" ∈ st1.2
               ∧ ChatRoom.Close c ∈ st1.2
          else ChatRoom.Sent c msg ∈ st1.2) as Hsend1.
  { intros [b Hb]. unfold st1. rewrite Hb.
    destruct (fails c); cbn; rewrite ?elem_of_app, ?elem_of_cons; auto 10. }
  assert (∀ e, e ∈ st1.2 →
            e ∈ st.2
            ∨ (is_Some (ChatRoom.clients st.1 !! c)
               ∧ if fails c
                 then e ∈ [ChatRoom.SendFailed c msg; ChatRoom.Println "Write error:"; ChatRoom.Close c]
                 else e = ChatRoom.Sent c msg)) as Honly1.
  { intros e. unfold st1. destruct (ChatRoom.clients st.1 !! c) eqn:E; [|auto].
    destruct (fails c); cbn; rewrite elem_of_app.
    - intros [?|?]; [by left|right]. by split.
    - intros [?|?%list_elem_of_singleton]; [by left|right]. by split. }
  split_and!.
  - intros c' Hc'. apply not_elem_of_cons in Hc' as [Hne Hc'].
    by rewrite Hout, Hother.
  - intros c' [->|Hc']%elem_of_cons.
    + by rewrite Hout.
    + rewrite Hin by done. rewrite Hother; [done|]. by intros ->.
  - auto.
  - intros c' [->|Hc']%elem_of_cons Hmem.
    + specialize (Hsend1 Hmem). destruct (fails c); [|auto].
      destruct Hsend1 as (? & ? & ?). auto.
    + apply Hsend; [done|]. rewrite Hother; [done|]. by intros ->.
  - intros e He. apply Honly in He as [He|(c' & Hc' & Hmem & He)].
    + apply Honly1 in He as [He|[Hmem He]]; [by left|right].
      exists c. split_and!; [by left|done..].
    + right. exists c'. split_and!; [by right| |done].
      rewrite <- Hother; [done|]. by intros ->.
Qed.

Lemma ChatRoom_start_spec fails msg order room :
  visits (ChatRoom.clients room) order →
  let out := ChatRoom.start fails msg order room in
  (∀ c, is_Some (ChatRoom.clients room !! c) → fails c = false →
        ChatRoom.Sent c msg ∈ out.2
        ∧ ChatRoom.clients out.1 !! c = ChatRoom.clients room !! c)
  ∧ (∀ c, is_Some (ChatRoom.clients room !! c) → fails c = true →
          ChatRoom.SendFailed c msg ∈ out.2 ∧ ChatRoom.Println "Write error:" ∈ out.2
          ∧ ChatRoom.Close c ∈ out.2 ∧ ChatRoom.clients out.1 !! c = None)
  ∧ (∀ c m, ChatRoom.Sent c m ∈ out.2 →
            m = msg ∧ is_Some (ChatRoom.clients room !! c) ∧ fails c = false).
Proof.
  intros [Hnd Hiff] out.
  destruct (ChatRoom_start_fold fails msg order (room, []) Hnd)
    as (_ & Hin & _ & Hsend & Honly).
  fold (ChatRoom.start fails msg order room) in Hin, Hsend, Honly.
  fold out in Hin, Hsend, Honly. cbn [fst snd] in *.
  split_and!.
  - intros c Hmem Hok. pose proof (proj2 (Hiff c) Hmem) as Hc.
    specialize (Hsend c Hc Hmem). specialize (Hin c Hc).
    rewrite Hok in Hsend, Hin. done.
  - intros c Hmem Hko. pose proof (proj2 (Hiff c) Hmem) as Hc.
    specialize (Hsend c Hc Hmem). specialize (Hin c Hc).
    rewrite Hko in Hsend, Hin. by destruct Hsend as (? & ? & ?).
  - intros c m He. apply Honly in He as [He|(c' & Hc' & Hmem & He)].
    + by apply elem_of_nil in He.
    + destruct (fails c') eqn:Hf.
      * exfalso. rewrite !elem_of_cons, elem_of_nil in He.
        destruct He as [He|[He|[He|He]]]; done.
      * by simplify_eq.
Qed.

Lemma Chat_start_step_other (fails : Conn → bool) msg (st : Chat.Room * list Chat.Event) c c' :
  c' ≠ c →
  Chat.clients ((match Chat.clients st.1 !! c with
     | None => st
     | Some _ =>
         if fails c then
           (Chat.setClients (delete c (Chat.clients st.1)) st.1,
            st.2 ++ [Chat.SendFailed c msg; Chat.Println "WriteMessage error:";
                     Chat.Close c])
         else (st.1, st.2 ++ [Chat.Sent c msg])
     end)).1 !! c' = Chat.clients st.1 !! c'.
Proof.
  intros Hne. cbv beta.
  destruct (Chat.clients st.1 !! c); [|done].
  destruct (fails c); [|done]. cbn. by rewrite lookup_delete_ne.
Qed.

Lemma Chat_start_fold (fails : Conn → bool) msg order (st : Chat.Room * list Chat.Event) :
  NoDup order →
  let st' := foldl (λ st c, (match Chat.clients st.1 !! c with
     | None => st
     | Some _ =>
         if fails c then
           (Chat.setClients (delete c (Chat.clients st.1)) st.1,
            st.2 ++ [Chat.SendFailed c msg; Chat.Println "WriteMessage error:";
                     Chat.Close c])
         else (st.1, st.2 ++ [Chat.Sent c msg])
     end)) st order in
  (∀ c, c ∉ order → Chat.clients st'.1 !! c = Chat.clients st.1 !! c)
  ∧ (∀ c, c ∈ order →
          Chat.clients st'.1 !! c
          = if fails c then None else Chat.clients st.1 !! c)
  ∧ (∀ e, e ∈ st.2 → e ∈ st'.2)
  ∧ (∀ c, c ∈ order → is_Some (Chat.clients st.1 !! c) →
          if fails c
          then Chat.SendFailed c msg ∈ st'.2 ∧ Chat.Println "WriteMessage error:" ∈ st'.2
               ∧ Chat.Close c ∈ st'.2
          else Chat.Sent c msg ∈ st'.2)
  ∧ (∀ e, e ∈ st'.2 →
          e ∈ st.2
          ∨ ∃ c, c ∈ order ∧ is_Some (Chat.clients st.1 !! c)
                 ∧ if fails c
                   then e ∈ [Chat.SendFailed c msg; Chat.Println "WriteMessage error:"; Chat.Close c]
                   else e = Chat.Sent c msg).
Proof.
  intros Hnd. revert st.
  induction Hnd as [|c order Hc Hnd IH]; intros st; cbn [foldl].
  { split_and!; try done.
    - intros c Hc. by apply elem_of_nil in Hc.
    - intros c Hc. by apply elem_of_nil in Hc.
    - auto. }
  specialize (IH ((match Chat.clients st.1 !! c with
     | None => st
     | Some _ =>
         if fails c then
           (Chat.setClients (delete c (Chat.clients st.1)) st.1,
            st.2 ++ [Chat.SendFailed c msg; Chat.Println "WriteMessage error:";
                     Chat.Close c])
         else (st.1, st.2 ++ [Chat.Sent c msg])
     end))).
  cbv zeta in IH. destruct IH as (Hout & Hin & Hkeep & Hsend & Honly).
  set (st1 := (match Chat.clients st.1 !! c with
     | None => st
     | Some _ =>
         if fails c then
           (Chat.setClients (delete c (Chat.clients st.1)) st.1,
            st.2 ++ [Chat.SendFailed c msg; Chat.Println "WriteMessage error:";
                     Chat.Close c])
         else (st.1, st.2 ++ [Chat.Sent c msg])
     end)) in *.
  set (st' := foldl _ st1 order) in *.
  assert (∀ c', c' ≠ c → Chat.clients st1.1 !! c' = Chat.clients st.1 !! c')
    as Hother by (intros; by apply Chat_start_step_other).
  assert (Chat.clients st1.1 !! c
          = if fails c then None else Chat.clients st.1 !! c) as Hself.
  { unfold st1. destruct (Chat.clients st.1 !! c) eqn:E.
    - destruct (fails c); [cbn; apply lookup_delete_eq|done].
    - by destruct (fails c). }
  assert (∀ e, e ∈ st.2 → e ∈ st1.2) as Hkeep1.
  { intros e He. unfold st1. destruct (Chat.clients st.1 !! c); [|done].
    destruct (fails c); cbn; apply elem_of_app; by left. }
  assert (is_Some (Chat.clients st.1 !! c) →
          if fails c
          then Chat.SendFailed c msg ∈ st1.2 ∧ Chat.Println "WriteMessage error:" ∈ st1.2
               ∧ Chat.Close c ∈ st1.2
          else Chat.Sent c msg ∈ st1.2) as Hsend1.
  { intros [b Hb]. unfold st1. rewrite Hb.
    destruct (fails c); cbn; rewrite ?elem_of_app, ?elem_of_cons; auto 10. }
  assert (∀ e, e ∈ st1.2 →
            e ∈ st.2
            ∨ (is_Some (Chat.clients st.1 !! c)
               ∧ if fails c
                 then e ∈ [Chat.SendFailed c msg; Chat.Println "WriteMessage error:"; Chat.Close c]
                 else e = Chat.Sent c msg)) as Honly1.
  { intros e. unfold st1. destruct (Chat.clients st.1 !! c) eqn:E; [|auto].
    destruct (fails c); cbn; rewrite elem_of_app.
    - intros [?|?]; [by left|right]. by split.
    - intros [?|?%list_elem_of_singleton]; [by left|right]. by split. }
  split_and!.
  - intros c' Hc'. apply not_elem_of_cons in Hc' as [Hne Hc'].
    by rewrite Hout, Hother.
  - intros c' [->|Hc']%elem_of_cons.
    + by rewrite Hout.
    + rewrite Hin by done. rewrite Hother; [done|]. by intros ->.
  - auto.
  - intros c' [->|Hc']%elem_of_cons Hmem.
    + specialize (Hsend1 Hmem). destruct (fails c); [|auto].
      destruct Hsend1 as (? & ? & ?). auto.
    + apply Hsend; [done|]. rewrite Hother; [done|]. by intros ->.
  - intros e He. apply Honly in He as [He|(c' & Hc' & Hmem & He)].
    + apply Honly1 in He as [He|[Hmem He]]; [by left|right].
      exists c. split_and!; [by left|done..].
    + right. exists c'. split_and!; [by right| |done].
      rewrite <- Hother; [done|]. by intros ->.
Qed.

Lemma Chat_start_spec fails msg order room :
  visits (Chat.clients room) order →
  let out := Chat.start fails msg order room in
  (∀ c, is_Some (Chat.clients room !! c) → fails c = false →
        Chat.Sent c msg ∈ out.2
        ∧ Chat.clients out.1 !! c = Chat.clients room !! c)
  ∧ (∀ c, is_Some (Chat.clients room !! c) → fails c = true →
          Chat.SendFailed c msg ∈ out.2 ∧ Chat.Println "WriteMessage error:" ∈ out.2
          ∧ Chat.Close c ∈ out.2 ∧ Chat.clients out.1 !! c = None)
  ∧ (∀ c m, Chat.Sent c m ∈ out.2 →
            m = msg ∧ is_Some (Chat.clients room !! c) ∧ fails c = false).
Proof.
  intros [Hnd Hiff] out.
  destruct (Chat_start_fold fails msg order (room, []) Hnd)
    as (_ & Hin & _ & Hsend & Honly).
  fold (Chat.start fails msg order room) in Hin, Hsend, Honly.
  fold out in Hin, Hsend, Honly. cbn [fst snd] in *.
  split_and!.
  - intros c Hmem Hok. pose proof (proj2 (Hiff c) Hmem) as Hc.
    specialize (Hsend c Hc Hmem). specialize (Hin c Hc).
    rewrite Hok in Hsend, Hin. done.
  - intros c Hmem Hko. pose proof (proj2 (Hiff c) Hmem) as Hc.
    specialize (Hsend c Hc Hmem). specialize (Hin c Hc).
    rewrite Hko in Hsend, Hin. by destruct Hsend as (? & ? & ?).
  - intros c m He. apply Honly in He as [He|(c' & Hc' & Hmem & He)].
    + by apply elem_of_nil in He.
    + destruct (fails c') eqn:Hf.
      * exfalso. rewrite !elem_of_cons, elem_of_nil in He.
        destruct He as [He|[He|[He|He]]]; done.
      * by simplify_eq.
Qed.

(** ** Broadcast under send failures *)

Lemma Snake_broadcast_reaches m order r k s c :
  visits (Snake.players r) order →
  Snake.players r !! k = Some s → Snake.conn s = Some c →
  Snake.Write c m ∈ Snake.broadcast m order r.
Proof.
  intros [_ Hiff] Hk Hc. unfold Snake.broadcast.
  apply list_elem_of_omap. exists k. split; [apply Hiff; by eexists|].
  rewrite Hk. cbn. by rewrite Hc.
Qed.

Lemma Snake_broadcast_only m order r e :
  e ∈ Snake.broadcast m order r → ∃ c, e = Snake.Write c m.
Proof.
  unfold Snake.broadcast. intros (k & _ & Hk)%list_elem_of_omap.
  destruct (Snake.players r !! k) as [s|]; [|done]. cbn in Hk.
  destruct (Snake.conn s) as [c|]; [|done]. cbn in Hk. simplify_eq. eauto.
Qed.

(** C6, as the code has it. In every program a failed write to one member
    does not stop the loop: each member whose write does not fail is sent
    the message. What is done about the failing member differs. The loop
    of the chat programs prints a line, closes the connection and removes
    the member at once. The broadcast of rock-paper-scissors prints a line
    and leaves the membership as it is, and so does the whole turn of the
    session around it. The broadcasts of the guessing game and of snake
    drop the error of the write: they issue the writes and nothing else. *)
Theorem broadcast_tolerates_failures :
  (∀ fails msg order room,
     visits (ChatRoom.clients room) order →
     let out := ChatRoom.start fails msg order room in
     (∀ c, is_Some (ChatRoom.clients room !! c) → fails c = false →
           ChatRoom.Sent c msg ∈ out.2
           ∧ ChatRoom.clients out.1 !! c = ChatRoom.clients room !! c)
     ∧ (∀ c, is_Some (ChatRoom.clients room !! c) → fails c = true →
             ChatRoom.SendFailed c msg ∈ out.2
             ∧ ChatRoom.Println "Write error:" ∈ out.2
             ∧ ChatRoom.Close c ∈ out.2
             ∧ ChatRoom.clients out.1 !! c = None))
  ∧ (∀ fails msg order r,
       visits (Chat.clients r) order →
       let out := Chat.start fails msg order r in
       (∀ c, is_Some (Chat.clients r !! c) → fails c = false →
             Chat.Sent c msg ∈ out.2
             ∧ Chat.clients out.1 !! c = Chat.clients r !! c)
       ∧ (∀ c, is_Some (Chat.clients r !! c) → fails c = true →
               Chat.SendFailed c msg ∈ out.2
               ∧ Chat.Println "WriteMessage error:" ∈ out.2
               ∧ Chat.Close c ∈ out.2
               ∧ Chat.clients out.1 !! c = None))
  ∧ (∀ fails msg order r k p,
       visits (RPS.players r) order →
       RPS.member r k = Some p →
       (fails (RPS.conn p) = false →
        RPS.Sent (RPS.conn p) msg ∈ RPS.broadcast fails msg order r)
       ∧ (fails (RPS.conn p) = true →
          RPS.SendFailed (RPS.conn p) msg ∈ RPS.broadcast fails msg order r
          ∧ RPS.Println "发送消息失败:" ∈ RPS.broadcast fails msg order r))
  ∧ (∀ fails PlayerID player msg o1 o2 o3 r,
       RPS.players (RPS.recv fails PlayerID player msg o1 o2 o3 r).1
       = RPS.players r)
  ∧ (∀ msg order r,
       (∀ e, e ∈ Guess.broadcast msg order r → ∃ c, e = Guess.Write c msg)
       ∧ (visits (Guess.players r) order →
          ∀ k p, Guess.players r !! k = Some p →
                 Guess.Write (Guess.conn p) msg ∈ Guess.broadcast msg order r))
  ∧ (∀ m order r,
       (∀ e, e ∈ Snake.broadcast m order r → ∃ c, e = Snake.Write c m)
       ∧ (visits (Snake.players r) order →
          ∀ k s c, Snake.players r !! k = Some s → Snake.conn s = Some c →
                   Snake.Write c m ∈ Snake.broadcast m order r)).
Proof.
  split_and!.
  - intros fails msg order room Hv out.
    destruct (ChatRoom_start_spec fails msg order room Hv) as (Hok & Hko & _).
    by split.
  - intros fails msg order r Hv out.
    destruct (Chat_start_spec fails msg order r Hv) as (Hok & Hko & _).
    by split.
  - intros fails msg order r k p Hv Hmem.
    destruct (RPS_broadcast_reaches fails msg order r k p Hv Hmem)
      as [[Hf ?]|(Hf & ? & ?)]; rewrite Hf; by split.
  - intros fails PlayerID player msg o1 o2 o3 r. unfold RPS.recv.
    by destruct (RPS.contestants _ _) as [[[l1 p1] [l2 p2]]|].
  - intros msg order r. split.
    + intros e (k & p & _ & _ & ->)%Guess_elem_of_broadcast. eauto.
    + intros [_ Hiff] k p Hk. apply Guess_elem_of_broadcast.
      exists k, p. split_and!; [|done..]. apply Hiff. by eexists.
  - intros m order r. split.
    + apply Snake_broadcast_only.
    + intros Hv k s c. by apply Snake_broadcast_reaches.
Qed.

(** C6 fails as stated. In rock-paper-scissors the write to Player1 fails
    when Player2 plays: the failure is printed, Player2 is served, and
    Player1 is still a member when the turn is over. *)
Lemma broadcast_failing_member_stays_counterexample :
  let r := RPS.mkRoom "r1" (<["Player1" := 0]> (<["Player2" := 1]> ∅))
             (<[0 := RPS.mkPlayer "Player1" 1 EmptyString]>
                (<[1 := RPS.mkPlayer "Player2" 2 EmptyString]> ∅)) in
  let fails := λ c : Conn, Nat.eqb c 1 in
  let out := RPS.recv fails "Player2" 1 "rock"
               ["Player1"; "Player2"] ["Player1"; "Player2"]
               ["Player1"; "Player2"] r in
  out.2 = [RPS.SendFailed 1 "玩家Player2 出了 rock"; RPS.Println "发送消息失败:";
           RPS.Sent 2 "玩家Player2 出了 rock"]
  ∧ RPS.players out.1 !! "Player1" = Some 0
  ∧ RPS.member out.1 "Player1" = Some (RPS.mkPlayer "Player1" 1 EmptyString).
Proof. vm_compute. by split_and!. Qed.

(** Three clients in the one chat room, the write to the second failing. *)
Lemma broadcast_tolerates_failures_witness :
  let room := ChatRoom.join 3 (ChatRoom.join 2 (ChatRoom.join 1 ChatRoom.NewChatRoom)) in
  let fails := λ c : Conn, Nat.eqb c 2 in
  let out := ChatRoom.start fails "hello" [3; 2; 1] room in
  ChatRoom.Sent 1 "hello" ∈ out.2
  ∧ ChatRoom.Sent 3 "hello" ∈ out.2
  ∧ ChatRoom.clients out.1 !! 2 = None.
Proof.
  intros room fails out.
  assert (visits (ChatRoom.clients room) [3; 2; 1]) as Hv
    by visits_by_computation.
  destruct (proj1 broadcast_tolerates_failures fails "hello" [3; 2; 1] room Hv)
    as [Hok Hko].
  split_and!.
  - apply (Hok 1); [by eexists|reflexivity].
  - apply (Hok 3); [by eexists|reflexivity].
  - apply (Hko 2); [by eexists|reflexivity].
Defined.

(** ** Chat: what is relayed *)

(** C8, as the code has it. In the chat program with many rooms the text
    read from a member is put on the room's channel as the room name in
    square brackets, a space and the text as it came, and the loop of the
    room sends exactly that to every member whose write does not fail, the
    sender among them. In the chat program with the single room, which has
    no name, the text itself is put on the channel and sent, unwrapped. *)
Theorem chat_relay :
  (∀ fails msg order r,
     visits (Chat.clients r) order →
     let payload := Chat.recv msg r in
     let out := Chat.start fails payload order r in
     payload = "[" +:+ Chat.name r +:+ "] " +:+ msg
     ∧ (∀ c, is_Some (Chat.clients r !! c) → fails c = false →
             Chat.Sent c payload ∈ out.2)
     ∧ (∀ c m, Chat.Sent c m ∈ out.2 →
               m = payload ∧ is_Some (Chat.clients r !! c)))
  ∧ (∀ fails msg order room,
       visits (ChatRoom.clients room) order →
       let payload := ChatRoom.recv msg in
       let out := ChatRoom.start fails payload order room in
       payload = msg
       ∧ (∀ c, is_Some (ChatRoom.clients room !! c) → fails c = false →
               ChatRoom.Sent c msg ∈ out.2)
       ∧ (∀ c m, ChatRoom.Sent c m ∈ out.2 →
                 m = msg ∧ is_Some (ChatRoom.clients room !! c))).
Proof.
  split.
  - intros fails msg order r Hv payload out.
    destruct (Chat_start_spec fails payload order r Hv) as (Hok & _ & Honly).
    split_and!; [done| |].
    + intros c Hmem Hf. by apply Hok.
    + intros c m Hin. apply Honly in Hin as (? & ? & _). done.
  - intros fails msg order room Hv payload out.
    destruct (ChatRoom_start_spec fails payload order room Hv)
      as (Hok & _ & Honly).
    split_and!; [done| |].
    + intros c Hmem Hf. by apply Hok.
    + intros c m Hin. apply Honly in Hin as (? & ? & _). done.
Qed.

(** C8 fails as stated. Two clients in the single chat room; the first
    sends hi: both are sent hi, and nothing of the form [room] hi. *)
Lemma chat_unwrapped_counterexample :
  let room := ChatRoom.join 2 (ChatRoom.join 1 ChatRoom.NewChatRoom) in
  let out := ChatRoom.start (λ _, false) (ChatRoom.recv "hi") [1; 2] room in
  out.2 = [ChatRoom.Sent 1 "hi"; ChatRoom.Sent 2 "hi"]
  ∧ ∀ name c, ChatRoom.Sent c ("[" +:+ name +:+ "] " +:+ "hi") ∉ out.2.
Proof.
  intros room out.
  assert (out.2 = [ChatRoom.Sent 1 "hi"; ChatRoom.Sent 2 "hi"]) as Hout
    by (vm_compute; reflexivity).
  split; [exact Hout|]. intros name c. rewrite Hout.
  rewrite !elem_of_cons, elem_of_nil. cbn.
  intros [H|[H|[]]]; discriminate H.
Qed.

(** Two clients in the room lobby of the chat program with many rooms. *)
Lemma chat_relay_witness :
  let r := Chat.join 2 (Chat.join 1 (Chat.NewRoom "lobby")) in
  let out := Chat.start (λ _, false) (Chat.recv "hi" r) [2; 1] r in
  Chat.Sent 1 "[lobby] hi" ∈ out.2 ∧ Chat.Sent 2 "[lobby] hi" ∈ out.2.
Proof.
  intros r out.
  assert (visits (Chat.clients r) [2; 1]) as Hv by visits_by_computation.
  destruct (proj1 chat_relay (λ _, false) "hi" [2; 1] r Hv)
    as (_ & Hall & _).
  split.
  - apply (Hall 1); [by eexists|reflexivity].
  - apply (Hall 2); [by eexists|reflexivity].
Defined.

(** * Further properties of the code *)

(** ** Membership of the guessing game *)







(** [handleConnections], the clean-up of a session. Removing the entry of
    a player leaves no entry under that id and keeps every other entry; a
    second clean-up for the same id, or one for an id that is not a
    member's, leaves the membership as it is; and the departure notice
    goes to every member that remains, stating how many remain. *)
Theorem Guess_leave_membership playerID c order r :
  visits (delete playerID (Guess.players r)) order →
  let out := Guess.leave playerID c order r in
  let notice := "玩家 " +:+ playerID +:+ " 离开了房间 " +:+ Guess.name r
                +:+ "，当前玩家数: " +:+ pretty (size (Guess.players out.1)) in
  Guess.players out.1 !! playerID = None
  ∧ (∀ k, k ≠ playerID → Guess.players out.1 !! k = Guess.players r !! k)
  ∧ (∀ c' order', Guess.players (Guess.leave playerID c' order' out.1).1
                  = Guess.players out.1)
  ∧ (Guess.players r !! playerID = None → Guess.players out.1 = Guess.players r)
  ∧ (is_Some (Guess.players r !! playerID) →
     S (size (Guess.players out.1)) = size (Guess.players r))
  ∧ (∀ k p, Guess.players out.1 !! k = Some p →
            Guess.Write (Guess.conn p) notice ∈ out.2)
  ∧ Guess.secret out.1 = Guess.secret r.
Proof.
  intros [_ Hiff] out notice. unfold out, Guess.leave. cbn.
  split_and!; try done.
  - apply lookup_delete_eq.
  - intros k Hk. by apply lookup_delete_ne.
  - intros _ _. apply delete_delete_eq.
  - apply delete_id.
  - intros [p Hp]. rewrite map_size_delete, Hp.
    pose proof (map_size_ne_0_lookup_2 (Guess.players r) playerID
                  (mk_is_Some _ _ Hp)) as Hpos.
    cbn. lia.
  - intros k p Hk. right. apply Guess_elem_of_broadcast.
    exists k, p. split_and!; [|done..]. apply Hiff. by eexists.
Qed.

(** P1 and P2 are in the room; P1 leaves and P2 is told. *)
Lemma Guess_leave_membership_witness :
  let r := Guess.mkRoom "r1" (<["P1" := Guess.mkPlayer "P1" 1]>
                               (<["P2" := Guess.mkPlayer "P2" 2]> ∅)) 42 in
  Guess.Write 2 "玩家 P1 离开了房间 r1，当前玩家数: 1"
    ∈ (Guess.leave "P1" 1 ["P2"] r).2.
Proof.
  intros r.
  assert (visits (delete "P1" (Guess.players r)) ["P2"]) as Hv
    by visits_by_computation.
  destruct (Guess_leave_membership "P1" 1 ["P2"] r Hv)
    as (_ & _ & _ & _ & _ & Hnotice & _).
  apply (Hnotice "P2" (Guess.mkPlayer "P2" 2)). vm_compute. reflexivity.
Defined.

(** ** Snake: what a tick keeps *)

(** The ways a step of the loop can end, each with its guard. *)
Lemma updateSnake_guarded r g ev k :
  ((Snake.players r !! k = None
    ∨ ∃ s, Snake.players r !! k = Some s
           ∧ (Snake.Alive s = false ∨ Snake.Body s = []))
   ∧ Snake.updateSnake (r, g, ev) k = (r, g, ev))
  ∨ (∃ s head tl,
       Snake.players r !! k = Some s ∧ Snake.Alive s = true
       ∧ Snake.Body s = head :: tl
       ∧ (Snake.outside (Snake.nextHead (Snake.Dir s) head) r = true
          ∨ Snake.hits (Snake.nextHead (Snake.Dir s) head) (Snake.Body s) = true
          ∨ Snake.otherHit s (Snake.nextHead (Snake.Dir s) head) r = true)
       ∧ Snake.updateSnake (r, g, ev) k
         = (Snake.setPlayers (<[k := Snake.setAlive false s]> (Snake.players r)) r,
            g, ev ++ Snake.saveScore (Snake.ID s) (Snake.Score s) r))
  ∨ (∃ s head tl,
       Snake.players r !! k = Some s ∧ Snake.Alive s = true
       ∧ Snake.Body s = head :: tl
       ∧ Snake.outside (Snake.nextHead (Snake.Dir s) head) r = false
       ∧ Snake.hits (Snake.nextHead (Snake.Dir s) head) (Snake.Body s) = false
       ∧ Snake.otherHit s (Snake.nextHead (Snake.Dir s) head) r = false
       ∧ Snake.nextHead (Snake.Dir s) head ≠ Snake.food r
       ∧ Snake.updateSnake (r, g, ev) k
         = (Snake.setPlayers
              (<[k := Snake.setBody
                        (Snake.nextHead (Snake.Dir s) head
                           :: removelast (head :: tl)) s]>
                 (Snake.players r)) r, g, ev))
  ∨ (∃ s head tl,
       Snake.players r !! k = Some s ∧ Snake.Alive s = true
       ∧ Snake.Body s = head :: tl
       ∧ Snake.outside (Snake.nextHead (Snake.Dir s) head) r = false
       ∧ Snake.hits (Snake.nextHead (Snake.Dir s) head) (Snake.Body s) = false
       ∧ Snake.otherHit s (Snake.nextHead (Snake.Dir s) head) r = false
       ∧ Snake.nextHead (Snake.Dir s) head = Snake.food r
       ∧ let newBody := Snake.nextHead (Snake.Dir s) head
                          :: removelast (head :: tl) in
         let s2 := Snake.setBody
                     (newBody ++ [List.last newBody
                                    (Snake.nextHead (Snake.Dir s) head)])
                     (Snake.setScore (wrap (Snake.Score s + 1))
                        (Snake.setBody newBody s)) in
         let r2 := Snake.setPlayers (<[k := s2]> (Snake.players r)) r in
         Snake.updateSnake (r, g, ev) k
         = (Snake.setFood (Snake.randomEmptyCell r2 g).1 r2,
            (Snake.randomEmptyCell r2 g).2, ev)).
Proof.
  destruct (Snake.players r !! k) as [s|] eqn:Hk.
  2:{ left. split; [by left|]. unfold Snake.updateSnake. by rewrite Hk. }
  destruct (Snake.Alive s) eqn:Halive.
  2:{ left. split; [right; eauto|]. unfold Snake.updateSnake.
      by rewrite Hk, Halive. }
  destruct (Snake.Body s) as [|head tl] eqn:Hbody.
  { left. split; [right; eauto|]. unfold Snake.updateSnake.
    by rewrite Hk, Halive, Hbody. }
  destruct (Snake.outside (Snake.nextHead (Snake.Dir s) head) r) eqn:Hout.
  { right; left. exists s, head, tl.
    split_and!; [done|done|done|by left|].
    unfold Snake.updateSnake, Snake.die.
    by rewrite Hk, Halive, Hbody, Hout. }
  destruct (Snake.hits (Snake.nextHead (Snake.Dir s) head) (head :: tl)) eqn:Hself.
  { right; left. exists s, head, tl.
    split_and!; [done|done|done|right; left; by rewrite Hbody|].
    unfold Snake.updateSnake, Snake.die.
    by rewrite Hk, Halive, Hbody, Hout, Hself. }
  destruct (Snake.otherHit s (Snake.nextHead (Snake.Dir s) head) r) eqn:Hother.
  { right; left. exists s, head, tl.
    split_and!; [done|done|done|right; by right|].
    unfold Snake.updateSnake, Snake.die.
    by rewrite Hk, Halive, Hbody, Hout, Hself, Hother. }
  destruct (decide (Snake.nextHead (Snake.Dir s) head = Snake.food r)) as [Hfood|Hfood].
  - do 3 right. exists s, head, tl.
    split_and!; try done; try (by rewrite Hbody).
    apply (updateSnake_eat r g ev k s head tl); try done. by rewrite Hbody.
  - right; right; left. exists s, head, tl.
    split_and!; try done; try (by rewrite Hbody).
    unfold Snake.updateSnake.
    rewrite Hk, Halive, Hbody, Hout, Hself, Hother. cbn [negb].
    by rewrite bool_decide_eq_false_2.
Qed.

Lemma updateSnake_none st j k :
  Snake.players st.1.1 !! k = None →
  Snake.players (Snake.updateSnake st j).1.1 !! k = None.
Proof.
  intros Hk. destruct (decide (k = j)) as [->|Hne].
  - destruct st as [[r g] ev]. unfold Snake.updateSnake. cbn in Hk.
    by rewrite Hk.
  - by rewrite updateSnake_other.
Qed.

(** What a step keeps of an entry, its own or another's. *)
Lemma updateSnake_entry st j k s :
  Snake.players st.1.1 !! k = Some s →
  ∃ s', Snake.players (Snake.updateSnake st j).1.1 !! k = Some s'
        ∧ Snake.ID s' = Snake.ID s ∧ Snake.Dir s' = Snake.Dir s
        ∧ Snake.conn s' = Snake.conn s
        ∧ (Snake.Alive s' = true → Snake.Alive s = true)
        ∧ (length (Snake.Body s) ≤ length (Snake.Body s'))%nat
        ∧ (length (Snake.Body s') ≤ S (length (Snake.Body s)))%nat
        ∧ (Snake.Score s' = Snake.Score s
           ∨ Snake.Score s' = wrap (Snake.Score s + 1))
        ∧ (k ≠ j → s' = s).
Proof.
  intros Hk. destruct (decide (k = j)) as [->|Hne].
  2:{ exists s. rewrite updateSnake_other by done. split_and!; auto. }
  destruct st as [[r g] ev]. cbn [fst] in Hk.
  destruct (updateSnake_guarded r g ev j)
    as [[_ ->]|[(s0 & head & tl & Hj & Halive & Hbody & _ & ->)
       |[(s0 & head & tl & Hj & Halive & Hbody & _ & _ & _ & _ & ->)
        |(s0 & head & tl & Hj & Halive & Hbody & _ & _ & _ & _ & Heq)]]].
  - exists s. split_and!; auto.
  - simplify_eq. eexists.
    cbn [fst Snake.players Snake.setPlayers]. rewrite lookup_insert_eq.
    split_and!; try done; auto.
  - simplify_eq. eexists.
    cbn [fst Snake.players Snake.setPlayers]. rewrite lookup_insert_eq.
    split_and!; try done; auto.
    + cbn [Snake.Body Snake.setBody]. rewrite Hbody. cbn [length].
      by rewrite length_removelast_cons.
    + cbn [Snake.Body Snake.setBody]. rewrite Hbody. cbn [length].
      rewrite length_removelast_cons. lia.
  - cbv zeta in Heq. rewrite Heq. simplify_eq. eexists.
    cbn [fst Snake.players Snake.setPlayers Snake.setFood].
    rewrite lookup_insert_eq. split_and!; try done; auto.
    + cbn [Snake.Body Snake.setBody]. rewrite last_length, Hbody.
      cbn [length]. rewrite length_removelast_cons. lia.
    + cbn [Snake.Body Snake.setBody]. rewrite last_length, Hbody.
      cbn [length]. by rewrite length_removelast_cons.
Qed.

Lemma foldl_updateSnake_none order st k :
  Snake.players st.1.1 !! k = None →
  Snake.players (foldl Snake.updateSnake st order).1.1 !! k = None.
Proof.
  revert st. induction order as [|j order IH]; intros st Hk; [done|].
  cbn [foldl]. apply IH. by apply updateSnake_none.
Qed.

(** [Room.update], what one tick keeps. The tick neither adds nor removes
    a player and does not touch the name or the dimensions of the room. Of
    every snake it keeps the ID, the direction and the connection; it never
    brings a dead snake back to life; the body never gets shorter and
    grows by at most one segment; the score stays or goes up by one; and a
    snake that the loop does not visit is left exactly as it was. *)
Theorem update_frame order border r g :
  NoDup order →
  let r' := (Snake.update order border r g).1.1 in
  Snake.width r' = Snake.width r
  ∧ Snake.height r' = Snake.height r
  ∧ Snake.name r' = Snake.name r
  ∧ (∀ k, Snake.players r !! k = None → Snake.players r' !! k = None)
  ∧ (∀ k s, Snake.players r !! k = Some s →
       ∃ s', Snake.players r' !! k = Some s'
             ∧ Snake.ID s' = Snake.ID s ∧ Snake.Dir s' = Snake.Dir s
             ∧ Snake.conn s' = Snake.conn s
             ∧ (Snake.Alive s' = true → Snake.Alive s = true)
             ∧ (length (Snake.Body s) ≤ length (Snake.Body s'))%nat
             ∧ (length (Snake.Body s') ≤ S (length (Snake.Body s)))%nat
             ∧ (Snake.Score s' = Snake.Score s
                ∨ Snake.Score s' = wrap (Snake.Score s + 1))
             ∧ (k ∉ order → s' = s)).
Proof.
  intros Hnd r'. unfold r'. rewrite update_room.
  destruct (foldl_updateSnake_dims order (r, g, [])) as (Hw & Hh & Hn).
  split_and!; try done.
  - intros k Hk. by apply foldl_updateSnake_none.
  - intros k s Hk. destruct (decide (k ∈ order)) as [Hin|Hout].
    + apply list_elem_of_split in Hin as (pre & post & ->).
      apply NoDup_app in Hnd as (_ & Hdisj & [Hkpost _]%NoDup_cons).
      rewrite foldl_app. cbn [foldl].
      rewrite foldl_updateSnake_other by done.
      assert (Snake.players (foldl Snake.updateSnake (r, g, []) pre).1.1 !! k
              = Some s) as Hk1.
      { rewrite foldl_updateSnake_other; [done|].
        intros Hin. apply (Hdisj k Hin). by left. }
      destruct (updateSnake_entry _ k k s Hk1)
        as (s' & Hs' & ? & ? & ? & ? & ? & ? & ? & _).
      exists s'. split_and!; try done.
      intros Hno. exfalso. apply Hno. apply elem_of_app. right. by left.
    + exists s. rewrite foldl_updateSnake_other by done.
      split_and!; auto.
Qed.

(** P1 advances one cell and is still one segment long. *)
Lemma update_frame_witness :
  let A := Snake.mkSnake "P1" [Snake.mkPoint 5 5] "right" 0 true (Some 1) in
  let r := Snake.mkRoom "r1" 20 20 (<["P1" := A]> ∅) (Snake.mkPoint 9 9) true in
  ∃ s', Snake.players (Snake.update ["P1"] ["P1"] r []).1.1 !! "P1" = Some s'
        ∧ Snake.Dir s' = "right" ∧ (length (Snake.Body s') ≤ 2)%nat.
Proof.
  intros A r.
  assert (NoDup ["P1"]) as Hnd.
  { apply (bool_decide_unpack _). vm_compute. exact I. }
  destruct (update_frame ["P1"] ["P1"] r [] Hnd) as (_ & _ & _ & _ & Hkeep).
  destruct (Hkeep "P1" A) as (s' & Hs' & _ & Hdir & _ & _ & _ & Hlen & _).
  { vm_compute. reflexivity. }
  exists s'. split_and!; [exact Hs'|exact Hdir|exact Hlen].
Defined.

(** ** Snake: everything stays on the grid *)

Lemma outside_false p r : Snake.outside p r = false ↔ Snake.inGrid p r.
Proof.
  unfold Snake.outside, Snake.inGrid.
  rewrite !orb_false_iff, !Z.ltb_ge, !Z.geb_leb, !Z.leb_gt. tauto.
Qed.

Lemma attempts_inGrid n r g p :
  (0 < Snake.width r)%Z → (0 < Snake.height r)%Z →
  p ∈ Snake.attempts n r g → Snake.inGrid p r.
Proof.
  intros Hw Hh. revert g. induction n as [|n IH]; intros g; cbn [Snake.attempts].
  - by intros ?%elem_of_nil.
  - destruct (Intn (Snake.width r) g) as [x g1] eqn:Hx.
    destruct (Intn (Snake.height r) g1) as [y g2] eqn:Hy.
    intros [->|Hin]%elem_of_cons; [|by apply (IH g2)].
    apply Intn_range in Hx; [|done]. apply Intn_range in Hy; [|done].
    by split.
Qed.

Lemma randomEmptyCell_inGrid r g :
  (0 < Snake.width r)%Z → (0 < Snake.height r)%Z →
  Snake.inGrid (Snake.food r) r →
  Snake.inGrid (Snake.randomEmptyCell r g).1 r.
Proof.
  intros Hw Hh Hfood.
  pose proof (randomEmptyCell_loop_spec 200 r g) as Hspec.
  fold (Snake.randomEmptyCell r g) in Hspec.
  destruct (Snake.randomEmptyCell r g) as [p g'].
  destruct Hspec as [[_ Hin]|[-> _]]; [|done].
  by apply (attempts_inGrid 200 r g).
Qed.

Lemma elem_of_last_cons {A} (a d : A) (l : list A) :
  List.last (a :: l) d ∈ a :: l.
Proof.
  revert a. induction l as [|b l IH]; intros a; [by left|].
  right. apply IH.
Qed.

Lemma updateSnake_onGrid st j :
  Snake.onGrid st.1.1 → Snake.onGrid (Snake.updateSnake st j).1.1.
Proof.
  destruct st as [[r g] ev]. cbn [fst]. intros (Hw & Hh & Hfood & Hbodies).
  destruct (updateSnake_guarded r g ev j)
    as [[_ ->]|[(s0 & head & tl & Hj & Halive & Hbody & _ & ->)
       |[(s0 & head & tl & Hj & Halive & Hbody & Hout & _ & _ & _ & ->)
        |(s0 & head & tl & Hj & Halive & Hbody & Hout & _ & _ & _ & Heq)]]].
  - done.
  - split_and!; try done. intros k s b. cbn [fst Snake.players Snake.setPlayers].
    destruct (decide (j = k)) as [->|Hne].
    + rewrite lookup_insert_eq. intros [= <-]. apply (Hbodies k s0 b Hj).
    + rewrite lookup_insert_ne by done. apply Hbodies.
  - apply outside_false in Hout.
    split_and!; try done. intros k s b. cbn [fst Snake.players Snake.setPlayers].
    destruct (decide (j = k)) as [->|Hne].
    + rewrite lookup_insert_eq. intros [= <-]. cbn [Snake.Body Snake.setBody].
      intros [->|Hin]%elem_of_cons; [done|].
      change (b ∈ removelast (head :: tl)) in Hin.
      apply elem_of_removelast in Hin.
      apply (Hbodies k s0 b Hj). by rewrite Hbody.
    + rewrite lookup_insert_ne by done. apply Hbodies.
  - apply outside_false in Hout. cbv zeta in Heq. rewrite Heq. clear Heq.
    cbn [fst].
    set (next := Snake.nextHead (Snake.Dir s0) head) in *.
    set (s2 := Snake.setBody _ _).
    set (r2 := Snake.setPlayers (<[j := s2]> (Snake.players r)) r).
    assert (∀ b, b ∈ next :: removelast (head :: tl) → Snake.inGrid b r) as Hnew.
    { intros b [->|Hin%elem_of_removelast]%elem_of_cons; [done|].
      apply (Hbodies j s0 b Hj). by rewrite Hbody. }
    split_and!; try done.
    + by apply (randomEmptyCell_inGrid r2 g).
    + intros k s b. cbn [Snake.players Snake.setFood r2 Snake.setPlayers].
      destruct (decide (j = k)) as [->|Hne].
      * rewrite lookup_insert_eq. intros [= <-].
        unfold s2. cbn [Snake.Body Snake.setBody].
        intros [Hin|Hin%list_elem_of_singleton]%elem_of_app.
        -- by apply Hnew.
        -- subst b. apply Hnew. apply elem_of_last_cons.
      * rewrite lookup_insert_ne by done. apply Hbodies.
Qed.

Lemma foldl_updateSnake_onGrid order st :
  Snake.onGrid st.1.1 → Snake.onGrid (foldl Snake.updateSnake st order).1.1.
Proof.
  revert st. induction order as [|j order IH]; intros st Hst; [done|].
  cbn [foldl]. apply IH. by apply updateSnake_onGrid.
Qed.

Lemma ticks_onGrid sched st :
  Snake.onGrid st.1.1 → Snake.onGrid (Snake.ticks sched st).1.1.
Proof.
  revert st. induction sched as [|[order border] sched IH];
    intros [[r g] ev] Hst; [done|].
  cbn [Snake.ticks].
  destruct (Snake.update order border r g) as [[r' g'] ev'] eqn:E.
  apply IH. cbn [fst] in *.
  replace r' with (Snake.update order border r g).1.1 by by rewrite E.
  rewrite update_room. by apply foldl_updateSnake_onGrid.
Qed.

(** The room stays on its grid. If the grid is not empty and the food and
    all segments of all snakes, dead ones too, lie on it, then this is
    still so after any number of ticks, after a connection has joined (the
    new snake is put on a cell of the grid) and after a session has left;
    and a room as [getRoom] creates it (20 by 20, no snake, food drawn
    below 20 twice) is on its grid. *)
Theorem Snake_stays_on_grid r g :
  Snake.onGrid r →
  (∀ sched ev, Snake.onGrid (Snake.ticks sched (r, g, ev)).1.1)
  ∧ (∀ order border, Snake.onGrid (Snake.update order border r g).1.1)
  ∧ (∀ c, Snake.onGrid (Snake.join c r g).1.1.2)
  ∧ (∀ playerID snake c order,
       Snake.onGrid (Snake.leave playerID snake c order r).1)
  ∧ (∀ n x y, (0 ≤ x < 20)%Z → (0 ≤ y < 20)%Z →
              Snake.onGrid (Snake.mkRoom n 20 20 ∅ (Snake.mkPoint x y) true)).
Proof.
  intros Hgrid. split_and!.
  - intros sched ev. by apply ticks_onGrid.
  - intros order border. rewrite update_room.
    by apply foldl_updateSnake_onGrid.
  - intros c. destruct Hgrid as (Hw & Hh & Hfood & Hbodies).
    unfold Snake.join.
    destruct (Intn (Snake.width r) g) as [x g1] eqn:Hx.
    destruct (Intn (Snake.height r) g1) as [y g2] eqn:Hy.
    cbn [fst snd]. split_and!; try done.
    intros k s b. cbn [Snake.players Snake.setPlayers].
    destruct (decide ("P" +:+ pretty (size (Snake.players r) + 1) = k))
      as [<-|Hne].
    + rewrite lookup_insert_eq. intros [= <-]. cbn [Snake.Body].
      intros ->%list_elem_of_singleton.
      apply Intn_range in Hx; [|done]. apply Intn_range in Hy; [|done].
      by split.
    + rewrite lookup_insert_ne by done. apply Hbodies.
  - intros playerID snake c order.
    destruct Hgrid as (Hw & Hh & Hfood & Hbodies).
    unfold Snake.leave. cbn [fst]. split_and!; try done.
    intros k s b. cbn [Snake.players Snake.setPlayers].
    intros [_ Hk]%lookup_delete_Some. by apply (Hbodies k).
  - intros n x y Hx Hy. split_and!; cbn; try lia.
    + by split.
    + intros k s b Hk. by rewrite lookup_empty in Hk.
Qed.

(** A snake on a cell next to the food of a 20 by 20 room. *)
Lemma Snake_stays_on_grid_witness :
  let A := Snake.mkSnake "P1" [Snake.mkPoint 5 5] "right" 0 true (Some 1) in
  let r := Snake.mkRoom "r1" 20 20 (<["P1" := A]> ∅) (Snake.mkPoint 6 5) true in
  Snake.onGrid (Snake.update ["P1"] ["P1"] r [31%Z; 44%Z]).1.1.
Proof.
  intros A r.
  assert (Snake.onGrid r) as Hgrid.
  { split_and!; cbn; try lia.
    - split; cbn; lia.
    - intros k s b Hk Hb.
      destruct (decide (k = "P1")) as [->|Hne].
      + rewrite lookup_insert_eq in Hk. simplify_eq.
        apply list_elem_of_singleton in Hb. subst. split; cbn; lia.
      + rewrite lookup_insert_ne, lookup_empty in Hk by done. done. }
  exact (proj1 (proj2 (Snake_stays_on_grid r [31%Z; 44%Z] Hgrid)) ["P1"] ["P1"]).
Defined.

(** ** Snake: the scores that are saved *)

Lemma savedFor_app playerID a b :
  Snake.savedFor playerID (a ++ b)
  = Snake.savedFor playerID a + Snake.savedFor playerID b.
Proof. unfold Snake.savedFor. by rewrite List.filter_app, length_app. Qed.

Lemma savedFor_saveScore playerID p score r :
  Snake.savedFor playerID (Snake.saveScore p score r)
  = if String.eqb p playerID then 1 else 0.
Proof.
  unfold Snake.savedFor, Snake.saveScore. cbn.
  by destruct (String.eqb p playerID).
Qed.

Lemma savedFor_broadcast playerID m order r :
  Snake.savedFor playerID (Snake.broadcast m order r) = 0.
Proof.
  pose proof (Snake_broadcast_only m order r) as Honly.
  unfold Snake.savedFor.
  induction (Snake.broadcast m order r) as [|e l IH]; [done|].
  destruct (Honly e) as [c ->]; [by left|]. cbn [List.filter].
  apply IH. intros e' He'. apply Honly. by right.
Qed.

Lemma updateSnake_wf st j :
  Snake.wf st.1.1 → Snake.wf (Snake.updateSnake st j).1.1.
Proof.
  intros Hwf k s' Hk.
  destruct (Snake.players st.1.1 !! k) as [s|] eqn:E.
  - destruct (updateSnake_entry st j k s E) as (s1 & Hs1 & Hid & _).
    rewrite Hs1 in Hk. simplify_eq. rewrite Hid. by apply Hwf.
  - by rewrite updateSnake_none in Hk.
Qed.

Lemma updateSnake_savedDeaths r0 prior st j :
  Snake.savedDeaths r0 (prior ++ st.2) st.1.1 →
  Snake.savedDeaths r0 (prior ++ (Snake.updateSnake st j).2)
                    (Snake.updateSnake st j).1.1.
Proof.
  intros (Hwf & Hmono & Hcount).
  split_and!.
  - by apply updateSnake_wf.
  - intros k s' Hk.
    destruct (Snake.players st.1.1 !! k) as [s|] eqn:E.
    + destruct (updateSnake_entry st j k s E) as (s1 & Hs1 & _ & _ & _ & Hal & _).
      rewrite Hs1 in Hk. simplify_eq.
      destruct (Hmono k s E) as (s0 & Hs0 & Hal0). exists s0. auto.
    + by rewrite updateSnake_none in Hk.
  - destruct st as [[r g] ev]. cbn [fst snd] in *. intros id.
    destruct (updateSnake_guarded r g ev j)
      as [[_ ->]|[(s & head & tl & Hj & Halive & Hbody & _ & ->)
         |[(s & head & tl & Hj & Halive & Hbody & _ & _ & _ & _ & ->)
          |(s & head & tl & Hj & Halive & Hbody & _ & _ & _ & _ & Heq)]]].
    + apply Hcount.
    + cbn [fst snd Snake.players Snake.setPlayers].
      rewrite app_assoc, savedFor_app, savedFor_saveScore, Hcount.
      rewrite (Hwf j s Hj).
      destruct (String.eqb_spec j id) as [->|Hne].
      * rewrite lookup_insert_eq, Hj.
        destruct (Hmono id s Hj) as (s0 & -> & Hal0).
        rewrite Halive, (Hal0 Halive). done.
      * rewrite lookup_insert_ne by done. lia.
    + cbn [fst snd Snake.players Snake.setPlayers]. rewrite Hcount.
      destruct (decide (j = id)) as [->|Hne].
      * rewrite lookup_insert_eq, Hj. done.
      * by rewrite lookup_insert_ne.
    + cbv zeta in Heq. rewrite Heq.
      cbn [fst snd Snake.players Snake.setPlayers Snake.setFood].
      rewrite Hcount.
      destruct (decide (j = id)) as [->|Hne].
      * rewrite lookup_insert_eq, Hj. done.
      * by rewrite lookup_insert_ne.
Qed.

Lemma foldl_updateSnake_savedDeaths r0 prior order st :
  Snake.savedDeaths r0 (prior ++ st.2) st.1.1 →
  Snake.savedDeaths r0 (prior ++ (foldl Snake.updateSnake st order).2)
                    (foldl Snake.updateSnake st order).1.1.
Proof.
  revert st. induction order as [|j order IH]; intros st Hst; [done|].
  cbn [foldl]. apply IH. by apply updateSnake_savedDeaths.
Qed.

Lemma update_savedDeaths r0 prior order border r g :
  Snake.savedDeaths r0 prior r →
  Snake.savedDeaths r0 (prior ++ (Snake.update order border r g).2)
                    (Snake.update order border r g).1.1.
Proof.
  intros Hst.
  pose proof (foldl_updateSnake_savedDeaths r0 prior order (r, g, [])) as H.
  cbn [fst snd] in H. rewrite app_nil_r in H. specialize (H Hst).
  unfold Snake.update.
  destruct (foldl Snake.updateSnake (r, g, []) order) as [[r' g'] ev'].
  cbn [fst snd] in *. destruct H as (Hwf & Hmono & Hcount).
  split_and!; try done. intros id.
  rewrite app_assoc, savedFor_app, savedFor_broadcast, Hcount. lia.
Qed.

Lemma ticks_savedDeaths r0 sched st :
  Snake.savedDeaths r0 st.2 st.1.1 →
  Snake.savedDeaths r0 (Snake.ticks sched st).2 (Snake.ticks sched st).1.1.
Proof.
  revert st. induction sched as [|[order border] sched IH];
    intros [[r g] ev] Hst; [done|].
  cbn [Snake.ticks].
  pose proof (update_savedDeaths r0 ev order border r g Hst) as H.
  destruct (Snake.update order border r g) as [[r' g'] ev'].
  by apply IH.
Qed.

(** [Room.update] and the clean-up of [handleWS], the scores they save. In
    a room filed under the IDs of its snakes, after any number of ticks
    the number of scores saved for a player is one if its snake went from
    alive to dead in those ticks and none otherwise. The clean-up of the
    session of a player adds one score exactly if the snake is still
    alive, so that over ticks and departure at most one score is saved for
    a player. *)
Theorem score_saved_once_per_death sched r g :
  Snake.wf r →
  let out := Snake.ticks sched (r, g, []) in
  (∀ playerID,
     Snake.savedFor playerID out.2
     = match Snake.players r !! playerID, Snake.players out.1.1 !! playerID with
       | Some s0, Some s => if Snake.Alive s0 && negb (Snake.Alive s) then 1 else 0
       | _, _ => 0
       end)
  ∧ (∀ playerID s c order,
       Snake.players out.1.1 !! playerID = Some s →
       Snake.savedFor playerID (Snake.leave playerID s c order out.1.1).2
       = (if Snake.Alive s then 1 else 0)
       ∧ (Snake.savedFor playerID
            (out.2 ++ (Snake.leave playerID s c order out.1.1).2) ≤ 1)%nat).
Proof.
  intros Hwf out.
  assert (Snake.savedDeaths r out.2 out.1.1) as (Hwf' & Hmono & Hcount).
  { apply ticks_savedDeaths. cbn [fst snd]. split_and!; try done.
    - intros k s Hk. eauto.
    - intros id. cbn. destruct (Snake.players r !! id) as [s|]; [|done].
      by destruct (Snake.Alive s). }
  split; [exact Hcount|].
  intros id s c order Hs.
  assert (Snake.savedFor id (Snake.leave id s c order out.1.1).2
          = if Snake.Alive s then 1 else 0) as Hleave.
  { unfold Snake.leave. cbn [snd].
    rewrite savedFor_app.
    change (Snake.Close c :: Snake.broadcast (Snake.MsgLeave id) order
              (Snake.setPlayers (delete id (Snake.players out.1.1)) out.1.1))
      with ([Snake.Close c] ++ Snake.broadcast (Snake.MsgLeave id) order
              (Snake.setPlayers (delete id (Snake.players out.1.1)) out.1.1)).
    rewrite savedFor_app, savedFor_broadcast.
    destruct (Snake.Alive s).
    - rewrite savedFor_saveScore, (Hwf' id s Hs), String.eqb_refl. done.
    - done. }
  split; [exact Hleave|].
  rewrite savedFor_app, Hleave, Hcount, Hs.
  destruct (Snake.players r !! id) as [s0|]; [|destruct (Snake.Alive s); lia].
  destruct (Snake.Alive s0), (Snake.Alive s); cbn; lia.
Qed.

(** P1 runs into the right wall in the second tick and leaves afterwards:
    one score is saved for it, by the tick. *)
Lemma score_saved_once_per_death_witness :
  let A := Snake.mkSnake "P1" [Snake.mkPoint 18 5] "right" 0 true (Some 1) in
  let r := Snake.mkRoom "r1" 20 20 (<["P1" := A]> ∅) (Snake.mkPoint 9 9) true in
  let out := Snake.ticks [(["P1"], ["P1"]); (["P1"], ["P1"])] (r, [], []) in
  Snake.savedFor "P1" out.2 = 1.
Proof.
  intros A r out.
  assert (Snake.wf r) as Hwf.
  { change (map_Forall (λ k s, Snake.ID s = k) (Snake.players r)).
    apply (bool_decide_unpack _). vm_compute. exact I. }
  destruct (score_saved_once_per_death
              [(["P1"], ["P1"]); (["P1"], ["P1"])] r [] Hwf) as [Hcount _].
  etrans; [exact (Hcount "P1")|]. vm_compute. reflexivity.
Defined.

(** ** Snake: collisions that do not depend on the others *)

(** [Room.update], wall and self collision. A live snake whose next cell,
    computed from its own state at the start of the tick, lies outside the
    grid or on one of its own segments (the last one included, though it
    would move away) is dead at the end of the tick, body and score as
    they were, whatever the visiting order and the other snakes. *)
Theorem wall_or_self_collision_kills pre k post border r g s head tl :
  NoDup (pre ++ k :: post) →
  Snake.players r !! k = Some s →
  Snake.Alive s = true →
  Snake.Body s = head :: tl →
  Snake.outside (Snake.nextHead (Snake.Dir s) head) r = true
  ∨ Snake.nextHead (Snake.Dir s) head ∈ head :: tl →
  Snake.players (Snake.update (pre ++ k :: post) border r g).1.1 !! k
  = Some (Snake.setAlive false s).
Proof.
  intros Hnd Hk Halive Hbody Hcoll.
  apply NoDup_app in Hnd as (_ & Hdisj & [Hkpost _]%NoDup_cons).
  rewrite update_room, foldl_app. cbn [foldl].
  rewrite foldl_updateSnake_other by done.
  destruct (foldl Snake.updateSnake (r, g, []) pre) as [[r1 g1] ev1] eqn:E.
  assert (Snake.players r1 !! k = Some s) as Hk1.
  { change r1 with (r1, g1, ev1).1.1. rewrite <- E.
    rewrite foldl_updateSnake_other; [done|].
    intros Hin. apply (Hdisj k Hin). by left. }
  assert (∀ p, Snake.outside p r1 = Snake.outside p r) as Hout1.
  { intros p. destruct (foldl_updateSnake_dims pre (r, g, [])) as (Hw & Hh & _).
    rewrite E in Hw, Hh. cbn [fst] in Hw, Hh.
    unfold Snake.outside. by rewrite Hw, Hh. }
  destruct (updateSnake_guarded r1 g1 ev1 k)
    as [[[Hno|(s' & Hs' & [Hd|Hd])] _]
       |[(s' & head' & tl' & Hs' & _ & _ & _ & ->)
       |[(s' & head' & tl' & Hs' & _ & Hb' & Ho & Hh & _)
        |(s' & head' & tl' & Hs' & _ & Hb' & Ho & Hh & _)]]];
    try congruence.
  - simplify_eq. cbn. by rewrite lookup_insert_eq.
  - exfalso. simplify_eq. rewrite Hbody in Hb'. simplify_eq.
    rewrite Hout1 in Ho. destruct Hcoll as [Hc|Hc]; [congruence|].
    rewrite Hbody in Hh. unfold Snake.hits in Hh.
    by apply bool_decide_eq_false in Hh.
  - exfalso. simplify_eq. rewrite Hbody in Hb'. simplify_eq.
    rewrite Hout1 in Ho. destruct Hcoll as [Hc|Hc]; [congruence|].
    rewrite Hbody in Hh. unfold Snake.hits in Hh.
    by apply bool_decide_eq_false in Hh.
Qed.

(** P1 stands at the right wall and heads right; P2 is visited first. *)
Lemma wall_or_self_collision_kills_witness :
  let A := Snake.mkSnake "P1" [Snake.mkPoint 19 5] "right" 2 true (Some 1) in
  let B := Snake.mkSnake "P2" [Snake.mkPoint 3 3] "down" 0 true (Some 2) in
  let r := Snake.mkRoom "r1" 20 20 (<["P1" := A]> (<["P2" := B]> ∅))
                        (Snake.mkPoint 9 9) true in
  Snake.players (Snake.update (["P2"] ++ "P1" :: []) [] r []).1.1 !! "P1"
  = Some (Snake.setAlive false A).
Proof.
  intros A B r.
  apply (wall_or_self_collision_kills ["P2"] "P1" [] [] r [] A
           (Snake.mkPoint 19 5) []).
  - apply (bool_decide_unpack _). vm_compute. exact I.
  - vm_compute. reflexivity.
  - reflexivity.
  - reflexivity.
  - left. vm_compute. reflexivity.
Defined.

(** ** Snake: the direction commands *)

Lemma isDir_cases d :
  Snake.isDir d →
  d = "up" ∨ d = "down" ∨ d = "left" ∨ d = "right".
Proof. done. Qed.

(** [handleWS], a text message of the client. The message changes nothing
    of the snake but, at most, its direction, which afterwards is the old
    one or the message. A snake heading in one of the four directions takes
    the message as its new direction when the message is one of the four
    and not the reverse of the current one, and keeps its direction
    otherwise, so it still heads in one of the four and never in the
    reverse of where it headed before the message. The text ping, and no
    other, is answered with pong. *)
Theorem command_turns_but_never_reverses cmd snake :
  let out := Snake.command cmd snake in
  Snake.ID out.1 = Snake.ID snake
  ∧ Snake.Body out.1 = Snake.Body snake
  ∧ Snake.Score out.1 = Snake.Score snake
  ∧ Snake.Alive out.1 = Snake.Alive snake
  ∧ Snake.conn out.1 = Snake.conn snake
  ∧ (Snake.Dir out.1 = Snake.Dir snake ∨ Snake.Dir out.1 = cmd)
  ∧ (Snake.isDir (Snake.Dir snake) →
     Snake.isDir (Snake.Dir out.1)
     ∧ Snake.Dir out.1 ≠ Snake.opposite (Snake.Dir snake)
     ∧ (Snake.isDir cmd → cmd ≠ Snake.opposite (Snake.Dir snake) →
        Snake.Dir out.1 = cmd))
  ∧ (¬ Snake.isDir cmd → out.1 = snake)
  ∧ (cmd = "ping" → out.2 = ["pong"])
  ∧ (cmd ≠ "ping" → out.2 = []).
Proof.
  intros out. unfold out, Snake.command, Snake.isDir, Snake.opposite.
  destruct snake as [id body d score alive c]. cbn [Snake.Dir].
  destruct (String.eqb_spec cmd "up") as [->|Hu];
  [|destruct (String.eqb_spec cmd "down") as [->|Hd];
    [|destruct (String.eqb_spec cmd "left") as [->|Hl];
      [|destruct (String.eqb_spec cmd "right") as [->|Hr]]]];
  cbn [orb].
  1-4: destruct (String.eqb_spec d "up") as [->|Hdu];
       [|destruct (String.eqb_spec d "down") as [->|Hdd];
         [|destruct (String.eqb_spec d "left") as [->|Hdl];
           [|destruct (String.eqb_spec d "right") as [->|Hdr]]]];
       cbn; split_and!; try done; auto; try tauto;
       try (intros [?|[?|[?|?]]]; done);
       try (intros Hno; exfalso; apply Hno; auto).
  destruct (String.eqb_spec cmd "ping") as [->|Hp]; cbn;
    split_and!; try done; auto; try tauto.
  all: intros Hdir; split_and!; try done; try tauto.
  all: destruct Hdir as [Hx|[Hx|[Hx|Hx]]]; rewrite Hx; cbn; done.
Qed.

(** A snake heading right is told to go up, and then to go down. *)
Lemma command_turns_but_never_reverses_witness :
  let A := Snake.mkSnake "P1" [Snake.mkPoint 5 5] "right" 0 true (Some 1) in
  Snake.Dir (Snake.command "up" A).1 = "up"
  ∧ Snake.Dir (Snake.command "down" (Snake.command "up" A).1).1
    ≠ Snake.opposite "up".
Proof.
  intros A.
  destruct (command_turns_but_never_reverses "up" A)
    as (_ & _ & _ & _ & _ & _ & Hturn & _).
  destruct Hturn as (Hdir & _ & Hcmd).
  { right. right. right. reflexivity. }
  assert (Snake.Dir (Snake.command "up" A).1 = "up") as Hup.
  { apply Hcmd; [left; reflexivity|discriminate]. }
  split; [exact Hup|].
  destruct (command_turns_but_never_reverses "down" (Snake.command "up" A).1)
    as (_ & _ & _ & _ & _ & _ & Hturn2 & _).
  destruct (Hturn2 Hdir) as (_ & Hrev & _).
  rewrite Hup in Hrev. exact Hrev.
Defined.

Lemma wrap_back_up x : (int_min ≤ x ≤ int_max)%Z → wrap (wrap (x + 1) - 1) = x.
Proof.
  unfold wrap, int_min, int_max. intros Hx.
  replace ((x + 1 + 2 ^ 63) `mod` 2 ^ 64 - 2 ^ 63 - 1 + 2 ^ 63)%Z
    with ((x + 1 + 2 ^ 63) `mod` 2 ^ 64 - 1)%Z by lia.
  rewrite Zminus_mod_idemp_l.
  replace (x + 1 + 2 ^ 63 - 1)%Z with (x + 2 ^ 63)%Z by lia.
  rewrite Z.mod_small; lia.
Qed.

Lemma wrap_back_down x : (int_min ≤ x ≤ int_max)%Z → wrap (wrap (x - 1) + 1) = x.
Proof.
  unfold wrap, int_min, int_max. intros Hx.
  replace ((x - 1 + 2 ^ 63) `mod` 2 ^ 64 - 2 ^ 63 + 1 + 2 ^ 63)%Z
    with ((x - 1 + 2 ^ 63) `mod` 2 ^ 64 + 1)%Z by lia.
  rewrite Zplus_mod_idemp_l.
  replace (x - 1 + 2 ^ 63 + 1)%Z with (x + 2 ^ 63)%Z by lia.
  rewrite Z.mod_small; lia.
Qed.

Lemma nextHead_opposite d p :
  Snake.isDir d →
  (int_min ≤ Snake.X p ≤ int_max)%Z → (int_min ≤ Snake.Y p ≤ int_max)%Z →
  Snake.nextHead (Snake.opposite d) (Snake.nextHead d p) = p.
Proof.
  intros Hd Hx Hy. destruct p as [x y]. cbn in Hx, Hy.
  unfold Snake.nextHead, Snake.opposite.
  destruct Hd as [->|[->|[->| ->]]]; cbn;
    rewrite ?wrap_back_up, ?wrap_back_down; done.
Qed.

(** The guard of [handleWS] against reversing compares the message with
    the direction commanded last, not with the direction moved last. For
    a live snake of two or more segments whose head lies one step ahead of
    its second segment, there are two messages, sent between two ticks,
    after which it heads in the reverse direction; its next cell is then
    its own second segment, and the step of the next tick kills it. *)
Theorem two_commands_turn_snake_back r g ev k snake head neck tl :
  Snake.players r !! k = Some snake →
  Snake.Alive snake = true →
  Snake.Body snake = head :: neck :: tl →
  Snake.isDir (Snake.Dir snake) →
  head = Snake.nextHead (Snake.Dir snake) neck →
  Snake.inGrid neck r →
  (Snake.width r ≤ int_max)%Z → (Snake.height r ≤ int_max)%Z →
  ∃ c1 c2,
    let snake' := (Snake.command c2 (Snake.command c1 snake).1).1 in
    let r1 := Snake.setPlayers (<[k := snake']> (Snake.players r)) r in
    Snake.Dir snake' = Snake.opposite (Snake.Dir snake)
    ∧ Snake.Body snake' = Snake.Body snake
    ∧ Snake.nextHead (Snake.Dir snake') head = neck
    ∧ Snake.players (Snake.updateSnake (r1, g, ev) k).1.1 !! k
      = Some (Snake.setAlive false snake')
    ∧ (Snake.updateSnake (r1, g, ev) k).2
      = ev ++ Snake.saveScore (Snake.ID snake) (Snake.Score snake) r.
Proof.
  intros Hk Halive Hbody Hdir Hhead [Hx Hy] Hw Hh.
  assert (Snake.nextHead (Snake.opposite (Snake.Dir snake)) head = neck)
    as Hback.
  { rewrite Hhead. apply nextHead_opposite; [done|unfold int_min; lia..]. }
  assert (∃ c1 c2,
            Snake.command c2 (Snake.command c1 snake).1
            = (Snake.setDir (Snake.opposite (Snake.Dir snake)) snake, []))
    as (c1 & c2 & Hcmd).
  { destruct snake as [id body d score alive c]. cbn [Snake.Dir] in *.
    destruct Hdir as [->|[->|[->| ->]]].
    - by exists "left", "down".
    - by exists "left", "up".
    - by exists "up", "right".
    - by exists "up", "left". }
  exists c1, c2. cbv zeta. rewrite Hcmd. cbn [fst].
  set (snake' := Snake.setDir (Snake.opposite (Snake.Dir snake)) snake).
  set (r1 := Snake.setPlayers (<[k := snake']> (Snake.players r)) r).
  assert (Snake.players r1 !! k = Some snake') as Hk1
    by apply lookup_insert_eq.
  destruct (updateSnake_guarded r1 g ev k)
    as [[[Hno|(s & Hs & [Hd|Hd])] _]
       |[(s & head' & tl' & Hs & _ & _ & _ & Heq)
       |[(s & head' & tl' & Hs & _ & Hb' & _ & Hself & _)
        |(s & head' & tl' & Hs & _ & Hb' & _ & Hself & _)]]].
  - congruence.
  - simplify_eq. cbn in Hd. congruence.
  - simplify_eq. cbn in Hd. congruence.
  - rewrite Heq. simplify_eq. cbn [fst snd Snake.players Snake.setPlayers].
    split_and!; try done. apply lookup_insert_eq.
  - exfalso. simplify_eq. cbn [Snake.Body Snake.Dir snake' Snake.setDir] in *.
    rewrite Hbody in Hb'. simplify_eq. rewrite Hbody, Hback in Hself.
    unfold Snake.hits in Hself. apply bool_decide_eq_false in Hself.
    apply Hself. right. by left.
  - exfalso. simplify_eq. cbn [Snake.Body Snake.Dir snake' Snake.setDir] in *.
    rewrite Hbody in Hb'. simplify_eq. rewrite Hbody, Hback in Hself.
    unfold Snake.hits in Hself. apply bool_decide_eq_false in Hself.
    apply Hself. right. by left.
Qed.

(** P1 has moved right from (4,5) to (5,5); up and then left turn it
    back. *)
Lemma two_commands_turn_snake_back_witness :
  let A := Snake.mkSnake "P1" [Snake.mkPoint 5 5; Snake.mkPoint 4 5]
                         "right" 1 true (Some 1) in
  let r := Snake.mkRoom "r1" 20 20 (<["P1" := A]> ∅) (Snake.mkPoint 9 9) true in
  ∃ c1 c2,
    Snake.Dir (Snake.command c2 (Snake.command c1 A).1).1 = "left".
Proof.
  intros A r.
  destruct (two_commands_turn_snake_back r [] [] "P1" A
              (Snake.mkPoint 5 5) (Snake.mkPoint 4 5) [])
    as (c1 & c2 & Hdir & _).
  - vm_compute. reflexivity.
  - reflexivity.
  - reflexivity.
  - right; right; right. reflexivity.
  - vm_compute. reflexivity.
  - split; cbn; lia.
  - unfold int_max. cbn. lia.
  - unfold int_max. cbn. lia.
  - exists c1, c2. exact Hdir.
Defined.

(** ** Rock-paper-scissors: the membership and its players *)

(** [handleConnections] of rock-paper-scissors keeps the shape of the
    room. If every entry of the membership points to a player and no two
    entries to the same one, this is still so after a join, after a turn
    of a session on any message and after a clean-up; the join files the
    new connection, with no move yet, under the id Player(count+1), and
    leaves the players of all other ids as they were. *)
Theorem RPS_room_shape_kept fails r :
  RPS.wf r → RPS.own r →
  (∀ c order,
     let out := RPS.join fails c order r in
     let PlayerID := "Player" +:+ pretty (size (RPS.players r) + 1) in
     RPS.wf out.1.2 ∧ RPS.own out.1.2
     ∧ out.1.1.1 = PlayerID
     ∧ RPS.players out.1.2 !! PlayerID = Some out.1.1.2
     ∧ RPS.member out.1.2 PlayerID = Some (RPS.mkPlayer PlayerID c EmptyString)
     ∧ (∀ k, k ≠ PlayerID → RPS.member out.1.2 k = RPS.member r k))
  ∧ (∀ PlayerID player msg o1 o2 o3,
       RPS.wf (RPS.recv fails PlayerID player msg o1 o2 o3 r).1
       ∧ RPS.own (RPS.recv fails PlayerID player msg o1 o2 o3 r).1)
  ∧ (∀ PlayerID c order,
       let out := RPS.leave fails PlayerID c order r in
       RPS.wf out.1 ∧ RPS.own out.1
       ∧ RPS.member out.1 PlayerID = None
       ∧ (∀ k, k ≠ PlayerID → RPS.member out.1 k = RPS.member r k)).
Proof.
  intros Hwf Hown. split_and!.
  - intros c order out PlayerID. unfold out, RPS.join. fold PlayerID.
    cbn [fst snd].
    set (l := fresh (dom (RPS.heap r))).
    assert (RPS.heap r !! l = None) as Hfresh
      by apply not_elem_of_dom, is_fresh.
    assert (∀ k, RPS.players r !! k ≠ Some l) as Hnew.
    { intros k Hk. destruct (Hwf k l Hk) as [p Hp]. congruence. }
    split_and!.
    + intros k l0. cbn. destruct (decide (PlayerID = k)) as [<-|Hne].
      * rewrite lookup_insert_eq. intros [= <-].
        rewrite lookup_insert_eq. by eexists.
      * rewrite lookup_insert_ne by done. intros Hk.
        rewrite lookup_insert_ne; [by apply (Hwf k)|].
        intros ->. by apply (Hnew k).
    + intros k1 k2 l0. cbn.
      destruct (decide (PlayerID = k1)) as [<-|Hne1],
               (decide (PlayerID = k2)) as [<-|Hne2];
        rewrite ?lookup_insert_eq, ?lookup_insert_ne by done; try done.
      * intros [= <-] Hk2. by destruct (Hnew k2).
      * intros Hk1 [= <-]. by destruct (Hnew k1).
      * apply Hown.
    + done.
    + cbn. apply lookup_insert_eq.
    + unfold RPS.member. cbn. rewrite lookup_insert_eq. cbn.
      apply lookup_insert_eq.
    + intros k Hk. unfold RPS.member. cbn.
      rewrite lookup_insert_ne by done.
      destruct (RPS.players r !! k) as [l0|] eqn:E; [|done]. cbn.
      rewrite lookup_insert_ne; [done|]. intros ->. by apply (Hnew k).
  - intros PlayerID player msg o1 o2 o3. unfold RPS.recv.
    set (r1 := RPS.setHeap (alter (RPS.setMove msg) player (RPS.heap r)) r).
    assert (RPS.wf r1) as Hwf1 by by apply RPS_wf_record.
    destruct (RPS.contestants o2 r1) as [[[l1 p1] [l2 p2]]|]; cbn [fst].
    + split; [|done]. intros k l Hk. cbn in *.
      apply lookup_alter_is_Some, lookup_alter_is_Some. by apply (Hwf1 k).
    + done.
  - intros PlayerID c order out. unfold out, RPS.leave. cbn [fst].
    split_and!.
    + intros k l. cbn. intros [_ Hk]%lookup_delete_Some. by apply (Hwf k).
    + intros k1 k2 l. cbn.
      intros [_ Hk1]%lookup_delete_Some [_ Hk2]%lookup_delete_Some.
      by apply (Hown k1 k2 l).
    + unfold RPS.member. cbn. by rewrite lookup_delete_eq.
    + intros k Hk. unfold RPS.member. cbn. by rewrite lookup_delete_ne.
Qed.

(** A room with one player; a second connection joins. *)
Lemma RPS_room_shape_kept_witness :
  let r := RPS.mkRoom "r1" (<["Player1" := 0]> ∅)
             (<[0 := RPS.mkPlayer "Player1" 1 "rock"]> ∅) in
  RPS.member (RPS.join (λ _, false) 2 ["Player1"; "Player2"] r).1.2 "Player2"
  = Some (RPS.mkPlayer "Player2" 2 EmptyString).
Proof.
  intros r.
  assert (RPS.wf r) as Hwf.
  { change (map_Forall (λ _ l, is_Some (RPS.heap r !! l)) (RPS.players r)).
    apply (bool_decide_unpack _). vm_compute. exact I. }
  assert (RPS.own r) as Hown.
  { intros k1 k2 l. cbn.
    destruct (decide (k1 = "Player1")) as [->|H1],
             (decide (k2 = "Player1")) as [->|H2];
      rewrite ?lookup_insert_eq, ?lookup_insert_ne, ?lookup_empty by done;
      done. }
  destruct (RPS_room_shape_kept (λ _, false) r Hwf Hown) as (Hjoin & _).
  destruct (Hjoin 2 ["Player1"; "Player2"]) as (_ & _ & _ & _ & Hnew & _).
  exact Hnew.
Defined.

(** ** Rock-paper-scissors: the verdict and the visiting order *)

Lemma RPS_decide_sym p1 p2 :
  RPS.Valid (RPS.move p1) → RPS.Valid (RPS.move p2) →
  RPS.decide p1 p2 = RPS.decide p2 p1.
Proof.
  intros H1 H2. unfold RPS.decide, RPS.beats.
  destruct H1 as [E1|[E1|E1]], H2 as [E2|[E2|E2]]; rewrite E1, E2; done.
Qed.

Lemma RPS_contestants_swap k1 k2 r :
  k1 ≠ k2 →
  RPS.contestants [k2; k1] r
  = (λ c, (c.2, c.1)) <$> RPS.contestants [k1; k2] r.
Proof.
  intros Hne. unfold RPS.contestants.
  destruct (Nat.eqb (size (RPS.players r)) 2); [|done].
  unfold RPS.pick. cbn [foldl fst snd].
  destruct (RPS.players r !! k1) as [l1|], (RPS.players r !! k2) as [l2|];
    cbn [fst snd]; try done.
  destruct (RPS.heap r !! l1) as [p1|], (RPS.heap r !! l2) as [p2|]; try done.
  destruct (RPS.isSet (RPS.move p1)), (RPS.isSet (RPS.move p2)); done.
Qed.

(** The outcome of a turn does not depend on the order in which Go visits
    the two members when it picks the contestants, as long as every move
    on record is rock, paper, scissors or none: the events and the room
    after the turn are the same for any two visiting orders. *)
Theorem rps_turn_order_independent fails PlayerID player msg o1 o2 o2' o3 r :
  visits (RPS.players r) o2 →
  visits (RPS.players r) o2' →
  let r1 := RPS.setHeap (alter (RPS.setMove msg) player (RPS.heap r)) r in
  (∀ k p, RPS.member r1 k = Some p →
          RPS.Valid (RPS.move p) ∨ RPS.move p = EmptyString) →
  RPS.recv fails PlayerID player msg o1 o2 o3 r
  = RPS.recv fails PlayerID player msg o1 o2' o3 r.
Proof.
  intros Hv Hv' r1 Hvalid.
  destruct (decide (size (RPS.players r) = 2)) as [Hsz|Hsz].
  2:{ unfold RPS.recv, RPS.contestants. fold r1.
      cbn [RPS.players RPS.setHeap r1].
      by rewrite (proj2 (Nat.eqb_neq _ _) Hsz). }
  destruct (visits_two _ _ Hv Hsz)
    as (k1 & k2 & l1 & l2 & -> & Hne & H1 & H2 & Hall).
  destruct (visits_two _ _ Hv' Hsz)
    as (k1' & k2' & l1' & l2' & -> & Hne' & H1' & H2' & Hall').
  destruct (Hall k1') as [->| ->]; [by eexists|..];
    destruct (Hall k2') as [->| ->]; try (by eexists); try done.
  unfold RPS.recv. fold r1. rewrite (RPS_contestants_swap k1 k2 r1 Hne).
  destruct (RPS.contestants [k1; k2] r1) as [[[m1 p1] [m2 p2]]|] eqn:Hc;
    [|done].
  cbn [fmap option_fmap option_map fst snd].
  apply RPS_contestants_Some in Hc
    as (_ & (j1 & j2 & [= <- <-] & _ & Hj1 & Hj2 & _) & Hp1 & Hp2 & Hm1 & Hm2);
    [|done].
  assert (RPS.Valid (RPS.move p1)) as Hval1.
  { destruct (Hvalid k1 p1); [|done..]. unfold RPS.member. by rewrite Hj1. }
  assert (RPS.Valid (RPS.move p2)) as Hval2.
  { destruct (Hvalid k2 p2); [|done..]. unfold RPS.member. by rewrite Hj2. }
  rewrite (RPS_decide_sym p2 p1) by done. f_equal. f_equal.
  destruct (decide (m1 = m2)) as [->|Hm]; [done|].
  apply alter_alter_ne. by intros ->.
Qed.

(** Player1 has played rock and Player2 sends paper. *)
Lemma rps_turn_order_independent_witness :
  let r := RPS.mkRoom "r1" (<["Player1" := 0]> (<["Player2" := 1]> ∅))
             (<[0 := RPS.mkPlayer "Player1" 1 "rock"]>
                (<[1 := RPS.mkPlayer "Player2" 2 EmptyString]> ∅)) in
  RPS.recv (λ _, false) "Player2" 1 "paper" [] ["Player1"; "Player2"] [] r
  = RPS.recv (λ _, false) "Player2" 1 "paper" [] ["Player2"; "Player1"] [] r.
Proof.
  intros r.
  apply rps_turn_order_independent.
  - visits_by_computation.
  - visits_by_computation.
  - intros k p. unfold RPS.member. cbn.
    destruct (decide (k = "Player1")) as [->|H1];
      [|destruct (decide (k = "Player2")) as [->|H2]].
    + rewrite lookup_insert_eq. cbn. rewrite lookup_alter_ne by done.
      rewrite lookup_insert_eq. intros [= <-]. left. by left.
    + rewrite lookup_insert_ne, lookup_insert_eq by done. cbn.
      rewrite lookup_alter_eq, lookup_insert_ne, lookup_insert_eq by done.
      intros [= <-]. left. right. by left.
    + rewrite !lookup_insert_ne, lookup_empty by done. done.
Defined.

(** ** Chat: every client is served once *)

Lemma ChatRoom_start_events (fails : Conn → bool) msg order (st : ChatRoom.ChatRoom * list ChatRoom.Event) :
  NoDup order →
  (∀ c, c ∈ order → is_Some (ChatRoom.clients st.1 !! c)) →
  (foldl (λ st c, (match ChatRoom.clients st.1 !! c with
     | None => st
     | Some _ =>
         if fails c then
           (ChatRoom.mkChatRoom (delete c (ChatRoom.clients st.1)),
            st.2 ++ [ChatRoom.SendFailed c msg; ChatRoom.Println "Write error:";
                     ChatRoom.Close c])
         else (st.1, st.2 ++ [ChatRoom.Sent c msg])
     end)) st order).2
  = st.2 ++ flat_map (λ c, if fails c
                           then [ChatRoom.SendFailed c msg; ChatRoom.Println "Write error:";
                                 ChatRoom.Close c]
                           else [ChatRoom.Sent c msg]) order.
Proof.
  intros Hnd. revert st.
  induction Hnd as [|c order Hc Hnd IH]; intros st Hmem; cbn [foldl flat_map].
  { by rewrite app_nil_r. }
  rewrite IH.
  - destruct (Hmem c) as [b Hb]; [by left|]. rewrite Hb.
    destruct (fails c); cbn [snd]; by rewrite <- app_assoc.
  - intros c' Hc'. rewrite ChatRoom_start_step_other.
    + apply Hmem. by right.
    + intros ->. done.
Qed.

Lemma ChatRoom_writesTo_app c a b :
  ChatRoom.writesTo c (a ++ b) = ChatRoom.writesTo c a + ChatRoom.writesTo c b.
Proof. unfold ChatRoom.writesTo. by rewrite List.filter_app, length_app. Qed.

Lemma ChatRoom_writesTo_turn (fails : Conn → bool) msg order c :
  NoDup order →
  ChatRoom.writesTo c
    (flat_map (λ c, if fails c
                    then [ChatRoom.SendFailed c msg; ChatRoom.Println "Write error:"; ChatRoom.Close c]
                    else [ChatRoom.Sent c msg]) order)
  = if bool_decide (c ∈ order) then 1 else 0.
Proof.
  induction 1 as [|c' order Hc' Hnd IH]; cbn [flat_map].
  { rewrite bool_decide_eq_false_2; [done|]. apply not_elem_of_nil. }
  rewrite ChatRoom_writesTo_app, IH.
  assert (ChatRoom.writesTo c
            (if fails c'
             then [ChatRoom.SendFailed c' msg; ChatRoom.Println "Write error:"; ChatRoom.Close c']
             else [ChatRoom.Sent c' msg])
          = if bool_decide (c' = c) then 1 else 0) as ->.
  { unfold ChatRoom.writesTo. destruct (decide (c' = c)) as [->|Hcc].
    - rewrite bool_decide_eq_true_2 by done.
      destruct (fails c); cbn [List.filter]; by rewrite Nat.eqb_refl.
    - rewrite bool_decide_eq_false_2 by done. apply Nat.eqb_neq in Hcc.
      destruct (fails c'); cbn [List.filter]; by rewrite Hcc. }
  destruct (decide (c' = c)) as [->|Hcc].
  - rewrite bool_decide_eq_true_2 by done.
    rewrite (bool_decide_eq_false_2 (c ∈ order)) by done.
    rewrite bool_decide_eq_true_2; [done|by left].
  - rewrite (bool_decide_eq_false_2 (c' = c)) by done.
    destruct (decide (c ∈ order)) as [Hin|Hin].
    + rewrite (bool_decide_eq_true_2 (c ∈ order)) by done.
      rewrite bool_decide_eq_true_2; [done|by right].
    + rewrite (bool_decide_eq_false_2 (c ∈ order)) by done.
      rewrite bool_decide_eq_false_2; [done|].
      intros [?|?]%elem_of_cons; done.
Qed.

(** [start] of the single chat room, one turn of the loop. Every client of
    the room is written to exactly once, in the order of the visit; a
    failed write is followed at once by the printed line and the closing
    of that connection, before the next client is served; the clients
    left are those whose write did not fail; and as long as the same
    writes fail, the next turn fails for nobody: it sends its message to
    every client left and leaves the room as it is. *)
Theorem ChatRoom_start_once fails msg order room :
  visits (ChatRoom.clients room) order →
  let out := ChatRoom.start fails msg order room in
  out.2 = flat_map (λ c, if fails c
                         then [ChatRoom.SendFailed c msg; ChatRoom.Println "Write error:";
                               ChatRoom.Close c]
                         else [ChatRoom.Sent c msg]) order
  ∧ (∀ c, ChatRoom.writesTo c out.2
          = if ChatRoom.clients room !! c is Some _ then 1 else 0)
  ∧ (∀ c, ChatRoom.clients out.1 !! c
          = if fails c then None else ChatRoom.clients room !! c)
  ∧ (∀ msg' order',
       visits (ChatRoom.clients out.1) order' →
       ChatRoom.start fails msg' order' out.1
       = (out.1, (λ c, ChatRoom.Sent c msg') <$> order')).
Proof.
  intros [Hnd Hiff] out.
  assert (out.2 = flat_map (λ c, if fails c
                         then [ChatRoom.SendFailed c msg; ChatRoom.Println "Write error:";
                               ChatRoom.Close c]
                         else [ChatRoom.Sent c msg]) order) as Hev.
  { unfold out, ChatRoom.start. rewrite ChatRoom_start_events; [done..|].
    intros c Hc. by apply Hiff. }
  destruct (ChatRoom_start_fold fails msg order (room, []) Hnd)
    as (Hout & Hin & _ & _ & _).
  fold (ChatRoom.start fails msg order room) in Hout, Hin.
  fold out in Hout, Hin. cbn [fst snd] in *.
  assert (∀ c, ChatRoom.clients out.1 !! c
               = if fails c then None else ChatRoom.clients room !! c) as Hcl.
  { intros c. destruct (decide (c ∈ order)) as [Hc|Hc]; [by apply Hin|].
    rewrite Hout by done.
    destruct (ChatRoom.clients room !! c) as [b|] eqn:Hb; [|by destruct (fails c)].
    exfalso. apply Hc, Hiff. by eexists. }
  split_and!; [done| |done|].
  - intros c. rewrite Hev, ChatRoom_writesTo_turn by done.
    case_bool_decide as Hc.
    + apply Hiff in Hc as [b ->]. done.
    + destruct (ChatRoom.clients room !! c) as [b|] eqn:Hb; [|done].
      exfalso. apply Hc, Hiff. by eexists.
  - intros msg' order' [Hnd' Hiff'].
    assert (∀ c, c ∈ order' → fails c = false) as Hok.
    { intros c [b Hb]%Hiff'. rewrite Hcl in Hb. by destruct (fails c). }
    destruct (ChatRoom_start_fold fails msg' order' (out.1, []) Hnd')
      as (Hout' & Hin' & _ & _ & _).
    pose proof (ChatRoom_start_events fails msg' order' (out.1, []) Hnd') as Hev'.
    fold (ChatRoom.start fails msg' order' out.1) in Hout', Hin', Hev'.
    cbn [fst snd] in *.
    rewrite (surjective_pairing (ChatRoom.start fails msg' order' out.1)).
    f_equal.
    + assert (ChatRoom.clients (ChatRoom.start fails msg' order' out.1).1
              = ChatRoom.clients out.1) as Heq.
      { apply map_eq. intros c.
        destruct (decide (c ∈ order')) as [Hc|Hc]; [|by apply Hout'].
        rewrite Hin' by done. by rewrite Hok. }
      destruct (ChatRoom.start fails msg' order' out.1).1 as [m1].
      destruct out.1 as [m2]. cbn in Heq. by subst.
    + rewrite Hev'; [|intros c Hc; by apply Hiff'].
      cbn [app]. clear -Hok.
      induction order' as [|c order' IH]; [done|]. cbn [flat_map fmap list_fmap].
      rewrite (Hok c) by (by left). cbn [app]. f_equal. apply IH.
      intros c' Hc'. apply Hok. by right.
Qed.

(** Three clients, the write to the second failing. *)
Lemma ChatRoom_start_once_witness :
  let room := ChatRoom.join 3 (ChatRoom.join 2 (ChatRoom.join 1 ChatRoom.NewChatRoom)) in
  let fails := λ c : Conn, Nat.eqb c 2 in
  (ChatRoom.start fails "hello" [3; 2; 1] room).2
  = [ChatRoom.Sent 3 "hello"; ChatRoom.SendFailed 2 "hello";
     ChatRoom.Println "Write error:"; ChatRoom.Close 2; ChatRoom.Sent 1 "hello"].
Proof.
  intros room fails.
  assert (visits (ChatRoom.clients room) [3; 2; 1]) as Hv
    by visits_by_computation.
  exact (proj1 (ChatRoom_start_once fails "hello" [3; 2; 1] room Hv)).
Defined.








(** ** Rock-paper-scissors: after a verdict *)




(** ** Rock-paper-scissors: an id given out twice *)




(** ** Number guessing: the range of the secret *)

(** [handleConnections] of the guessing game and the secret. A secret in
    [1,100], as [getRoom] draws it, stays in [1,100] over every join,
    clean-up and turn of a session, the new secret after a right guess
    included. So a guess outside [1,100] is never right: one below 1 gets
    the too-low reply and one above 100 the too-high reply, to the sender
    alone and with the room left as it is. *)
Theorem Guess_secret_stays_in_range r :
  (1 ≤ Guess.secret r ≤ 100)%Z →
  (∀ c order, (1 ≤ Guess.secret (Guess.join c order r).1.2 ≤ 100)%Z)
  ∧ (∀ playerID c order,
       (1 ≤ Guess.secret (Guess.leave playerID c order r).1 ≤ 100)%Z)
  ∧ (∀ playerID player parsed o1 o2 o3 g,
       (1 ≤ Guess.secret
              (Guess.recv playerID player parsed o1 o2 o3 r g).1.2 ≤ 100)%Z)
  ∧ (∀ playerID player guess o1 o2 o3 g,
       (guess < 1)%Z →
       Guess.recv playerID player (Some guess) o1 o2 o3 r g
       = ([Guess.Write (Guess.conn player) "太小了"], r, g))
  ∧ (∀ playerID player guess o1 o2 o3 g,
       (100 < guess)%Z →
       Guess.recv playerID player (Some guess) o1 o2 o3 r g
       = ([Guess.Write (Guess.conn player) "太大了"], r, g)).
Proof.
  intros Hs. split_and!.
  - done.
  - done.
  - intros playerID player parsed o1 o2 o3 g. unfold Guess.recv.
    destruct parsed as [guess|]; [|done].
    destruct (guess <? Guess.secret r)%Z; [done|].
    destruct (guess >? Guess.secret r)%Z; [done|].
    destruct (Intn 100 g) as [x g1] eqn:Hx. cbn.
    apply Intn_range in Hx; lia.
  - intros playerID player guess o1 o2 o3 g Hlow. unfold Guess.recv.
    destruct (Z.ltb_spec guess (Guess.secret r)); [done|lia].
  - intros playerID player guess o1 o2 o3 g Hhigh. unfold Guess.recv.
    destruct (Z.ltb_spec guess (Guess.secret r)); [lia|].
    destruct (Z.gtb_spec guess (Guess.secret r)); [done|lia].
Qed.

(** The secret is 42 and the guess is 101. *)
Lemma Guess_secret_stays_in_range_witness :
  let r := Guess.mkRoom "r1" (<["P1" := Guess.mkPlayer "P1" 1]> ∅) 42 in
  Guess.recv "P1" (Guess.mkPlayer "P1" 1) (Some 101%Z) ["P1"] ["P1"] ["P1"] r []
  = ([Guess.Write 1 "太大了"], r, []).
Proof.
  intros r.
  assert (1 ≤ Guess.secret r ≤ 100)%Z as Hs by (cbn; lia).
  destruct (Guess_secret_stays_in_range r Hs) as (_ & _ & _ & _ & Hhigh).
  apply (Hhigh "P1" (Guess.mkPlayer "P1" 1) 101%Z). lia.
Defined.

(** ** Registry of the chat with many rooms *)

Lemma Chat_getRoom_spec n s l s' launched :
  Chat.getRoom n s = (l, s', launched) →
  Chat.rooms s' !! n = Some l
  ∧ (∀ m l0, Chat.rooms s !! m = Some l0 → Chat.rooms s' !! m = Some l0)
  ∧ (size (Chat.store s) = size (Chat.rooms s) →
     size (Chat.store s') = size (Chat.rooms s')).
Proof.
  unfold Chat.getRoom. intros H.
  destruct (Chat.rooms s !! n) as [l0|] eqn:E.
  - by simplify_eq.
  - simplify_eq. cbn. split_and!.
    + by rewrite lookup_insert_eq.
    + intros m l0 Hm. rewrite lookup_insert_ne; [done | congruence].
    + intros Hsz. rewrite !map_size_insert_None; [lia | done |].
      apply not_elem_of_dom, is_fresh.
Qed.

Lemma Chat_getRoom_served n s started l s' launched :
  Chat.served s started →
  Chat.getRoom n s = (l, s', launched) →
  Chat.served s' (started ++ launched).
Proof.
  intros (Hnd & Hiff & Hreg). unfold Chat.getRoom.
  destruct (Chat.rooms s !! n) as [l0|] eqn:E; intros H; simplify_eq.
  { rewrite app_nil_r. done. }
  set (l := fresh (dom (Chat.store s))).
  assert (Chat.store s !! l = None) as Hfresh
    by apply not_elem_of_dom, is_fresh.
  split_and!; cbn.
  - apply NoDup_app. split_and!; [done| |apply NoDup_singleton].
    intros l0 Hl0 ->%list_elem_of_singleton.
    apply Hiff in Hl0 as [room Hroom]. congruence.
  - intros l0. rewrite elem_of_app, list_elem_of_singleton, Hiff.
    destruct (decide (l0 = l)) as [->|Hne].
    + rewrite lookup_insert_eq. split; [by eexists|by right].
    + rewrite lookup_insert_ne by done. split; [|by left].
      by intros [?|?].
  - intros m l0. destruct (decide (n = m)) as [->|Hne].
    + rewrite lookup_insert_eq. intros [= <-].
      rewrite lookup_insert_eq. by eexists.
    + rewrite lookup_insert_ne by done. intros Hm.
      destruct (Hreg _ _ Hm) as (room & Hroom & Hname).
      exists room. split; [|done]. rewrite lookup_insert_ne; [done|].
      intros ->. congruence.
Qed.

(** [ChatServer.getRoom] of the chat with many rooms, in every
    interleaving of any number of concurrent calls on a new server. The
    loop of [start] is launched exactly once for every room that exists,
    and for nothing else; every call that has returned holds the room
    that the registry has under the requested name, which is a stored
    room of that name, so that two calls for one name hold the same room;
    and there are as many rooms as registered names. *)
Theorem Chat_one_loop_per_room names s started pool :
  rtc Chat.step (Chat.NewChatServer, [], Pending <$> names) (s, started, pool) →
  NoDup started
  ∧ (∀ l, l ∈ started ↔ is_Some (Chat.store s !! l))
  ∧ (∀ i n l, pool !! i = Some (Returned n l) →
              Chat.rooms s !! n = Some l
              ∧ ∃ room, Chat.store s !! l = Some room ∧ Chat.name room = n)
  ∧ (∀ i j n l1 l2, pool !! i = Some (Returned n l1) →
                    pool !! j = Some (Returned n l2) → l1 = l2)
  ∧ size (Chat.store s) = size (Chat.rooms s).
Proof.
  intros Hrun.
  assert (Chat.served s started
          ∧ registry_inv (Chat.rooms s) (size (Chat.store s)) pool)
    as [(Hnd & Hiff & Hreg) [Hret Hsz]].
  { change (Chat.served (s, started, pool).1.1 (s, started, pool).1.2
            ∧ registry_inv (Chat.rooms (s, started, pool).1.1)
                (size (Chat.store (s, started, pool).1.1)) (s, started, pool).2).
    revert Hrun. generalize (s, started, pool). apply rtc_ind_r.
    - cbn. split.
      + split_and!; [apply NoDup_nil_2| |].
        * intros l. unfold Chat.NewChatServer. cbn [Chat.store].
          rewrite lookup_empty. split; [by intros ?%elem_of_nil|].
          by intros [? ?].
        * intros n l Hn. unfold Chat.NewChatServer in Hn. cbn in Hn.
          by rewrite lookup_empty in Hn.
      + unfold Chat.NewChatServer. cbn [Chat.store Chat.rooms].
        rewrite map_size_empty. apply registry_inv_init.
    - intros [[s1 st1] p1] [[s2 st2] p2] _ Hstep [Hserved Hinv]. cbn in *.
      inversion Hstep as [i n s0 st0 p0 l s0' launched Hi Hget]; subst.
      split; [by eapply Chat_getRoom_served|].
      apply Chat_getRoom_spec in Hget as (Hn & Hmono & Hsize).
      eapply registry_inv_insert; eauto. intros; by simplify_eq. }
  split_and!; try done.
  - intros i n l Hi. split; [by eapply Hret|].
    apply Hreg. by eapply Hret.
  - intros i j n l1 l2 Hi Hj. apply Hret in Hi. apply Hret in Hj. congruence.
Qed.

(** Three concurrent calls, two of them for the room r1: two rooms and
    two loops. *)
Lemma Chat_one_loop_per_room_witness :
  ∃ s started pool,
    rtc Chat.step (Chat.NewChatServer, [], Pending <$> ["r1"; "r2"; "r1"])
                  (s, started, pool)
    ∧ pool = [Returned "r1" 0; Returned "r2" 1; Returned "r1" 0]
    ∧ started = [0; 1]
    ∧ NoDup started.
Proof.
  assert (∃ s started pool,
    rtc Chat.step (Chat.NewChatServer, [], Pending <$> ["r1"; "r2"; "r1"])
                  (s, started, pool)
    ∧ pool = [Returned "r1" 0; Returned "r2" 1; Returned "r1" 0]
    ∧ started = [0; 1]) as (s & started & pool & Hrun & Hpool & Hstarted).
  { eexists _, _, _. split_and!.
    - eapply rtc_l; [eapply (Chat.step_getRoom 0); [reflexivity|]; vm_compute; reflexivity|].
      eapply rtc_l; [eapply (Chat.step_getRoom 1); [reflexivity|]; vm_compute; reflexivity|].
      eapply rtc_l; [eapply (Chat.step_getRoom 2); [reflexivity|]; vm_compute; reflexivity|].
      apply rtc_refl.
    - reflexivity.
    - reflexivity. }
  exists s, started, pool. split_and!; try done.
  exact (proj1 (Chat_one_loop_per_room _ s started pool Hrun)).
Defined.

(** ** Registry of rock-paper-scissors *)

Lemma RPS_createExcl_spec n s l s' :
  RPS.createExcl n s = (l, s') →
  RPS.rooms s' !! n = Some l
  ∧ (∀ m l0, RPS.rooms s !! m = Some l0 → RPS.rooms s' !! m = Some l0)
  ∧ (size (RPS.store s) = size (RPS.rooms s) →
     size (RPS.store s') = size (RPS.rooms s'))
  ∧ (RPS.registered s → RPS.registered s')
  ∧ (∀ l0 room, RPS.store s !! l0 = Some room → RPS.store s' !! l0 = Some room).
Proof.
  unfold RPS.createExcl. intros H.
  destruct (RPS.rooms s !! n) as [l0|] eqn:E.
  - by simplify_eq.
  - simplify_eq. cbn.
    set (l := fresh (dom (RPS.store s))).
    assert (RPS.store s !! l = None) as Hfresh
      by apply not_elem_of_dom, is_fresh.
    split_and!.
    + by rewrite lookup_insert_eq.
    + intros m l0 Hm. rewrite lookup_insert_ne; [done | congruence].
    + intros Hsz. rewrite !map_size_insert_None; [lia | done | done].
    + intros Hreg m l0. cbn. destruct (decide (n = m)) as [->|Hne].
      * rewrite lookup_insert_eq. intros [= <-].
        rewrite lookup_insert_eq. by eexists.
      * rewrite lookup_insert_ne by done. intros Hm.
        destruct (Hreg _ _ Hm) as (room & Hroom & Hname).
        exists room. split; [|done]. rewrite lookup_insert_ne; [done|].
        intros ->. congruence.
    + intros l0 room Hroom. rewrite lookup_insert_ne; [done|].
      intros ->. congruence.
Qed.

Lemma RPS_step_inv s pool s' pool' :
  RPS.step (s, pool) (s', pool') →
  RPS.registered s
  ∧ registry_inv (RPS.rooms s) (size (RPS.store s)) pool →
  RPS.registered s'
  ∧ registry_inv (RPS.rooms s') (size (RPS.store s')) pool'.
Proof.
  inversion 1 as [i n s0 p0 Hi|i n s0 p0 l s0' Hi Hcreate]; subst;
    intros [Hreg Hinv].
  - split; [done|]. eapply registry_inv_insert; eauto.
    unfold RPS.lookupShared. intros n0 l0.
    destruct (RPS.rooms s' !! n) eqn:E; intros; simplify_eq. done.
  - apply RPS_createExcl_spec in Hcreate as (Hn & Hmono & Hsz & Hreg' & _).
    split; [auto|]. eapply registry_inv_insert; eauto. intros; by simplify_eq.
Qed.

(** [ChatServer.getRoom] of rock-paper-scissors, whose lookup under the
    read lock and creation under the write lock are two critical
    sections. A call on a registry whose names lead to rooms of that name
    returns the registered room if there is one, changing nothing, and
    else registers a new room of that name without players; no stored
    room is changed or dropped; and a repeated call returns the same
    room. In every interleaving of the critical sections of concurrent
    calls on a new server, also when several calls for one name all miss
    in the lookup, every returned call holds the room registered under
    its name, a stored room of that name, and there are as many rooms as
    names. *)
Theorem RPS_getRoom_one_room_per_name :
  (∀ n s l s',
     RPS.registered s →
     RPS.getRoom n s = (l, s') →
     RPS.registered s'
     ∧ RPS.rooms s' !! n = Some l
     ∧ (∀ l0, RPS.rooms s !! n = Some l0 → l = l0 ∧ s' = s)
     ∧ (RPS.rooms s !! n = None →
        RPS.store s !! l = None ∧ RPS.store s' !! l = Some (RPS.NewRoom n))
     ∧ (∀ l0 room, RPS.store s !! l0 = Some room →
                   RPS.store s' !! l0 = Some room)
     ∧ RPS.getRoom n s' = (l, s'))
  ∧ (∀ names s pool,
       rtc RPS.step (RPS.NewChatServer, Pending <$> names) (s, pool) →
       (∀ i n l, pool !! i = Some (Returned n l) →
                 RPS.rooms s !! n = Some l
                 ∧ ∃ room, RPS.store s !! l = Some room ∧ RPS.name room = n)
       ∧ (∀ i j n l1 l2, pool !! i = Some (Returned n l1) →
                         pool !! j = Some (Returned n l2) → l1 = l2)
       ∧ size (RPS.store s) = size (RPS.rooms s)).
Proof.
  split.
  - intros n s l s' Hreg Hget.
    unfold RPS.getRoom, RPS.lookupShared in Hget.
    destruct (RPS.rooms s !! n) as [l1|] eqn:Hn.
    + simplify_eq. split_and!; try done.
      * by intros l0 [= <-].
      * unfold RPS.getRoom, RPS.lookupShared. by rewrite Hn.
    + pose proof Hget as Hcreate.
      apply RPS_createExcl_spec in Hcreate
        as (Hn' & Hmono & _ & Hreg' & Hstore).
      split_and!; auto; try done.
      * intros _. unfold RPS.createExcl in Hget. rewrite Hn in Hget.
        simplify_eq. cbn. split; [apply not_elem_of_dom, is_fresh|].
        by rewrite lookup_insert_eq.
      * unfold RPS.getRoom, RPS.lookupShared. by rewrite Hn'.
  - intros names s pool Hrun.
    assert (RPS.registered s
            ∧ registry_inv (RPS.rooms s) (size (RPS.store s)) pool)
      as [Hreg [Hret Hsz]].
    { change (RPS.registered (s, pool).1
              ∧ registry_inv (RPS.rooms (s, pool).1)
                  (size (RPS.store (s, pool).1)) (s, pool).2).
      revert Hrun. generalize (s, pool). apply rtc_ind_r.
      - unfold RPS.NewChatServer. cbn [fst snd RPS.rooms RPS.store]. split.
        + intros n l Hn. cbn in Hn. by rewrite lookup_empty in Hn.
        + rewrite map_size_empty. apply registry_inv_init.
      - intros [s1 p1] [s2 p2] _ Hstep IH. cbn [fst snd] in *.
        by eapply RPS_step_inv. }
    split_and!; [| |done].
    + intros i n l Hi. split; [by eapply Hret|]. apply Hreg. by eapply Hret.
    + intros i j n l1 l2 Hi Hj. apply Hret in Hi. apply Hret in Hj.
      congruence.
Qed.

(** Two concurrent first calls for the room r1 that both miss in the
    lookup: the second to take the write lock finds the room of the
    first. *)
Lemma RPS_getRoom_one_room_per_name_witness :
  ∃ s pool,
    rtc RPS.step (RPS.NewChatServer, Pending <$> ["r1"; "r1"]) (s, pool)
    ∧ pool = [Returned "r1" 0; Returned "r1" 0]
    ∧ size (RPS.store s) = size (RPS.rooms s).
Proof.
  assert (∃ s pool,
    rtc RPS.step (RPS.NewChatServer, Pending <$> ["r1"; "r1"]) (s, pool)
    ∧ pool = [Returned "r1" 0; Returned "r1" 0]) as (s & pool & Hrun & Hpool).
  { eexists _, _. split.
    - eapply rtc_l; [eapply (RPS.step_lookup 0); reflexivity|].
      eapply rtc_l; [eapply (RPS.step_lookup 1); reflexivity|].
      eapply rtc_l; [eapply (RPS.step_create 0); [reflexivity|]; vm_compute; reflexivity|].
      eapply rtc_l; [eapply (RPS.step_create 1); [reflexivity|]; vm_compute; reflexivity|].
      apply rtc_refl.
    - reflexivity. }
  exists s, pool. split_and!; try done.
  exact (proj2 (proj2 (proj2 RPS_getRoom_one_room_per_name _ s pool Hrun))).
Defined.

(** ** Snake: the score counts the segments gained *)

Lemma wrap_wrap_succ z : wrap (wrap z + 1) = wrap (z + 1).
Proof.
  unfold wrap.
  replace ((z + 2 ^ 63) `mod` 2 ^ 64 - 2 ^ 63 + 1 + 2 ^ 63)%Z
    with ((z + 2 ^ 63) `mod` 2 ^ 64 + 1)%Z by lia.
  rewrite Zplus_mod_idemp_l. f_equal. f_equal. lia.
Qed.

Lemma wrap_small z : (int_min ≤ z ≤ int_max)%Z → wrap z = z.
Proof.
  unfold wrap, int_min, int_max. intros Hz. rewrite Z.mod_small; lia.
Qed.

Lemma updateSnake_grown s0 st j k s :
  Snake.players st.1.1 !! k = Some s → Snake.grown s0 s →
  ∃ s', Snake.players (Snake.updateSnake st j).1.1 !! k = Some s'
        ∧ Snake.grown s0 s'.
Proof.
  intros Hk Hg. destruct (decide (k = j)) as [->|Hne].
  2:{ exists s. by rewrite updateSnake_other. }
  destruct st as [[r g] ev]. cbn [fst] in Hk.
  destruct Hg as [Hlen Hscore].
  destruct (updateSnake_guarded r g ev j)
    as [[_ ->]|[(s1 & head & tl & Hj & Halive & Hbody & _ & ->)
       |[(s1 & head & tl & Hj & Halive & Hbody & _ & _ & _ & _ & ->)
        |(s1 & head & tl & Hj & Halive & Hbody & _ & _ & _ & _ & Heq)]]].
  - by exists s.
  - simplify_eq. eexists.
    cbn [fst Snake.players Snake.setPlayers]. rewrite lookup_insert_eq.
    split; [done|]. by split.
  - simplify_eq. eexists.
    cbn [fst Snake.players Snake.setPlayers]. rewrite lookup_insert_eq.
    split; [done|]. unfold Snake.grown.
    cbn [Snake.Body Snake.setBody Snake.Score length].
    rewrite length_removelast_cons. rewrite Hbody in Hlen, Hscore.
    cbn [length] in Hlen, Hscore. by split.
  - cbv zeta in Heq. rewrite Heq. simplify_eq. eexists.
    cbn [fst Snake.players Snake.setPlayers Snake.setFood].
    rewrite lookup_insert_eq. split; [done|]. unfold Snake.grown.
    cbn [Snake.Body Snake.setBody Snake.Score Snake.setScore].
    rewrite last_length. cbn [length]. rewrite length_removelast_cons.
    rewrite Hbody in Hlen, Hscore. cbn [length] in Hlen, Hscore.
    split; [lia|]. rewrite Hscore, wrap_wrap_succ. f_equal. lia.
Qed.

Lemma foldl_updateSnake_grown s0 order st k s :
  Snake.players st.1.1 !! k = Some s → Snake.grown s0 s →
  ∃ s', Snake.players (foldl Snake.updateSnake st order).1.1 !! k = Some s'
        ∧ Snake.grown s0 s'.
Proof.
  revert st s. induction order as [|j order IH]; intros st s Hk Hg;
    [by exists s|].
  cbn [foldl].
  destruct (updateSnake_grown s0 st j k s Hk Hg) as (s1 & Hk1 & Hg1).
  by apply (IH _ s1).
Qed.

Lemma ticks_grown s0 sched st k s :
  Snake.players st.1.1 !! k = Some s → Snake.grown s0 s →
  ∃ s', Snake.players (Snake.ticks sched st).1.1 !! k = Some s'
        ∧ Snake.grown s0 s'.
Proof.
  revert st s. induction sched as [|[order border] sched IH];
    intros [[r g] ev] s Hk Hg; [by exists s|].
  cbn [Snake.ticks].
  destruct (foldl_updateSnake_grown s0 order (r, g, []) k s Hk Hg)
    as (s1 & Hk1 & Hg1).
  rewrite <- update_room with (border := border) in Hk1.
  destruct (Snake.update order border r g) as [[r' g'] ev'].
  by apply (IH _ s1).
Qed.

(** [Room.update] and the score. Over any number of ticks a snake stays in
    the room, never gets shorter, and its score goes up, as a Go int, by
    exactly the number of segments it has gained. So the snake that
    [handleWS] registers, one segment long with score 0, has at every
    later tick the score of its length less one. *)
Theorem score_counts_growth sched r g ev :
  (∀ k s0,
     Snake.players r !! k = Some s0 →
     (int_min ≤ Snake.Score s0 ≤ int_max)%Z →
     ∃ s, Snake.players (Snake.ticks sched (r, g, ev)).1.1 !! k = Some s
          ∧ (length (Snake.Body s0) ≤ length (Snake.Body s))%nat
          ∧ Snake.Score s
            = wrap (Snake.Score s0
                    + Z.of_nat (length (Snake.Body s) - length (Snake.Body s0))))
  ∧ (∀ c g0 r0,
       (Snake.join c r0 g0).1.1.2 = r → (Snake.join c r0 g0).1.2 = g →
       ∃ s, Snake.players (Snake.ticks sched (r, g, ev)).1.1
              !! (Snake.join c r0 g0).1.1.1.1 = Some s
            ∧ (1 ≤ length (Snake.Body s))%nat
            ∧ Snake.Score s = wrap (Z.of_nat (length (Snake.Body s)) - 1)
            ∧ ((Z.of_nat (length (Snake.Body s)) ≤ int_max)%Z →
               Snake.Score s = (Z.of_nat (length (Snake.Body s)) - 1)%Z)).
Proof.
  split.
  - intros k s0 Hk Hint.
    destruct (ticks_grown s0 sched (r, g, ev) k s0 Hk) as (s & Hs & Hlen & Hsc).
    { split; [done|]. rewrite Nat.sub_diag, Z.add_0_r. by rewrite wrap_small. }
    by exists s.
  - intros c g0 r0 Hr Hg.
    set (playerID := (Snake.join c r0 g0).1.1.1.1).
    set (snake := (Snake.join c r0 g0).1.1.1.2).
    assert (Snake.players r !! playerID = Some snake
            ∧ Snake.Score snake = 0%Z ∧ length (Snake.Body snake) = 1)
      as (Hk & Hsc0 & Hlen0).
    { subst r. unfold playerID, snake, Snake.join.
      destruct (Intn (Snake.width r0) g0) as [x g1].
      destruct (Intn (Snake.height r0) g1) as [y g2].
      cbn [fst snd Snake.players Snake.setPlayers].
      by rewrite lookup_insert_eq. }
    destruct (ticks_grown snake sched (r, g, ev) playerID snake Hk)
      as (s & Hs & Hlen & Hsc).
    { split; [done|]. rewrite Nat.sub_diag, Z.add_0_r, Hsc0. done. }
    rewrite Hsc0, Hlen0 in Hsc. rewrite Hlen0 in Hlen.
    assert (Snake.Score s = wrap (Z.of_nat (length (Snake.Body s)) - 1)) as Hw.
    { rewrite Hsc. f_equal. lia. }
    exists s. split_and!; try done.
    intros Hmax. rewrite Hw. apply wrap_small.
    unfold int_min, int_max in *. lia.
Qed.

(** P1 is next to the food and eats it in the first tick. *)
Lemma score_counts_growth_witness :
  let A := Snake.mkSnake "P1" [Snake.mkPoint 5 5] "right" 0 true (Some 1) in
  let r := Snake.mkRoom "r1" 20 20 (<["P1" := A]> ∅) (Snake.mkPoint 6 5) true in
  ∃ s, Snake.players
         (Snake.ticks [(["P1"], ["P1"]); (["P1"], ["P1"])] (r, [3%Z; 4%Z], [])).1.1
         !! "P1" = Some s
       ∧ (1 ≤ length (Snake.Body s))%nat
       ∧ Snake.Score s = wrap (0 + Z.of_nat (length (Snake.Body s) - 1)).
Proof.
  intros A r.
  apply (proj1 (score_counts_growth [(["P1"], ["P1"]); (["P1"], ["P1"])]
                  r [3%Z; 4%Z] []) "P1" A).
  - vm_compute. reflexivity.
  - unfold int_min, int_max. cbn. lia.
Defined.

(** ** Chat: the end of a session *)

(** [handleConnections] of the two chat programs, the clean-up of a
    session. The clients are filed under their connections, so the
    clean-up of a session removes its own connection and no other, and a
    connection that joins and leaves puts the room back as it was if it
    was not a client before. A client whose write failed in the loop of
    [start] has been closed and removed there; when its session ends, the
    clean-up closes the connection a second time and leaves the room as
    the loop left it. *)
Theorem chat_session_cleanup :
  (∀ c room,
     let fin := ChatRoom.leave c (ChatRoom.join c room) in
     fin.2 = [ChatRoom.Close c]
     ∧ ChatRoom.clients fin.1 !! c = None
     ∧ (∀ c', c' ≠ c →
          ChatRoom.clients fin.1 !! c' = ChatRoom.clients room !! c'
          ∧ ChatRoom.clients (ChatRoom.leave c' (ChatRoom.join c room)).1 !! c
            = Some true)
     ∧ (ChatRoom.clients room !! c = None → fin.1 = room))
  ∧ (∀ fails msg order room c,
       visits (ChatRoom.clients room) order →
       is_Some (ChatRoom.clients room !! c) → fails c = true →
       let out := ChatRoom.start fails msg order room in
       ChatRoom.Close c ∈ out.2
       ∧ ChatRoom.leave c out.1 = (out.1, [ChatRoom.Close c]))
  ∧ (∀ c r,
       let fin := Chat.leave c (Chat.join c r) in
       fin.2 = [Chat.Close c]
       ∧ Chat.name fin.1 = Chat.name r
       ∧ Chat.clients fin.1 !! c = None
       ∧ (∀ c', c' ≠ c →
            Chat.clients fin.1 !! c' = Chat.clients r !! c'
            ∧ Chat.clients (Chat.leave c' (Chat.join c r)).1 !! c = Some true)
       ∧ (Chat.clients r !! c = None → fin.1 = r))
  ∧ (∀ fails msg order r c,
       visits (Chat.clients r) order →
       is_Some (Chat.clients r !! c) → fails c = true →
       let out := Chat.start fails msg order r in
       Chat.Close c ∈ out.2
       ∧ Chat.leave c out.1 = (out.1, [Chat.Close c])).
Proof.
  split_and!.
  - intros c room fin. unfold fin, ChatRoom.leave, ChatRoom.join.
    cbn [fst snd ChatRoom.clients]. split_and!.
    + done.
    + apply lookup_delete_eq.
    + intros c' Hne. split.
      * rewrite lookup_delete_ne, lookup_insert_ne by done. done.
      * rewrite lookup_delete_ne, lookup_insert_eq by done. done.
    + intros Hnone. destruct room as [m]. cbn in *. f_equal.
      by apply delete_insert_id.
  - intros fails msg order room c Hv Hmem Hfail out.
    destruct (ChatRoom_start_spec fails msg order room Hv) as (_ & Hko & _).
    destruct (Hko c Hmem Hfail) as (_ & _ & Hclose & Hgone).
    fold out in Hclose, Hgone. split; [done|].
    unfold ChatRoom.leave. f_equal.
    destruct out.1 as [m]. cbn in *. f_equal. by apply delete_id.
  - intros c r fin. unfold fin, Chat.leave, Chat.join, Chat.setClients.
    cbn [fst snd Chat.clients Chat.name]. split_and!.
    + done.
    + done.
    + apply lookup_delete_eq.
    + intros c' Hne. split.
      * rewrite lookup_delete_ne, lookup_insert_ne by done. done.
      * rewrite lookup_delete_ne, lookup_insert_eq by done. done.
    + intros Hnone. destruct r as [n m]. cbn in *. f_equal.
      by apply delete_insert_id.
  - intros fails msg order r c Hv Hmem Hfail out.
    destruct (Chat_start_spec fails msg order r Hv) as (_ & Hko & _).
    destruct (Hko c Hmem Hfail) as (_ & _ & Hclose & Hgone).
    fold out in Hclose, Hgone. split; [done|].
    unfold Chat.leave, Chat.setClients. f_equal.
    destruct out.1 as [n m]. cbn in *. f_equal. by apply delete_id.
Qed.

(** Three clients in the one chat room; the write to the second fails and
    its session ends afterwards. *)
Lemma chat_session_cleanup_witness :
  let room := ChatRoom.join 3 (ChatRoom.join 2 (ChatRoom.join 1 ChatRoom.NewChatRoom)) in
  let fails := λ c : Conn, Nat.eqb c 2 in
  let out := ChatRoom.start fails "hello" [3; 2; 1] room in
  ChatRoom.Close 2 ∈ out.2
  ∧ ChatRoom.leave 2 out.1 = (out.1, [ChatRoom.Close 2]).
Proof.
  intros room fails out.
  assert (visits (ChatRoom.clients room) [3; 2; 1]) as Hv
    by visits_by_computation.
  apply (proj1 (proj2 chat_session_cleanup) fails "hello" [3; 2; 1] room 2 Hv).
  - by eexists.
  - reflexivity.
Defined.
